(** * Knowledge-Graph-Builder: extraction and reconciliation engine

    A shallow embedding of the TypeScript sources

    - class LocalNLPProcessor (src/unnamed/part_002): rule-based extraction,
    - class GeminiNLPProcessor (last part of src/app/api/websocket/route.ts):
      post-filtering of the model-backed extraction,
    - class HybridNLPProcessor (src/lib/hybrid-nlp-processor.ts): the
      coordinator,
    - class EnhancedNeo4jService (src/lib/enhanced-neo4j-service.ts): the
      graph reconciler,
    - the POST handler of the process-text route (src/unnamed/part_001),
    - class EnhancedFileProcessor (first part of
      src/app/api/websocket/route.ts): file dispatch and text normalisation,
    - the POST handler of the process-file route (src/app/page.tsx),

    followed by the properties of the specification that concern them.

    Conventions.  JavaScript strings are [string]s of 8-bit characters; case
    folding, [\w], [\s] and [trim] act on the ASCII letters, digits and blanks
    and leave every other character alone.  Confidences are rationals ([Q]);
    the code only copies and compares them.  A JavaScript object used as a
    property bag is a [gmap string value].  An entity or relationship type
    reaches the store spliced into the text of a Cypher query; the queries
    have the meaning given here for types that are names (a letter or an
    underscore, then letters, digits and underscores), and fail for every
    other type. *)

From Stdlib Require Import QArith Qminmax Ascii String.
From stdpp Require Import gmap strings list fin_maps.

Open Scope string_scope.
Open Scope list_scope.

(** ** Property values

    What the extractors put into property bags and what the graph store
    keeps on nodes and edges: numbers, strings, booleans, lists of strings
    and the timestamps produced by [datetime()]. *)

Inductive value :=
| VNum (q : Q)
| VStr (s : string)
| VBool (b : bool)
| VList (l : list string)
| VTime (t : nat).

(** JavaScript truthiness of an optional value, as tested by [x || dflt]. *)
Definition truthy (v : option value) : bool :=
  match v with
  | None => false
  | Some (VNum q) => negb (Qeq_bool q 0)
  | Some (VStr s) => negb (String.eqb s "")
  | Some (VBool b) => b
  | Some (VList _) => true
  | Some (VTime _) => true
  end.

(** ** JavaScript string primitives *)

Module JS.

Definition in_range (lo hi c : ascii) : bool :=
  Ascii.leb lo c && Ascii.leb c hi.

Definition is_upper (c : ascii) : bool := in_range "A" "Z" c.
Definition is_lower (c : ascii) : bool := in_range "a" "z" c.
Definition is_digit (c : ascii) : bool := in_range "0" "9" c.

(** [\w] *)
Definition is_word (c : ascii) : bool :=
  is_upper c || is_lower c || is_digit c || Ascii.eqb c "_".

(** [\s], and the characters removed by [trim]: TAB, LF, VT, FF, CR, SPACE. *)
Definition is_space (c : ascii) : bool :=
  in_range "009" "013" c || Ascii.eqb c " ".

Definition lower_char (c : ascii) : ascii :=
  if is_upper c then ascii_of_nat (nat_of_ascii c + 32) else c.

Definition upper_char (c : ascii) : ascii :=
  if is_lower c then ascii_of_nat (nat_of_ascii c - 32) else c.

Fixpoint toLowerCase (s : string) : string :=
  match s with
  | EmptyString => EmptyString
  | String c r => String (lower_char c) (toLowerCase r)
  end.

Fixpoint toUpperCase (s : string) : string :=
  match s with
  | EmptyString => EmptyString
  | String c r => String (upper_char c) (toUpperCase r)
  end.

Fixpoint trimStart (s : string) : string :=
  match s with
  | EmptyString => EmptyString
  | String c r => if is_space c then trimStart r else s
  end.

Fixpoint trimEnd (s : string) : string :=
  match s with
  | EmptyString => EmptyString
  | String c r =>
      match trimEnd r with
      | EmptyString => if is_space c then EmptyString else String c EmptyString
      | r' => String c r'
      end
  end.

Definition trim (s : string) : string := trimEnd (trimStart s).

(** [s.charAt(0)]: the empty string when [s] is empty. *)
Definition charAt0 (s : string) : string :=
  match s with
  | EmptyString => EmptyString
  | String c _ => String c EmptyString
  end.

(** [s.slice(1)] *)
Definition slice1 (s : string) : string :=
  match s with
  | EmptyString => EmptyString
  | String _ r => r
  end.

(** [s.includes(sub)] *)
Fixpoint includes (s sub : string) : bool :=
  String.prefix sub s ||
  match s with
  | EmptyString => false
  | String _ r => includes r sub
  end.

(** [arr.includes(x)] on an array of strings. *)
Definition arr_includes (arr : list string) (x : string) : bool :=
  existsb (String.eqb x) arr.

End JS.

(** ** Regular expressions

    The fragment of JavaScript regular expressions used by the sources:
    character classes, concatenation, ordered alternation, greedy
    repetition, capturing groups, [\b], [^] and [$], with the [i] flag.
    Matching is backtracking search; [run] lists the ways of matching from a
    cursor in the order in which backtracking tries them, so the head of the
    list is the match JavaScript reports. *)

Module RegExp.

Inductive cset :=
| CChar (c : ascii)
| CRange (lo hi : ascii)
| CWord
| CSpace
| CDigit.

Inductive regex :=
| Eps
| Cls (cs : list cset)
| Cat (r1 r2 : regex)
| Alt (r1 r2 : regex)
| Star (r : regex)
| Group (n : nat) (r : regex)
| WordB
| Bol
| Eol.

Record regexp := { pattern : regex; ignoreCase : bool }.

Definition cset_has (cs : cset) (c : ascii) : bool :=
  match cs with
  | CChar d => Ascii.eqb c d
  | CRange lo hi => JS.in_range lo hi c
  | CWord => JS.is_word c
  | CSpace => JS.is_space c
  | CDigit => JS.is_digit c
  end.

(** With the [i] flag a character matches when one of its case variants
    does. *)
Definition class_has (ic : bool) (cl : list cset) (c : ascii) : bool :=
  existsb (fun cs => cset_has cs c) cl ||
  (ic && existsb (fun cs => cset_has cs (JS.upper_char c) || cset_has cs (JS.lower_char c)) cl).

(** A position in the subject: the characters already passed (nearest
    first), those still ahead, and the captures made so far (latest
    first). *)
Record cursor := {
  before : list ascii;
  rest : list ascii;
  caps : list (nat * list ascii)
}.

Definition at_word_boundary (st : cursor) : bool :=
  let a := match before st with c :: _ => JS.is_word c | [] => false end in
  let b := match rest st with c :: _ => JS.is_word c | [] => false end in
  xorb a b.

Definition capture (n : nat) (st st' : cursor) : cursor :=
  {| before := before st';
     rest := rest st';
     caps := (n, take (length (before st') - length (before st)) (rest st)) :: caps st' |}.

(** Greedy iteration: try one more round of [step] (which must advance),
    then fall back to stopping here. *)
Fixpoint star_loop (step : cursor -> list cursor) (fuel : nat) (st : cursor) : list cursor :=
  match fuel with
  | O => [st]
  | S f =>
      concat (map (fun st' =>
                     if Nat.ltb (length (before st)) (length (before st'))
                     then star_loop step f st' else [])
                  (step st))
      ++ [st]
  end.

Fixpoint run (ic : bool) (r : regex) (st : cursor) : list cursor :=
  match r with
  | Eps => [st]
  | Cls cl =>
      match rest st with
      | c :: tl =>
          if class_has ic cl c
          then [ {| before := c :: before st; rest := tl; caps := caps st |} ]
          else []
      | [] => []
      end
  | Cat r1 r2 => concat (map (run ic r2) (run ic r1 st))
  | Alt r1 r2 => run ic r1 st ++ run ic r2 st
  | Star r1 => star_loop (run ic r1) (length (rest st)) st
  | Group n r1 => map (capture n st) (run ic r1 st)
  | WordB => if at_word_boundary st then [st] else []
  | Bol => match before st with [] => [st] | _ => [] end
  | Eol => match rest st with [] => [st] | _ => [] end
  end.

(** One element of the array returned by [exec]: [m.[0]] and the groups. *)
Record match_result := {
  index : nat;
  whole : string;
  groups : list (nat * list ascii)
}.

Definition group (k : nat) (m : match_result) : option string :=
  match filter (fun p => Nat.eqb (fst p) k) (groups m) with
  | p :: _ => Some (string_of_list_ascii (snd p))
  | [] => None
  end.

(** [m[k] || m[0]] *)
Definition group_or_whole (k : nat) (m : match_result) : string :=
  match group k m with
  | Some (String c r) => String c r
  | _ => whole m
  end.

(** The leftmost position at or after the cursor where the pattern
    matches, with the cursor reached by the preferred match. *)
Fixpoint first_match (ic : bool) (r : regex) (bef rst : list ascii) : option (cursor * cursor) :=
  let st := {| before := bef; rest := rst; caps := [] |} in
  match run ic r st with
  | st' :: _ => Some (st, st')
  | [] =>
      match rst with
      | [] => None
      | c :: tl => first_match ic r (c :: bef) tl
      end
  end.

Definition result_of (st st' : cursor) : match_result :=
  {| index := length (before st);
     whole := string_of_list_ascii (take (length (before st') - length (before st)) (rest st));
     groups := caps st' |}.

(** All successive matches of a global pattern, as collected by
    [while ((m = re.exec(s)) !== null)] and by [s.match(re)].  Every pattern
    of the sources consumes at least one character; after an empty match the
    scan moves on by one character, as [String.prototype.match] does. *)
Fixpoint scan (fuel : nat) (ic : bool) (r : regex) (bef rst : list ascii) : list match_result :=
  match fuel with
  | O => []
  | S f =>
      match first_match ic r bef rst with
      | None => []
      | Some (st, st') =>
          result_of st st' ::
          (if Nat.ltb (length (before st)) (length (before st'))
           then scan f ic r (before st') (rest st')
           else match rest st' with
                | [] => []
                | c :: tl => scan f ic r (c :: before st') tl
                end)
      end
  end.

Definition matchAll (re : regexp) (s : string) : list match_result :=
  scan (S (String.length s)) (ignoreCase re) (pattern re) [] (list_ascii_of_string s).

(** [re.test(s)] for a pattern without the [g] flag. *)
Definition test (re : regexp) (s : string) : bool :=
  match first_match (ignoreCase re) (pattern re) [] (list_ascii_of_string s) with
  | Some _ => true
  | None => false
  end.

(** Pattern-building shorthands. *)
Definition seq (rs : list regex) : regex := foldr Cat Eps rs.
Fixpoint alt (rs : list regex) : regex :=
  match rs with
  | [] => Cls []
  | [r] => r
  | r :: tl => Alt r (alt tl)
  end.
Definition plus (r : regex) : regex := Cat r (Star r).
Definition opt (r : regex) : regex := Alt r Eps.
Definition chr (c : ascii) : regex := Cls [CChar c].
Definition lit (s : string) : regex := seq (map chr (list_ascii_of_string s)).
Definition lits (ws : list string) : regex := alt (map lit ws).
Definition upper : regex := Cls [CRange "A" "Z"].
Definition lower : regex := Cls [CRange "a" "z"].
Definition space : regex := Cls [CSpace].
Definition wordc : regex := Cls [CWord].
Definition digit : regex := Cls [CDigit].

(** [s.replace(re, f)] for a global pattern: the text between the matches
    is kept and each match [m] is replaced by [f m]. *)
Fixpoint splice (f : match_result -> string) (pos : nat) (s : list ascii)
    (ms : list match_result) : string :=
  match ms with
  | [] => string_of_list_ascii (drop pos s)
  | m :: tl =>
      string_of_list_ascii (take (index m - pos) (drop pos s))
      +:+ f m +:+ splice f (index m + String.length (whole m)) s tl
  end.

Definition replace (re : regexp) (f : match_result -> string) (s : string) : string :=
  splice f 0 (list_ascii_of_string s) (matchAll re s).

(** [s.replace(/[^...]/g, "")] with a negated class: the characters of the
    class are kept, the others removed. *)
Fixpoint keep (cl : list cset) (s : string) : string :=
  match s with
  | EmptyString => EmptyString
  | String c r => if class_has false cl c then String c (keep cl r) else keep cl r
  end.

End RegExp.

(** ** Extraction candidates (the interfaces shared by the processors) *)

Record Entity := {
  ent_label : string;
  ent_type : string;
  ent_properties : gmap string value;
  ent_confidence : Q;
  ent_aliases : option (list string)
}.

Record Relationship := {
  rel_source : string;
  rel_target : string;
  rel_type : string;
  rel_properties : gmap string value;
  rel_confidence : Q;
  rel_context : string
}.

Record ExtractionResult := {
  entities : list Entity;
  relationships : list Relationship
}.

(** [arr.sort((a, b) => b.confidence - a.confidence)]: a stable sort by
    descending confidence. *)
Fixpoint insert_desc {A} (conf : A -> Q) (x : A) (l : list A) : list A :=
  match l with
  | [] => [x]
  | y :: tl =>
      if Qle_bool (conf y) (conf x) then x :: l
      else y :: insert_desc conf x tl
  end.

Definition sort_desc {A} (conf : A -> Q) (l : list A) : list A :=
  foldr (insert_desc conf) [] l.

(** ** The rule-based strategy: class LocalNLPProcessor *)

Module LocalNLPProcessor.
Import RegExp.

Definition re_g (r : regex) : regexp := {| pattern := r; ignoreCase := false |}.
Definition re_gi (r : regex) : regexp := {| pattern := r; ignoreCase := true |}.

(** [[A-Z][a-z]+] *)
Definition capword : regex := seq [upper; plus lower].
(** [[A-Z][a-z]+(?:\s+[A-Z][a-z]+)*] *)
Definition capwords : regex := seq [capword; Star (seq [plus space; capword])].

Definition ENTITY_PATTERNS : list (string * list regexp) :=
  [ ("PERSON",
      [ re_g (seq [WordB; Group 1 capwords; WordB]);
        re_gi (seq [WordB;
                    Group 1 (lits ["Mr"; "Mrs"; "Dr"; "Prof"; "Sir"; "Madam"; "Miss"]);
                    plus space; Group 2 capwords]) ]);
    ("ORGANIZATION",
      [ re_gi (seq [WordB;
                    Group 1 (seq [capword;
                                  seq [plus space;
                                       lits ["Inc"; "Corp"; "LLC"; "Ltd"; "Company";
                                             "University"; "School"; "College"]];
                                  WordB])]);
        re_gi (seq [WordB;
                    Group 1 (lits ["Google"; "Microsoft"; "Apple"; "Tesla"; "SpaceX";
                                   "OpenAI"; "Facebook"; "Amazon"; "Netflix"; "Uber"]);
                    WordB]) ]);
    ("LOCATION",
      [ re_gi (seq [WordB;
                    Group 1 (seq [capword;
                                  seq [plus space;
                                       lits ["City"; "State"; "Country"; "Street"; "Avenue";
                                             "Road"; "Place"; "Park"]];
                                  WordB])]);
        re_gi (seq [WordB;
                    Group 1 (lits ["New York"; "Los Angeles"; "London"; "Paris"; "Tokyo";
                                   "Delhi"; "Mumbai"; "California"; "Texas"; "India";
                                   "USA"; "America"]);
                    WordB]) ]);
    ("FOOD",
      [ re_gi (seq [WordB;
                    Group 1 (lits ["apple"; "mango"; "banana"; "orange"; "pizza"; "burger";
                                   "sandwich"; "rice"; "bread"; "cake"; "cookie";
                                   "chocolate"; "ice cream"; "coffee"; "tea"; "milk";
                                   "water"; "juice"]);
                    WordB]) ]);
    ("TECHNOLOGY",
      [ re_gi (seq [WordB;
                    Group 1 (lits ["computer"; "laptop"; "phone"; "smartphone"; "tablet";
                                   "software"; "app"; "website"; "internet"; "AI"; "robot";
                                   "drone"]);
                    WordB]) ]);
    ("OBJECT",
      [ re_gi (seq [WordB;
                    Group 1 (lits ["car"; "bike"; "house"; "book"; "pen"; "paper"; "chair";
                                   "table"; "door"; "window"; "bag"; "box"; "bottle"; "cup";
                                   "glass"]);
                    WordB]) ]) ].

Record relationship_pattern := {
  rp_pattern : regexp;
  rp_type : string;
  rp_confidence : Q
}.

(** [(\w+)\s+(?:verbs)\s+(\w+)] with flags [gi] *)
Definition svo (verbs : regex) : regexp :=
  re_gi (seq [Group 1 (plus wordc); plus space; verbs; plus space; Group 2 (plus wordc)]).

(** [w] followed by [s?] *)
Definition word_s (w : string) : regex := seq [lit w; opt (chr "s")].

Definition RELATIONSHIP_PATTERNS : list relationship_pattern :=
  [ {| rp_pattern := svo (alt [word_s "eat"; lit "eating"; lit "ate"]);
       rp_type := "EATS"; rp_confidence := 0.9 |};
    {| rp_pattern := svo (alt [word_s "love"; lit "loving"; lit "loved"]);
       rp_type := "LOVES"; rp_confidence := 0.9 |};
    {| rp_pattern := svo (alt [word_s "like"; lit "liking"; lit "liked"]);
       rp_type := "LIKES"; rp_confidence := 0.9 |};
    {| rp_pattern := svo (alt [seq [word_s "work"; plus space; lit "at"];
                               seq [lit "employed"; plus space; lit "by"]]);
       rp_type := "WORKS_AT"; rp_confidence := 0.8 |};
    {| rp_pattern := svo (alt [seq [word_s "live"; plus space; lit "in"];
                               seq [word_s "reside"; plus space; lit "in"]]);
       rp_type := "LIVES_IN"; rp_confidence := 0.8 |};
    {| rp_pattern := svo (alt [word_s "know"; lit "knowing"; lit "knew"]);
       rp_type := "KNOWS"; rp_confidence := 0.8 |};
    {| rp_pattern := svo (alt [word_s "own"; lit "owning"; lit "owned"]);
       rp_type := "OWNS"; rp_confidence := 0.8 |};
    {| rp_pattern := svo (alt [word_s "use"; lit "using"; lit "used"]);
       rp_type := "USES"; rp_confidence := 0.8 |};
    {| rp_pattern := svo (lits ["has"; "have"; "having"; "had"]);
       rp_type := "HAS"; rp_confidence := 0.7 |};
    {| rp_pattern := svo (alt [word_s "read"; lit "reading"; lit "read"]);
       rp_type := "READS"; rp_confidence := 0.8 |};
    {| rp_pattern := svo (alt [word_s "drive"; lit "driving"; lit "drove"]);
       rp_type := "DRIVES"; rp_confidence := 0.8 |};
    {| rp_pattern := svo (alt [word_s "play"; lit "playing"; lit "played"]);
       rp_type := "PLAYS"; rp_confidence := 0.8 |};
    {| rp_pattern := svo (alt [word_s "teache"; lit "teaching"; lit "taught"]);
       rp_type := "TEACHES"; rp_confidence := 0.8 |};
    {| rp_pattern := svo (alt [word_s "studie"; lit "studying"; lit "studied"]);
       rp_type := "STUDIES"; rp_confidence := 0.8 |};
    {| rp_pattern :=
         re_gi (seq [Group 1 (plus wordc); plus space;
                     lits ["is"; "are"; "was"; "were"]; plus space;
                     opt (lits ["a"; "an"; "the"]); Star space;
                     Group 2 (plus wordc)]);
       rp_type := "IS_A"; rp_confidence := 0.7 |} ].

Definition capitalizeFirst (str : string) : string :=
  JS.toUpperCase (JS.charAt0 str) +:+ JS.toLowerCase (JS.slice1 str).

Definition guessEntityType (word context : string) : string :=
  let lowerWord := JS.toLowerCase word in
  let lowerContext := JS.toLowerCase context in
  if JS.includes lowerContext (lowerWord +:+ " eats")
     || JS.includes lowerContext (lowerWord +:+ " lives")
  then "PERSON"
  else if JS.includes lowerContext ("eat " +:+ lowerWord)
          || JS.includes lowerContext ("eating " +:+ lowerWord)
  then "FOOD"
  else if JS.arr_includes
            ["ram"; "john"; "mary"; "david"; "sarah"; "mike"; "anna"; "tom"; "lisa";
             "alex"; "sam"; "emma"; "jack"; "lucy"] lowerWord
  then "PERSON"
  else "CONCEPT".

Definition isLikelyNoun (word : string) : bool :=
  JS.arr_includes
    ["apple"; "mango"; "banana"; "orange"; "book"; "car"; "house"; "dog"; "cat";
     "computer"; "phone"; "table"; "chair"; "food"; "water"; "coffee"; "tea"; "pizza";
     "burger"] (JS.toLowerCase word).

(** The loop state of [extractEntities]: the [entities] array and the
    [foundEntities] set. *)
Definition acc : Type := list Entity * gset string.

Definition has (found : gset string) (s : string) : bool := bool_decide (s ∈ found).

(** Body of the [while ((match = pattern.exec(text)) !== null)] loop. *)
Definition pattern_step (text entityType : string) (a : acc) (m : match_result) : acc :=
  let entityLabel := group_or_whole 1 m in
  let normalizedLabel := JS.toLowerCase (JS.trim entityLabel) in
  if Nat.ltb 1 (String.length normalizedLabel) && negb (has a.2 normalizedLabel)
  then (a.1 ++ [ {| ent_label := capitalizeFirst (JS.trim entityLabel);
                    ent_type := entityType;
                    ent_confidence := 0.85;
                    ent_properties :=
                      <["context" := VStr text]> (<["extractedBy" := VStr "local-nlp"]> ∅);
                    ent_aliases := Some [] |} ],
        {[ normalizedLabel ]} ∪ a.2)
  else a.

Definition pattern_loop (text entityType : string) (a : acc) (re : regexp) : acc :=
  foldl (pattern_step text entityType) a (matchAll re text).

Definition group_loop (text : string) (a : acc) (g : string * list regexp) : acc :=
  foldl (pattern_loop text g.1) a g.2.

(** Body of [for (const word of capitalizedWords)]. *)
Definition capitalized_step (text : string) (a : acc) (word : string) : acc :=
  let normalizedWord := JS.toLowerCase word in
  if negb (has a.2 normalizedWord) && Nat.ltb 2 (String.length word)
  then (a.1 ++ [ {| ent_label := word;
                    ent_type := guessEntityType word text;
                    ent_confidence := 0.7;
                    ent_properties :=
                      <["context" := VStr text]>
                        (<["extractedBy" := VStr "local-nlp"]>
                           (<["guessed" := VBool true]> ∅));
                    ent_aliases := Some [] |} ],
        {[ normalizedWord ]} ∪ a.2)
  else a.

(** Body of [for (const noun of commonNouns)]. *)
Definition noun_step (text : string) (a : acc) (noun : string) : acc :=
  if Nat.ltb 2 (String.length noun) && negb (has a.2 noun) && isLikelyNoun noun
  then (a.1 ++ [ {| ent_label := capitalizeFirst noun;
                    ent_type := "OBJECT";
                    ent_confidence := 0.6;
                    ent_properties :=
                      <["context" := VStr text]>
                        (<["extractedBy" := VStr "local-nlp"]>
                           (<["commonNoun" := VBool true]> ∅));
                    ent_aliases := Some [] |} ],
        {[ noun ]} ∪ a.2)
  else a.

(** [text.match(/\b[A-Z][a-z]+\b/g) || []] *)
Definition capitalizedWords (text : string) : list string :=
  map whole (matchAll (re_g (seq [WordB; upper; plus lower; WordB])) text).

(** [text.match(/\b[a-z]+\b/g) || []] *)
Definition commonNouns (text : string) : list string :=
  map whole (matchAll (re_g (seq [WordB; plus lower; WordB])) text).

Definition extractEntities (text : string) : list Entity :=
  let a1 := foldl (group_loop text) ([], ∅) ENTITY_PATTERNS in
  let a2 := foldl (capitalized_step text) a1 (capitalizedWords text) in
  let a3 := foldl (noun_step text) a2 (commonNouns text) in
  a3.1.

(** [match[k]] of a pattern whose group [k] always takes part in a match
    (true of both groups of every relationship pattern). *)
Definition group_text (k : nat) (m : match_result) : string :=
  default "" (group k m).

Definition relationship_step (entityLabels : list string) (p : relationship_pattern)
    (acc : list Relationship) (m : match_result) : list Relationship :=
  let source := capitalizeFirst (JS.trim (group_text 1 m)) in
  let target := capitalizeFirst (JS.trim (group_text 2 m)) in
  let sourceExists := JS.arr_includes entityLabels (JS.toLowerCase source) in
  let targetExists := JS.arr_includes entityLabels (JS.toLowerCase target) in
  if sourceExists && targetExists
     && negb (String.eqb (JS.toLowerCase source) (JS.toLowerCase target))
  then acc ++ [ {| rel_source := source;
                   rel_target := target;
                   rel_type := rp_type p;
                   rel_confidence := rp_confidence p;
                   rel_context := whole m;
                   rel_properties :=
                     <["extractedBy" := VStr "local-nlp"]>
                       (<["originalMatch" := VStr (whole m)]> ∅) |} ]
  else acc.

Definition extractRelationships (text : string) (ents : list Entity) : list Relationship :=
  let entityLabels := map (fun e => JS.toLowerCase (ent_label e)) ents in
  foldl (fun acc p => foldl (relationship_step entityLabels p) acc
                            (matchAll (rp_pattern p) text))
        [] RELATIONSHIP_PATTERNS.

(** The loop of [filterEntities], before the final sort. *)
Definition filter_step (a : acc) (entity : Entity) : acc :=
  let normalizedLabel := JS.toLowerCase (ent_label entity) in
  if Nat.ltb 1 (String.length normalizedLabel) && negb (has a.2 normalizedLabel)
  then (a.1 ++ [entity], {[ normalizedLabel ]} ∪ a.2)
  else a.

Definition filterEntities (ents : list Entity) : list Entity :=
  sort_desc ent_confidence (foldl filter_step ([], ∅) ents).1.

(** The predicate of [relationships.filter] in [filterRelationships]. *)
Definition keep_relationship (entityLabels : gset string) (rel : Relationship) : bool :=
  let sourceExists := has entityLabels (JS.toLowerCase (rel_source rel)) in
  let targetExists := has entityLabels (JS.toLowerCase (rel_target rel)) in
  let notSelfRelation :=
    negb (String.eqb (JS.toLowerCase (rel_source rel))
                     (JS.toLowerCase (rel_target rel))) in
  sourceExists && targetExists && notSelfRelation.

Definition filterRelationships (rels : list Relationship) (ents : list Entity)
    : list Relationship :=
  let entityLabels : gset string :=
    list_to_set (map (fun e => JS.toLowerCase (ent_label e)) ents) in
  filter (fun rel => keep_relationship entityLabels rel = true) rels.

Definition extractEntitiesAndRelationships (text : string) : ExtractionResult :=
  let ents := extractEntities text in
  let rels := extractRelationships text ents in
  {| entities := filterEntities ents;
     relationships := filterRelationships rels ents |}.

End LocalNLPProcessor.

(** ** The model-backed strategy: class GeminiNLPProcessor

    The remote call itself ([extractEntitiesAndRelationshipsInOneCall]) is a
    black box: it is a parameter giving the parsed reply (the empty result
    when the call or the parse fails, as its [catch] says).  A reply shaped
    as the interfaces above say is [Some]; [None] stands for a reply of
    another shape, on which the filters below throw.  An item without a
    label, source or target is one whose string is empty. *)

Module GeminiNLPProcessor.
Import RegExp.

Definition re_i (r : regex) : regexp := {| pattern := r; ignoreCase := true |}.
Definition re_plain (r : regex) : regexp := {| pattern := r; ignoreCase := false |}.

Definition technicalTerms : list string :=
  [ "pdf"; "docx"; "file"; "text"; "document"; "conversion"; "selectable"; "parsing";
    "extraction"; "processing"; "format"; "content"; "stream"; "object";
    "implementation"; "library"; "javascript"; "mammoth"; "buffer"; "array"; "string";
    "method"; "function"; "class" ].

Definition isTechnicalTerm (term : string) : bool :=
  existsb (fun tech => JS.includes (JS.toLowerCase term) (JS.toLowerCase tech))
          technicalTerms.

Definition veryGenericPatterns : list regexp :=
  [ re_i (seq [Bol; Group 1 (lits ["a"; "an"; "the"; "this"; "that"; "these"; "those"]); Eol]);
    re_i (seq [Bol; Group 1 (lits ["very"; "quite"; "rather"; "some"; "any"; "all"]); Eol]);
    re_plain (seq [Bol; plus digit; Eol]);
    re_i (seq [Bol; lower; Eol]) ].

Definition isVeryGenericEntity (entity : Entity) : bool :=
  if String.eqb (ent_label entity) "" then true
  else existsb (fun pattern => test pattern (ent_label entity)) veryGenericPatterns.

Definition has (seen : gset string) (s : string) : bool := bool_decide (s ∈ seen).

(** Body of the [for] loop of [filterEntities]. *)
Definition filter_step (a : list Entity * gset string) (entity : Entity)
    : list Entity * gset string :=
  if String.eqb (ent_label entity) "" then a
  else
    let normalizedLabel := JS.trim (JS.toLowerCase (ent_label entity)) in
    if isTechnicalTerm (ent_label entity) then a
    else if Nat.ltb 0 (String.length normalizedLabel)
            && negb (has a.2 normalizedLabel)
            && negb (isVeryGenericEntity entity)
    then (a.1 ++ [entity], {[ normalizedLabel ]} ∪ a.2)
    else a.

Definition filterEntities (ents : list Entity) : list Entity :=
  sort_desc ent_confidence (foldl filter_step ([], ∅) ents).1.

Definition keep_relationship (entityLabels : gset string) (rel : Relationship) : bool :=
  if String.eqb (rel_source rel) "" || String.eqb (rel_target rel) "" then false
  else if isTechnicalTerm (rel_source rel) || isTechnicalTerm (rel_target rel) then false
  else
    let sourceExists := has entityLabels (JS.toLowerCase (rel_source rel)) in
    let targetExists := has entityLabels (JS.toLowerCase (rel_target rel)) in
    let notSelfRelation :=
      negb (String.eqb (JS.toLowerCase (rel_source rel))
                       (JS.toLowerCase (rel_target rel))) in
    sourceExists && targetExists && notSelfRelation
    && Qle_bool 0.7 (rel_confidence rel).

Definition filterRelationships (rels : list Relationship) (ents : list Entity)
    : list Relationship :=
  let entityLabels : gset string :=
    list_to_set (map (fun e => JS.toLowerCase (ent_label e)) ents) in
  filter (fun rel => keep_relationship entityLabels rel = true) rels.

Section Remote.
Variable extractEntitiesAndRelationshipsInOneCall : string -> option ExtractionResult.

Definition extractEntitiesAndRelationships (text : string) : option ExtractionResult :=
  result ← extractEntitiesAndRelationshipsInOneCall text;
  Some {| entities := filterEntities (entities result);
          relationships := filterRelationships (relationships result) (entities result) |}.

End Remote.

End GeminiNLPProcessor.

(** ** The coordinator: class HybridNLPProcessor

    [GEMINI_API_KEY] says whether [process.env.GEMINI_API_KEY] is set;
    [gemini] is the model-backed strategy, [None] standing for a thrown
    exception; [local] is the rule-based strategy. *)

Module HybridNLPProcessor.

Definition stamp (text : string) (props : gmap string value) : gmap string value :=
  <["processingMethod" := VStr "local"]>
    (<["originalText" := VStr text]>
       (<["enhanced" := VBool true]> props)).

Definition enhanceLocalResults (result : ExtractionResult) (text : string)
    : ExtractionResult :=
  {| entities :=
       map (fun entity =>
              {| ent_label := ent_label entity;
                 ent_type := ent_type entity;
                 ent_properties := stamp text (ent_properties entity);
                 ent_confidence := ent_confidence entity;
                 ent_aliases := ent_aliases entity |})
           (entities result);
     relationships :=
       map (fun relationship =>
              {| rel_source := rel_source relationship;
                 rel_target := rel_target relationship;
                 rel_type := rel_type relationship;
                 rel_properties := stamp text (rel_properties relationship);
                 rel_confidence := rel_confidence relationship;
                 rel_context := rel_context relationship |})
           (relationships result) |}.

(** Which strategy's result the coordinator returned. *)
Inductive strategy := External | Local.

Section Coordinator.
Variable GEMINI_API_KEY : bool.
Variable gemini : string -> option ExtractionResult.
Variable local : string -> ExtractionResult.

(** The result of [extractEntitiesAndRelationships], together with the
    branch that produced it (the branch is what the console log reports;
    the code returns the result only). *)
Definition extract_traced (text : string) : strategy * ExtractionResult :=
  let fallback := (Local, enhanceLocalResults (local text) text) in
  if GEMINI_API_KEY then
    match gemini text with
    | Some result =>
        if Nat.ltb 0 (length (entities result))
           || Nat.ltb 0 (length (relationships result))
        then (External, result)
        else fallback
    | None => fallback
    end
  else fallback.

Definition extractEntitiesAndRelationships (text : string) : ExtractionResult :=
  (extract_traced text).2.

End Coordinator.

End HybridNLPProcessor.

(** ** The graph reconciler: class EnhancedNeo4jService

    The store is a property graph: nodes carry one Neo4j label (the entity
    type) and a property map, edges carry a type and a property map.  The
    Cypher queries are modelled by what they read and write, and fail when
    a type spliced into their text is not a name; [now] is the value of
    [datetime()] during the call.  Rows are produced in store
    order, so [LIMIT 1] and [records[0]] take the first hit.  Identifiers
    are naturals (the code prints them to strings and parses them back). *)

Module EnhancedNeo4jService.

Record node := {
  node_id : nat;
  node_label : string;
  node_props : gmap string value
}.

Record edge := {
  edge_id : nat;
  edge_source : nat;
  edge_target : nat;
  edge_type : string;
  edge_props : gmap string value
}.

Record graph := {
  nodes : list node;
  edges : list edge;
  next_node : nat;
  next_edge : nat
}.

Definition empty_graph : graph :=
  {| nodes := []; edges := []; next_node := 0; next_edge := 0 |}.

(** The argument of [createEntityWithMerge]: [Omit<Entity, "id">], whose
    [confidence] and [aliases] are optional. *)
Record EntityInput := {
  in_label : string;
  in_type : string;
  in_properties : gmap string value;
  in_confidence : option Q;
  in_aliases : option (list string)
}.

(** The objects the service returns; their fields are read off the node's
    or the edge's property map. *)
Record StoredEntity := {
  se_id : nat;
  se_label : option value;
  se_type : string;
  se_properties : gmap string value;
  se_confidence : option value;
  se_aliases : option value
}.

Record StoredRelationship := {
  sr_id : nat;
  sr_source : nat;
  sr_target : nat;
  sr_type : string;
  sr_properties : gmap string value;
  sr_confidence : option value
}.

(** [MATCH ()-[r]-() DELETE r] then [MATCH (n) DELETE n] *)
Definition clearAllData (g : graph) : graph :=
  {| nodes := []; edges := []; next_node := next_node g; next_edge := next_edge g |}.

(** The code splices a type into the text of its queries, as a node label
    [(n:${type})] or as a relationship type [[r:${type}]].  The text is the
    query the code means when the type is a name: a letter or an underscore
    followed by letters, digits and underscores.  With any other type (the
    empty string, a type that holds a blank) the server rejects the text
    and the query fails. *)
Definition symbolic_name (type : string) : bool :=
  match type with
  | EmptyString => false
  | String c tl =>
      JS.is_word c && negb (JS.is_digit c)
      && forallb JS.is_word (list_ascii_of_string tl)
  end.

(** [(n:type {label: $label})]: the node pattern used by [MERGE] and by the
    edge-creating [MATCH].  It is a pattern, and has nodes that match it,
    only when the type is a name. *)
Definition has_exact_label (type label : string) (n : node) : bool :=
  symbolic_name type &&
  (String.eqb (node_label n) type &&
   match node_props n !! "label" with
   | Some (VStr s) => String.eqb s label
   | _ => false
   end).

(** The [WHERE] clause of [findEntityByLabelAndType]; [None] is a Cypher
    type error ([toLower] of a non-string, [any] over a non-list). *)
Definition find_where (label : string) (n : node) : option bool :=
  by_label ← match node_props n !! "label" with
             | None => Some false
             | Some (VStr s) => Some (String.eqb (JS.toLowerCase s) (JS.toLowerCase label))
             | Some _ => None
             end;
  by_alias ← match node_props n !! "aliases" with
             | None => Some false
             | Some (VList l) =>
                 Some (existsb (fun alias =>
                                  String.eqb (JS.toLowerCase alias) (JS.toLowerCase label)) l)
             | Some _ => None
             end;
  Some (by_label || by_alias).

(** The rows of [MATCH (n:type) WHERE ... RETURN n LIMIT 1], for a type
    that is a name; [None] when the [WHERE] clause fails on a node. *)
Fixpoint find_node (label type : string) (ns : list node) : option node :=
  match ns with
  | [] => None
  | n :: tl =>
      if String.eqb (node_label n) type then
        match find_where label n with
        | None => None
        | Some true => Some n
        | Some false => find_node label type tl
        end
      else find_node label type tl
  end.

(** [x || dflt] on a value read from a property map. *)
Definition or_default (v : option value) (dflt : value) : option value :=
  if truthy v then v else Some dflt.

(** [findEntityByLabelAndType]: a failing query, be it for the type or
    for a value the [WHERE] clause cannot read, is caught and reported as
    [null], like a query without rows. *)
Definition findEntityByLabelAndType (g : graph) (label type : string)
    : option StoredEntity :=
  if symbolic_name type then
    match find_node label type (nodes g) with
    | Some n =>
        Some {| se_id := node_id n;
                se_label := node_props n !! "label";
                se_type := type;
                se_properties := node_props n;
                se_confidence := or_default (node_props n !! "confidence") (VNum 1);
                se_aliases := or_default (node_props n !! "aliases") (VList []) |}
    | None => None
    end
  else None.

Definition Qlt_bool (x y : Q) : bool := negb (Qle_bool y x).

(** [entity.confidence || 0.8] *)
Definition confidence_param (c : option Q) : Q :=
  match c with
  | Some q => if Qeq_bool q 0 then 0.8 else q
  | None => 0.8
  end.

(** [$confidence > coalesce(n.confidence, 0)]; comparing a number with a
    value of another type is [null], which [CASE WHEN] reads as false. *)
Definition exceeds (c : Q) (stored : option value) : bool :=
  match stored with
  | None => Qlt_bool 0 c
  | Some (VNum q) => Qlt_bool q c
  | Some _ => false
  end.

(** [coalesce(n.aliases, []) + $aliases]: list concatenation; a string on
    the left is prepended; any other left operand would give a list that
    holds a non-string, which is outside [value]: the query is taken to
    fail. *)
Definition plus_aliases (stored : option value) (aliases : list string) : option value :=
  match stored with
  | None => Some (VList aliases)
  | Some (VList l) => Some (VList (l ++ aliases))
  | Some (VStr s) => Some (VList (s :: aliases))
  | Some _ => None
  end.

(** [SET n.k = v], where a [null] value removes the property. *)
Definition set_prop (k : string) (v : option value) (m : gmap string value)
    : gmap string value :=
  match v with
  | Some x => <[k := x]> m
  | None => delete k m
  end.

(** [ON CREATE SET n.confidence = $confidence, n.aliases = $aliases,
    n.created_at = datetime(), n += $properties] on the node
    [(n:type {label: $label})] just created. *)
Definition on_create (now : nat) (e : EntityInput) (id : nat) : node :=
  {| node_id := id;
     node_label := in_type e;
     node_props :=
       in_properties e ∪
       <["created_at" := VTime now]>
         (<["aliases" := VList (default [] (in_aliases e))]>
            (<["confidence" := VNum (confidence_param (in_confidence e))]>
               {["label" := VStr (in_label e)]})) |}.

(** [ON MATCH SET n.confidence = CASE ... END, n.aliases = CASE ... END,
    n.updated_at = datetime(), n += $properties].  [$aliases] is never
    [null] (the caller passes [entity.aliases || []]), so the second [CASE]
    always concatenates. *)
Definition on_match (now : nat) (e : EntityInput) (n : node) : option node :=
  let c := confidence_param (in_confidence e) in
  let confidence' :=
    if exceeds c (node_props n !! "confidence") then Some (VNum c)
    else node_props n !! "confidence" in
  aliases' ← plus_aliases (node_props n !! "aliases") (default [] (in_aliases e));
  Some {| node_id := node_id n;
          node_label := node_label n;
          node_props :=
            in_properties e ∪
            <["updated_at" := VTime now]>
              (<["aliases" := aliases']>
                 (set_prop "confidence" confidence' (node_props n))) |}.

(** The [MERGE] query: the new graph and the rows of [RETURN n]; [None]
    when the query fails (nothing is written then): the entity's type,
    spliced in as the node label, is not a name, or an [ON MATCH] item
    cannot be computed. *)
Definition merge_query (now : nat) (g : graph) (e : EntityInput)
    : option (graph * list node) :=
  if symbolic_name (in_type e) then
    let hit := has_exact_label (in_type e) (in_label e) in
    match filter (fun n => hit n = true) (nodes g) with
    | [] =>
        let n := on_create now e (next_node g) in
        Some ({| nodes := nodes g ++ [n]; edges := edges g;
                 next_node := S (next_node g); next_edge := next_edge g |}, [n])
    | hits =>
        nodes' ← mapM (fun n => if hit n then on_match now e n else Some n) (nodes g);
        rows ← mapM (on_match now e) hits;
        Some ({| nodes := nodes'; edges := edges g;
                 next_node := next_node g; next_edge := next_edge g |}, rows)
    end
  else None.

(** [createEntityWithMerge]; [None] is the rethrown error of a failing
    query. *)
Definition createEntityWithMerge (now : nat) (g : graph) (entity : EntityInput)
    : option (graph * StoredEntity) :=
  '(g', rows) ← merge_query now g entity;
  match rows with
  | n :: _ =>
      Some (g', {| se_id := node_id n;
                   se_label := node_props n !! "label";
                   se_type := in_type entity;
                   se_properties := node_props n;
                   se_confidence := node_props n !! "confidence";
                   se_aliases := node_props n !! "aliases" |})
  | [] => None
  end.

Definition relationship_of (type : string) (r : edge) : StoredRelationship :=
  {| sr_id := edge_id r;
     sr_source := edge_source r;
     sr_target := edge_target r;
     sr_type := type;
     sr_properties := edge_props r;
     sr_confidence := edge_props r !! "confidence" |}.

(** [MATCH (a)-[r:type]->(b) WHERE id(a) = $sourceId AND id(b) = $targetId] *)
Definition links (sourceId targetId : nat) (type : string) (r : edge) : bool :=
  Nat.eqb (edge_source r) sourceId && Nat.eqb (edge_target r) targetId
  && String.eqb (edge_type r) type.

(** [findRelationship]: the type is spliced into the pattern; a failing
    query is caught and reported as [null], like a query without rows. *)
Definition findRelationship (g : graph) (sourceId targetId : nat) (type : string)
    : option StoredRelationship :=
  if symbolic_name type then
    match filter (fun r => links sourceId targetId type r = true) (edges g) with
    | r :: _ => Some (relationship_of type r)
    | [] => None
    end
  else None.

(** The rows of [MATCH (a:sourceType {label: $sourceLabel})
    MATCH (b:targetType {label: $targetLabel})]: every pair of hits. *)
Definition endpoint_rows (g : graph) (sourceLabel targetLabel sourceType targetType : string)
    : list (node * node) :=
  a ← filter (fun n => has_exact_label sourceType sourceLabel n = true) (nodes g);
  b ← filter (fun n => has_exact_label targetType targetLabel n = true) (nodes g);
  [(a, b)].

(** [CREATE (a)-[r:type]->(b) SET r += $properties
    SET r.created_at = datetime() SET r.confidence = $confidence] with
    [$confidence = properties.confidence || 0.8] *)
Definition new_edge (now : nat) (type : string) (properties : gmap string value)
    (id : nat) (ab : node * node) : edge :=
  {| edge_id := id;
     edge_source := node_id ab.1;
     edge_target := node_id ab.2;
     edge_type := type;
     edge_props :=
       set_prop "confidence" (or_default (properties !! "confidence") (VNum 0.8))
         (<["created_at" := VTime now]> (properties ∪ ∅)) |}.

(** The creating query: one new edge for each row of the two [MATCH]
    clauses; [None] when the query fails, one of the three spliced types
    not being a name (nothing is written then). *)
Definition create_edges (now : nat) (g : graph)
    (sourceLabel targetLabel sourceType targetType relationshipType : string)
    (properties : gmap string value) : option (list edge) :=
  if symbolic_name sourceType && symbolic_name targetType
     && symbolic_name relationshipType then
    Some (imap (fun i ab => new_edge now relationshipType properties (next_edge g + i) ab)
               (endpoint_rows g sourceLabel targetLabel sourceType targetType))
  else None.

Definition createRelationshipWithValidation (now : nat) (g : graph)
    (sourceLabel targetLabel sourceType targetType relationshipType : string)
    (properties : gmap string value) : graph * option StoredRelationship :=
  match findEntityByLabelAndType g sourceLabel sourceType,
        findEntityByLabelAndType g targetLabel targetType with
  | Some sourceEntity, Some targetEntity =>
      match findRelationship g (se_id sourceEntity) (se_id targetEntity) relationshipType with
      | Some existingRel => (g, Some existingRel)
      | None =>
          match create_edges now g sourceLabel targetLabel sourceType targetType
                             relationshipType properties with
          | Some created =>
              ({| nodes := nodes g; edges := edges g ++ created;
                  next_node := next_node g;
                  next_edge := next_edge g + length created |},
               match created with
               | r :: _ => Some (relationship_of relationshipType r)
               | [] => None
               end)
          | None => (g, None)
          end
      end
  | _, _ => (g, None)
  end.

(** The [WHERE] clause of [findSimilarEntities].  On a node without label
    both [CONTAINS] are [null] and the row is dropped; [None] is a Cypher
    type error ([toLower] of a value that is not a string). *)
Definition similar_where (label : string) (n : node) : option bool :=
  match node_props n !! "label" with
  | None => Some false
  | Some (VStr s) =>
      Some (JS.includes (JS.toLowerCase s) (JS.toLowerCase label)
            || JS.includes (JS.toLowerCase label) (JS.toLowerCase s))
  | Some _ => None
  end.

(** The rows of [MATCH (n:type) WHERE ... RETURN n LIMIT limit], for a
    type that is a name. *)
Fixpoint similar_nodes (label type : string) (limit : nat) (ns : list node)
    : option (list node) :=
  match ns with
  | [] => Some []
  | n :: tl =>
      match limit with
      | O => Some []
      | S k =>
          if String.eqb (node_label n) type then
            match similar_where label n with
            | None => None
            | Some true => rows ← similar_nodes label type k tl; Some (n :: rows)
            | Some false => similar_nodes label type limit tl
            end
          else similar_nodes label type limit tl
      end
  end.

(** [findSimilarEntities]: the [threshold] is handed to the query, which
    does not read it; a failing query is caught and reported as the empty
    list. *)
Definition findSimilarEntities (g : graph) (label type : string) (threshold : Q)
    : list StoredEntity :=
  match (if symbolic_name type then similar_nodes label type 5 (nodes g) else None) with
  | Some rows =>
      map (fun n =>
             {| se_id := node_id n;
                se_label := node_props n !! "label";
                se_type := type;
                se_properties := node_props n;
                se_confidence := or_default (node_props n !! "confidence") (VNum 1);
                se_aliases := or_default (node_props n !! "aliases") (VList []) |})
          rows
  | None => []
  end.

(** The order of [ORDER BY] on the values of the store.  Values of
    different types are ordered by type (ascending: lists, temporal values,
    strings, booleans, numbers) and [null] comes last; values of one type
    by their own order, strings and lists lexicographically. *)
Definition type_rank (v : option value) : nat :=
  match v with
  | Some (VList _) => 0
  | Some (VTime _) => 1
  | Some (VStr _) => 2
  | Some (VBool _) => 3
  | Some (VNum _) => 4
  | None => 5
  end.

Fixpoint string_leb (a b : string) : bool :=
  match a, b with
  | EmptyString, _ => true
  | String _ _, EmptyString => false
  | String x a', String y b' =>
      if Ascii.ltb x y then true
      else if Ascii.eqb x y then string_leb a' b' else false
  end.

Fixpoint list_leb (a b : list string) : bool :=
  match a, b with
  | [], _ => true
  | _ :: _, [] => false
  | x :: a', y :: b' =>
      if String.eqb x y then list_leb a' b' else string_leb x y
  end.

Definition value_leb (a b : option value) : bool :=
  match a, b with
  | Some (VNum x), Some (VNum y) => Qle_bool x y
  | Some (VStr x), Some (VStr y) => string_leb x y
  | Some (VBool x), Some (VBool y) => implb x y
  | Some (VTime x), Some (VTime y) => Nat.leb x y
  | Some (VList x), Some (VList y) => list_leb x y
  | _, _ => Nat.leb (type_rank a) (type_rank b)
  end.

Definition value_ltb (a b : option value) : bool := negb (value_leb b a).

(** [coalesce(x, dflt)] *)
Definition coalesce (v : option value) (dflt : value) : option value :=
  match v with
  | Some x => Some x
  | None => Some dflt
  end.

(** Rows sorted by a key order; rows that tie keep the order of the
    store. *)
Fixpoint insert_row {A} (before : A -> A -> bool) (x : A) (l : list A) : list A :=
  match l with
  | [] => [x]
  | y :: tl => if before x y then x :: l else y :: insert_row before x tl
  end.

Definition order_by {A} (before : A -> A -> bool) (l : list A) : list A :=
  foldr (insert_row before) [] l.

(** [ORDER BY coalesce(n.confidence, 1.0) DESC, n.label] *)
Definition node_before (a b : node) : bool :=
  let ca := coalesce (node_props a !! "confidence") (VNum 1) in
  let cb := coalesce (node_props b !! "confidence") (VNum 1) in
  if value_ltb cb ca then true
  else if value_ltb ca cb then false
  else value_leb (node_props a !! "label") (node_props b !! "label").

(** [ORDER BY coalesce(r.confidence, 1.0) DESC] *)
Definition edge_before (a b : edge) : bool :=
  value_leb (coalesce (edge_props b !! "confidence") (VNum 1))
            (coalesce (edge_props a !! "confidence") (VNum 1)).

(** [getAllEntitiesAndRelationships]: the two queries and the objects
    built from their rows.  A node has one Neo4j label, its type. *)
Definition getAllEntitiesAndRelationships (g : graph)
    : list StoredEntity * list StoredRelationship :=
  (map (fun n =>
          {| se_id := node_id n;
             se_label := or_default (node_props n !! "label") (VStr "Unknown");
             se_type := if String.eqb (node_label n) "" then "Unknown" else node_label n;
             se_properties := node_props n;
             se_confidence := or_default (node_props n !! "confidence") (VNum 1);
             se_aliases := or_default (node_props n !! "aliases") (VList []) |})
       (order_by node_before (nodes g)),
   map (fun r =>
          {| sr_id := edge_id r;
             sr_source := edge_source r;
             sr_target := edge_target r;
             sr_type := edge_type r;
             sr_properties := edge_props r;
             sr_confidence := or_default (edge_props r !! "confidence") (VNum 1) |})
       (order_by edge_before (edges g))).

End EnhancedNeo4jService.

(** ** The process-text route: the [POST] handler

    One request: optional clear, extraction by the coordinator, one
    [createEntityWithMerge] per entity, one
    [createRelationshipWithValidation] per relationship whose endpoints are
    among the processed entities, then the response.  [now k] is the value
    of [datetime()] seen by the [k]-th store call of the request.  The
    snapshot read by [getAllEntitiesAndRelationships] is represented by the
    final graph. *)

Module ProcessText.
Import EnhancedNeo4jService.

Record Response := {
  success : bool;
  entitiesCount : nat;
  relationshipsCount : nat;
  graphData : graph;
  processingMethod : string;
  extractedEntities : nat;
  extractedRelationships : nat
}.

Inductive reply :=
| BadRequest
| Json (r : Response).

(** The [processingMethod] field of a reply, when it has one. *)
Definition tag (r : reply) : option string :=
  match r with
  | BadRequest => None
  | Json x => Some (processingMethod x)
  end.

Definition entity_input (entity : Entity) : EntityInput :=
  {| in_label := ent_label entity;
     in_type := ent_type entity;
     in_properties := ent_properties entity;
     in_confidence := Some (ent_confidence entity);
     in_aliases := ent_aliases entity |}.

(** [processedEntities.find((e) => e.label.toLowerCase() === label.toLowerCase())];
    the outer [None] is the [TypeError] raised when a label read back from
    the store is not a string. *)
Fixpoint find_processed (processed : list StoredEntity) (label : string)
    : option (option (StoredEntity * string)) :=
  match processed with
  | [] => Some None
  | e :: tl =>
      match se_label e with
      | Some (VStr s) =>
          if String.eqb (JS.toLowerCase s) (JS.toLowerCase label)
          then Some (Some (e, s))
          else find_processed tl label
      | _ => None
      end
  end.

(** [{...relationship.properties, confidence: ..., context: ...}] *)
Definition relationship_properties (relationship : Relationship) : gmap string value :=
  <["context" := VStr (rel_context relationship)]>
    (<["confidence" := VNum (rel_confidence relationship)]>
       (rel_properties relationship)).

Section Request.
Variable GEMINI_API_KEY : bool.
Variable extractEntitiesAndRelationshipsInOneCall : string -> option ExtractionResult.
Variable now : nat -> nat.

Definition nlpProcessor (text : string) : HybridNLPProcessor.strategy * ExtractionResult :=
  HybridNLPProcessor.extract_traced GEMINI_API_KEY
    (GeminiNLPProcessor.extractEntitiesAndRelationships
       extractEntitiesAndRelationshipsInOneCall)
    LocalNLPProcessor.extractEntitiesAndRelationships text.

(** Loop state: the store, the processed items, the number of store calls
    made so far. *)
Definition entity_step (st : graph * list StoredEntity * nat) (entity : Entity)
    : graph * list StoredEntity * nat :=
  let '(g, processedEntities, k) := st in
  match createEntityWithMerge (now k) g (entity_input entity) with
  | Some (g', newEntity) => (g', processedEntities ++ [newEntity], S k)
  | None => (g, processedEntities, S k)
  end.

Definition relationship_step (processedEntities : list StoredEntity)
    (st : graph * list StoredRelationship * nat) (relationship : Relationship)
    : graph * list StoredRelationship * nat :=
  let '(g, processedRelationships, k) := st in
  match find_processed processedEntities (rel_source relationship),
        find_processed processedEntities (rel_target relationship) with
  | Some (Some (sourceEntity, sourceLabel)), Some (Some (targetEntity, targetLabel)) =>
      match createRelationshipWithValidation (now k) g
              sourceLabel targetLabel (se_type sourceEntity) (se_type targetEntity)
              (rel_type relationship) (relationship_properties relationship) with
      | (g', Some newRelationship) =>
          (g', processedRelationships ++ [newRelationship], S k)
      | (g', None) => (g', processedRelationships, S k)
      end
  | _, _ => st
  end.

Definition POST (g : graph) (text : string) (clearBefore : bool) : graph * reply :=
  if String.eqb text "" then (g, BadRequest)
  else
    let g0 := if clearBefore then clearAllData g else g in
    let result := (nlpProcessor text).2 in
    let '(g1, processedEntities, k) := foldl entity_step (g0, [], 0) (entities result) in
    let '(g2, processedRelationships, _) :=
      foldl (relationship_step processedEntities) (g1, [], k) (relationships result) in
    (g2, Json {| success := true;
                 entitiesCount := length processedEntities;
                 relationshipsCount := length processedRelationships;
                 graphData := g2;
                 processingMethod :=
                   if Nat.ltb 0 (length (entities result)) then "gemini" else "local";
                 extractedEntities := length (entities result);
                 extractedRelationships := length (relationships result) |}).

End Request.

End ProcessText.

(** ** The text normalizer: [EnhancedFileProcessor.preprocessText]
    (src/app/api/websocket/route.ts, second part)

    The extraction of text from the bytes of a file is a black box; the
    normalization of the extracted text is a chain of [replace] calls. *)

Module EnhancedFileProcessor.
Import RegExp.

Definition re_g (r : regex) : regexp := {| pattern := r; ignoreCase := false |}.

(** The double quote. *)
Definition dquote : ascii := ascii_of_nat 34.

(** [[.,!?;:]] *)
Definition stops : list cset :=
  [CChar "."; CChar ","; CChar "!"; CChar "?"; CChar ";"; CChar ":"].

(** The class negated by the fifth [replace]: word characters, blanks,
    the stops, parentheses, hyphen, apostrophe and double quote. *)
Definition whitelist : list cset :=
  [CWord; CSpace] ++ stops ++ [CChar "("; CChar ")"; CChar "-"; CChar "'"; CChar dquote].

(** The replacement of the sixth [replace]: group 1 and a space. *)
Definition stop_and_blank (m : match_result) : string :=
  default "" (group 1 m) +:+ " ".

Definition preprocessText (text : string) : string :=
  let s1 := replace (re_g (plus space)) (fun _ => " ") text in
  let s2 := replace (re_g (plus (chr "010"))) (fun _ => " ") s1 in
  let s3 := replace (re_g (chr "013")) (fun _ => "") s2 in
  let s4 := replace (re_g (chr "009")) (fun _ => " ") s3 in
  let s5 := keep whitelist s4 in
  let s6 := replace (re_g (seq [Star space; Group 1 (Cls stops); Star space]))
                    stop_and_blank s5 in
  let s7 := replace (re_g (plus space)) (fun _ => " ") s6 in
  JS.trim s7.

(** A file handed to the processors: its name and size; its bytes are
    read only by the extractors. *)
Record File := {
  file_name : string;
  file_size : nat
}.

(** [name.split(".").pop()]: the part of the name after its last dot, the
    whole name when it has no dot. *)
Fixpoint pop_split (cur s : string) : string :=
  match s with
  | EmptyString => cur
  | String c r =>
      if Ascii.eqb c "." then pop_split EmptyString r
      else pop_split (cur +:+ String c EmptyString) r
  end.

(** [file.name.split(".").pop()?.toLowerCase()] *)
Definition fileExtension (file : File) : string :=
  JS.toLowerCase (pop_split EmptyString (file_name file)).

Section Files.
(** The extractors that read the bytes of a file are black boxes; [None]
    is a thrown error. *)
Variable extractTextFromTxt extractTextFromPdf extractTextFromDocx : File -> option string.

Definition extractTextFromFile (file : File) : option string :=
  let fileExtension := fileExtension file in
  if String.eqb fileExtension "txt" then extractTextFromTxt file
  else if String.eqb fileExtension "pdf" then extractTextFromPdf file
  else if String.eqb fileExtension "docx" then extractTextFromDocx file
  else None.

End Files.

End EnhancedFileProcessor.

(** ** The process-file route: the [POST] handler (second part of
    src/app/page.tsx)

    The handler clears the graph if asked, extracts and normalizes the text
    of the file, and then works as the process-text handler does, adding
    the file name to the properties of each relationship.  An error raised
    after the clear is reported with status 500 and leaves the graph as it
    is at that point. *)

Module ProcessFile.
Import EnhancedNeo4jService.

Record Response := {
  success : bool;
  entitiesCount : nat;
  relationshipsCount : nat;
  graphData : graph;
  fileName : string;
  fileSize : nat;
  textLength : nat;
  extractedText : string;
  processingMethod : string
}.

Inductive reply :=
| BadRequest
| Failed
| Json (r : Response).

(** [{...relationship.properties, confidence: ..., context: ...,
    source_file: file.name}] *)
Definition relationship_properties (file : EnhancedFileProcessor.File)
    (relationship : Relationship) : gmap string value :=
  <["source_file" := VStr (EnhancedFileProcessor.file_name file)]>
    (ProcessText.relationship_properties relationship).

Section Request.
Variable GEMINI_API_KEY : bool.
Variable extractEntitiesAndRelationshipsInOneCall : string -> option ExtractionResult.
Variable now : nat -> nat.
(** [SimplePDFExtractor.extractText] and the extractors of
    [EnhancedFileProcessor]. *)
Variable extractText : EnhancedFileProcessor.File -> option string.
Variable extractTextFromTxt extractTextFromPdf extractTextFromDocx :
  EnhancedFileProcessor.File -> option string.

(** The text extracted from the file, by the extractor its extension
    selects. *)
Definition rawText (file : EnhancedFileProcessor.File) : option string :=
  if String.eqb (EnhancedFileProcessor.fileExtension file) "pdf"
  then extractText file
  else EnhancedFileProcessor.extractTextFromFile
         extractTextFromTxt extractTextFromPdf extractTextFromDocx file.

(** The entity loop is that of the process-text handler. *)
Definition entity_step := ProcessText.entity_step now.

Definition relationship_step (file : EnhancedFileProcessor.File)
    (processedEntities : list StoredEntity)
    (st : graph * list StoredRelationship * nat) (relationship : Relationship)
    : graph * list StoredRelationship * nat :=
  let '(g, processedRelationships, k) := st in
  match ProcessText.find_processed processedEntities (rel_source relationship),
        ProcessText.find_processed processedEntities (rel_target relationship) with
  | Some (Some (sourceEntity, sourceLabel)), Some (Some (targetEntity, targetLabel)) =>
      match createRelationshipWithValidation (now k) g
              sourceLabel targetLabel (se_type sourceEntity) (se_type targetEntity)
              (rel_type relationship) (relationship_properties file relationship) with
      | (g', Some newRelationship) =>
          (g', processedRelationships ++ [newRelationship], S k)
      | (g', None) => (g', processedRelationships, S k)
      end
  | _, _ => st
  end.

Definition POST (g : graph) (file : option EnhancedFileProcessor.File) (clearBefore : bool)
    : graph * reply :=
  match file with
  | None => (g, BadRequest)
  | Some file =>
      let g0 := if clearBefore then clearAllData g else g in
      match rawText file with
      | None => (g0, Failed)
      | Some rawText =>
          let cleanText := EnhancedFileProcessor.preprocessText rawText in
          if Nat.eqb (String.length cleanText) 0 then (g0, Failed)
          else
            let result :=
              (ProcessText.nlpProcessor GEMINI_API_KEY
                 extractEntitiesAndRelationshipsInOneCall cleanText).2 in
            let '(g1, processedEntities, k) :=
              foldl entity_step (g0, [], 0) (entities result) in
            let '(g2, processedRelationships, _) :=
              foldl (relationship_step file processedEntities) (g1, [], k)
                    (relationships result) in
            (g2, Json {| success := true;
                         entitiesCount := length processedEntities;
                         relationshipsCount := length processedRelationships;
                         graphData := g2;
                         fileName := EnhancedFileProcessor.file_name file;
                         fileSize := EnhancedFileProcessor.file_size file;
                         textLength := String.length cleanText;
                         extractedText := String.substring 0 100 cleanText +:+ "...";
                         processingMethod :=
                           if Nat.ltb 0 (length (entities result))
                           then "gemini" else "local" |})
      end
  end.

End Request.

End ProcessFile.

(** * Vocabulary of the properties *)

(** The normal form of a label: case-folded and trimmed. *)
Definition normalized (label : string) : string := JS.trim (JS.toLowerCase label).

Definition long_label (e : Entity) : Prop :=
  1 < String.length (normalized (ent_label e)).

Definition nonempty_label (e : Entity) : Prop :=
  0 < String.length (normalized (ent_label e)).


Definition summary (e : Entity) : string * string * Q :=
  (ent_label e, ent_type e, ent_confidence e).

Definition triple (r : Relationship) : string * string * string :=
  (rel_source r, rel_type r, rel_target r).

Definition has_triple (rels : list Relationship) (t : string * string * string) : bool :=
  existsb (fun r => String.eqb (rel_source r) t.1.1 && String.eqb (rel_type r) t.1.2
                    && String.eqb (rel_target r) t.2) rels.

(** The first character, if any, is not a blank. *)
Definition starts_clean (s : string) : Prop :=
  match s with
  | EmptyString => True
  | String c _ => JS.is_space c = false
  end.

Fixpoint all_chars (P : ascii → bool) (s : string) : bool :=
  match s with
  | EmptyString => true
  | String c r => P c && all_chars P r
  end.

Definition not_space (c : ascii) : bool := negb (JS.is_space c).

(** The characters a pattern can consume. *)
Fixpoint consumes (ic : bool) (r : RegExp.regex) (c : ascii) : bool :=
  match r with
  | RegExp.Cls cl => RegExp.class_has ic cl c
  | RegExp.Cat r1 r2 | RegExp.Alt r1 r2 => consumes ic r1 c || consumes ic r2 c
  | RegExp.Star r1 | RegExp.Group _ r1 => consumes ic r1 c
  | _ => false
  end.

(** [st'] is [st] moved forward over the word [w]. *)
Definition advances (w : list ascii) (st st' : RegExp.cursor) : Prop :=
  RegExp.rest st = w ++ RegExp.rest st' ∧ RegExp.before st' = rev w ++ RegExp.before st.

Definition reaches (P : ascii → bool) (st st' : RegExp.cursor) : Prop :=
  ∃ w, advances w st st' ∧ forallb P w = true.

(** What [enhanceLocalResults] does to a property bag: three keys are set,
    the others are kept. *)
Definition stamp_keys : list string := ["enhanced"; "originalText"; "processingMethod"].

Definition stamped (text : string) (old new : gmap string value) : Prop :=
  new !! "enhanced" = Some (VBool true) ∧
  new !! "originalText" = Some (VStr text) ∧
  new !! "processingMethod" = Some (VStr "local") ∧
  ∀ k, k ∉ stamp_keys → new !! k = old !! k.

Definition stamped_entity (text : string) (e e' : Entity) : Prop :=
  ent_label e' = ent_label e ∧ ent_type e' = ent_type e ∧
  ent_confidence e' = ent_confidence e ∧ ent_aliases e' = ent_aliases e ∧
  stamped text (ent_properties e) (ent_properties e').

Definition stamped_relationship (text : string) (r r' : Relationship) : Prop :=
  rel_source r' = rel_source r ∧ rel_target r' = rel_target r ∧
  rel_type r' = rel_type r ∧ rel_confidence r' = rel_confidence r ∧
  rel_context r' = rel_context r ∧
  stamped text (rel_properties r) (rel_properties r').

Definition stamped_result (text : string) (r r' : ExtractionResult) : Prop :=
  Forall2 (stamped_entity text) (entities r) (entities r') ∧
  Forall2 (stamped_relationship text) (relationships r) (relationships r').

Definition no_items (r : ExtractionResult) : Prop :=
  entities r = [] ∧ relationships r = [].

(** The edges written by the creating query of
    [createRelationshipWithValidation]: none when the query fails. *)
Definition created_edges (now : nat) (g : EnhancedNeo4jService.graph)
    (sourceLabel targetLabel sourceType targetType relationshipType : string)
    (properties : gmap string value) : list EnhancedNeo4jService.edge :=
  default [] (EnhancedNeo4jService.create_edges now g sourceLabel targetLabel
                sourceType targetType relationshipType properties).

(** The nodes stored under a key (type, label). *)
Definition stored (g : EnhancedNeo4jService.graph) (type label : string)
    : list EnhancedNeo4jService.node :=
  filter (fun n => EnhancedNeo4jService.has_exact_label type label n = true)
         (EnhancedNeo4jService.nodes g).

Definition entity_of (type : string) (n : EnhancedNeo4jService.node)
    : EnhancedNeo4jService.StoredEntity :=
  {| EnhancedNeo4jService.se_id := EnhancedNeo4jService.node_id n;
     EnhancedNeo4jService.se_label := EnhancedNeo4jService.node_props n !! "label";
     EnhancedNeo4jService.se_type := type;
     EnhancedNeo4jService.se_properties := EnhancedNeo4jService.node_props n;
     EnhancedNeo4jService.se_confidence := EnhancedNeo4jService.node_props n !! "confidence";
     EnhancedNeo4jService.se_aliases := EnhancedNeo4jService.node_props n !! "aliases" |}.

Definition replace_hits (type label : string) (n' : EnhancedNeo4jService.node)
    (ns : list EnhancedNeo4jService.node) : list EnhancedNeo4jService.node :=
  map (fun m => if EnhancedNeo4jService.has_exact_label type label m then n' else m) ns.

(** At most one node is stored under the key, and it is as upserts write
    nodes: its confidence is a number and its aliases are a list. *)
Definition held_at_most_once (g : EnhancedNeo4jService.graph) (type label : string)
    : Prop :=
  stored g type label = [] ∨
  ∃ n q old,
    stored g type label = [n] ∧
    EnhancedNeo4jService.node_props n !! "confidence" = Some (VNum q) ∧
    EnhancedNeo4jService.node_props n !! "aliases" = Some (VList old).

(** A property bag that does not use the keys the upsert itself manages. *)
Definition reserved_free (m : gmap string value) : Prop :=
  m !! "label" = None ∧ m !! "confidence" = None ∧ m !! "aliases" = None.



(** Building blocks of the examples: a candidate, an upsert that keeps the
    store when the call throws, and a run of upserts. *)
Definition candidate (label type : string) (confidence : option Q)
    (aliases : option (list string)) (properties : gmap string value)
    : EnhancedNeo4jService.EntityInput :=
  {| EnhancedNeo4jService.in_label := label;
     EnhancedNeo4jService.in_type := type;
     EnhancedNeo4jService.in_properties := properties;
     EnhancedNeo4jService.in_confidence := confidence;
     EnhancedNeo4jService.in_aliases := aliases |}.

Definition upsert (now : nat) (g : EnhancedNeo4jService.graph)
    (e : EnhancedNeo4jService.EntityInput) : EnhancedNeo4jService.graph :=
  match EnhancedNeo4jService.createEntityWithMerge now g e with
  | Some (g', _) => g'
  | None => g
  end.

Definition upserts (g : EnhancedNeo4jService.graph)
    (es : list EnhancedNeo4jService.EntityInput) : EnhancedNeo4jService.graph :=
  foldl (fun g e => upsert (length (EnhancedNeo4jService.nodes g)) g e) g es.

Definition stored_property (k : string) (g : EnhancedNeo4jService.graph)
    : list (option value) :=
  map (fun n => EnhancedNeo4jService.node_props n !! k) (EnhancedNeo4jService.nodes g).

Definition stored_edges (g : EnhancedNeo4jService.graph) : list (nat * string * nat) :=
  map (fun r => (EnhancedNeo4jService.edge_source r, EnhancedNeo4jService.edge_type r,
                 EnhancedNeo4jService.edge_target r))
      (EnhancedNeo4jService.edges g).

Definition apple_text : string :=
  "Apple is founded by Steve Jobs. Elon Musk owns Tesla.".

(** A strategy that is unavailable. *)
Definition unavailable : string → option ExtractionResult := fun _ => None.

(** What the model-backed entity filter guarantees of a survivor. *)
Definition gemini_survivor (e : Entity) : Prop :=
  nonempty_label e ∧
  GeminiNLPProcessor.isVeryGenericEntity e = false ∧
  GeminiNLPProcessor.isTechnicalTerm (ent_label e) = false.

(** An entity whose label is a letter between blanks, one whose label is
    the bare letter, one whose label is a symbol, and a reply of the model
    that holds the three. *)
Definition padded_letter : Entity :=
  {| ent_label := " a"; ent_type := "CONCEPT"; ent_properties := ∅;
     ent_confidence := 0.9; ent_aliases := Some [] |}.

Definition bare_letter : Entity :=
  {| ent_label := "a"; ent_type := "CONCEPT"; ent_properties := ∅;
     ent_confidence := 0.9; ent_aliases := Some [] |}.

Definition hash_mark : Entity :=
  {| ent_label := "#"; ent_type := "CONCEPT"; ent_properties := ∅;
     ent_confidence := 0.9; ent_aliases := Some [] |}.

Definition symbol_reply : ExtractionResult :=
  {| entities := [hash_mark; bare_letter; padded_letter]; relationships := [] |}.

(** Example stores.  [company_and_founder]: the nodes (COMPANY, "apple")
    and (PERSON, "Steve Jobs").  [case_variants]: the nodes
    (COMPANY, "apple"), (COMPANY, "Apple") and (PERSON, "Steve Jobs"), in
    that order; [case_variants_swapped]: the two companies in the other
    order.  [aliased_company]: (COMPANY, "Apple Inc") with the alias
    "Apple", and (PERSON, "Steve Jobs"). *)
Definition company_and_founder : EnhancedNeo4jService.graph :=
  upserts EnhancedNeo4jService.empty_graph
    [ candidate "apple" "COMPANY" (Some 0.9%Q) None ∅;
      candidate "Steve Jobs" "PERSON" (Some 0.9%Q) None ∅ ].

Definition case_variants : EnhancedNeo4jService.graph :=
  upserts EnhancedNeo4jService.empty_graph
    [ candidate "apple" "COMPANY" (Some 0.9%Q) None ∅;
      candidate "Apple" "COMPANY" (Some 0.9%Q) None ∅;
      candidate "Steve Jobs" "PERSON" (Some 0.9%Q) None ∅ ].

Definition case_variants_swapped : EnhancedNeo4jService.graph :=
  upserts EnhancedNeo4jService.empty_graph
    [ candidate "Apple" "COMPANY" (Some 0.9%Q) None ∅;
      candidate "apple" "COMPANY" (Some 0.9%Q) None ∅;
      candidate "Steve Jobs" "PERSON" (Some 0.9%Q) None ∅ ].

Definition aliased_company : EnhancedNeo4jService.graph :=
  upserts EnhancedNeo4jService.empty_graph
    [ candidate "Apple Inc" "COMPANY" (Some 0.9%Q) (Some ["Apple"]) ∅;
      candidate "Steve Jobs" "PERSON" (Some 0.9%Q) None ∅ ].

(** [createRelationshipWithValidation] of (company, FOUNDED_BY, Steve Jobs)
    with no properties. *)
Definition founded_by (now : nat) (g : EnhancedNeo4jService.graph) (company : string)
    : EnhancedNeo4jService.graph * option EnhancedNeo4jService.StoredRelationship :=
  EnhancedNeo4jService.createRelationshipWithValidation now g
    company "Steve Jobs" "COMPANY" "PERSON" "FOUNDED_BY" ∅.

(** A model reply whose two entities are generic words, joined by one
    relationship: the entity filter drops both entities, the relationship
    filter (which looks the endpoints up among the unfiltered entities)
    keeps the relationship. *)
Definition generic_reply : ExtractionResult :=
  {| entities :=
       [ {| ent_label := "The"; ent_type := "CONCEPT"; ent_properties := ∅;
            ent_confidence := 0.9; ent_aliases := Some [] |};
         {| ent_label := "All"; ent_type := "CONCEPT"; ent_properties := ∅;
            ent_confidence := 0.9; ent_aliases := Some [] |} ];
     relationships :=
       [ {| rel_source := "The"; rel_target := "All"; rel_type := "IS_A";
            rel_properties := ∅; rel_confidence := 0.9; rel_context := "The is All" |} ] |}.

(** A model reply with one entity. *)
Definition tesla_reply : ExtractionResult :=
  {| entities :=
       [ {| ent_label := "Tesla"; ent_type := "COMPANY"; ent_properties := ∅;
            ent_confidence := 0.95; ent_aliases := Some [] |} ];
     relationships := [] |}.

(** The clock of a request: the [k]-th store call sees time [k]. *)
Definition ticks : nat → nat := fun k => k.



(** Confidences never increase along the list. *)
Fixpoint descending {A} (conf : A → Q) (l : list A) : Prop :=
  match l with
  | [] => True
  | x :: tl => Forall (fun y => (conf y <= conf x)%Q) tl ∧ descending conf tl
  end.

(** The items of a list whose confidence equals [q], in list order. *)
Definition with_confidence {A} (conf : A → Q) (q : Q) (l : list A) : list A :=
  filter (fun x => Qeq_bool (conf x) q = true) l.

(** The sample request, run by the rule-based strategy. *)
Definition process_apple (g : EnhancedNeo4jService.graph) (clearBefore : bool)
    : EnhancedNeo4jService.graph * ProcessText.reply :=
  ProcessText.POST false unavailable ticks g apple_text clearBefore.

Definition stored_labels (g : EnhancedNeo4jService.graph) : list (string * option value) :=
  map (fun n => (EnhancedNeo4jService.node_label n,
                 EnhancedNeo4jService.node_props n !! "label"))
      (EnhancedNeo4jService.nodes g).

(** A pattern that can match the empty word. *)
Fixpoint nullable (r : RegExp.regex) : bool :=
  match r with
  | RegExp.Cls _ => false
  | RegExp.Cat r1 r2 => nullable r1 && nullable r2
  | RegExp.Alt r1 r2 => nullable r1 || nullable r2
  | RegExp.Group _ r1 => nullable r1
  | _ => true
  end.

(** The matches lie in the subject [s] from position [pos] on, from left
    to right and without overlap, and each is the non-empty substring found
    at its index. *)
Fixpoint in_order (pos : nat) (s : list ascii) (ms : list RegExp.match_result) : Prop :=
  match ms with
  | [] => True
  | m :: tl =>
      (pos ≤ RegExp.index m)%nat ∧
      (0 < String.length (RegExp.whole m))%nat ∧
      RegExp.whole m
        = string_of_list_ascii
            (take (String.length (RegExp.whole m)) (drop (RegExp.index m) s)) ∧
      in_order (RegExp.index m + String.length (RegExp.whole m)) s tl
  end.

(** The patterns run by the [exec] loops and [match] calls of the
    rule-based strategy. *)
Definition extraction_patterns : list RegExp.regexp :=
  concat (map snd LocalNLPProcessor.ENTITY_PATTERNS)
  ++ map LocalNLPProcessor.rp_pattern LocalNLPProcessor.RELATIONSHIP_PATTERNS
  ++ [ LocalNLPProcessor.re_g
         (RegExp.seq [RegExp.WordB; RegExp.upper; RegExp.plus RegExp.lower; RegExp.WordB]);
       LocalNLPProcessor.re_g
         (RegExp.seq [RegExp.WordB; RegExp.plus RegExp.lower; RegExp.WordB]) ].

(** The keys under which the two entity filters deduplicate: the
    case-folded label (rule-based strategy), and the case-folded, trimmed
    label (model-backed strategy). *)
Definition folded (e : Entity) : string := JS.toLowerCase (ent_label e).

Definition folded_trimmed (e : Entity) : string := normalized (ent_label e).

(** The state of a deduplicating loop: the keys of the items kept so far
    are pairwise distinct and recorded in the set. *)
Definition deduplicated (key : Entity → string) (a : list Entity * gset string) : Prop :=
  NoDup (map key a.1) ∧ ∀ e, e ∈ a.1 → key e ∈ a.2.

(** What the rule-based strategy records about a candidate: the text, the
    extractor, no alias, and a confidence and a marker fixed by the pass
    that found it (pattern or lexicon hit, capitalized word, common
    noun). *)
Definition local_candidate (text : string) (e : Entity) : Prop :=
  ent_properties e !! "context" = Some (VStr text) ∧
  ent_properties e !! "extractedBy" = Some (VStr "local-nlp") ∧
  ent_aliases e = Some [] ∧
  ( (ent_confidence e = 0.85%Q ∧
     ent_type e ∈ map fst LocalNLPProcessor.ENTITY_PATTERNS ∧
     ent_properties e !! "guessed" = None ∧
     ent_properties e !! "commonNoun" = None)
  ∨ (ent_confidence e = 0.7%Q ∧
     ent_type e = LocalNLPProcessor.guessEntityType (ent_label e) text ∧
     ent_properties e !! "guessed" = Some (VBool true) ∧
     ent_properties e !! "commonNoun" = None)
  ∨ (ent_confidence e = 0.6%Q ∧
     ent_type e = "OBJECT" ∧
     ent_properties e !! "guessed" = None ∧
     ent_properties e !! "commonNoun" = Some (VBool true)) ).

(** What lets an entity through the model-backed filter, apart from its
    key being new. *)
Definition gemini_admissible (e : Entity) : Prop :=
  ent_label e ≠ "" ∧
  GeminiNLPProcessor.isTechnicalTerm (ent_label e) = false ∧
  0 < String.length (folded_trimmed e) ∧
  GeminiNLPProcessor.isVeryGenericEntity e = false.

(** The characters group [n] of a pattern can capture. *)
Fixpoint captures (ic : bool) (r : RegExp.regex) (n : nat) (c : ascii) : bool :=
  match r with
  | RegExp.Group k r1 => (Nat.eqb k n && consumes ic r1 c) || captures ic r1 n c
  | RegExp.Cat r1 r2 | RegExp.Alt r1 r2 => captures ic r1 n c || captures ic r2 n c
  | RegExp.Star r1 => captures ic r1 n c
  | _ => false
  end.

(** What the rule-based strategy guarantees of a relationship candidate
    found in [text] among the entities [ents]: type and confidence are
    those of one rule of the table, the matched phrase is kept as context
    and provenance and occurs in the text, and the endpoints are single
    words that are, up to case, labels of [ents]. *)
Definition local_relationship (text : string) (ents : list Entity) (r : Relationship)
    : Prop :=
  (∃ p, p ∈ LocalNLPProcessor.RELATIONSHIP_PATTERNS ∧
        rel_type r = LocalNLPProcessor.rp_type p ∧
        rel_confidence r = LocalNLPProcessor.rp_confidence p) ∧
  (0.7 <= rel_confidence r <= 0.9)%Q ∧
  rel_properties r !! "extractedBy" = Some (VStr "local-nlp") ∧
  rel_properties r !! "originalMatch" = Some (VStr (rel_context r)) ∧
  JS.includes text (rel_context r) = true ∧
  JS.toLowerCase (rel_source r) ∈ map folded ents ∧
  JS.toLowerCase (rel_target r) ∈ map folded ents ∧
  all_chars JS.is_word (rel_source r) = true ∧
  all_chars JS.is_word (rel_target r) = true.

(** A capture made by group [p.1] of the pattern, and a cursor move that
    only adds such captures. *)
Definition captured_by (ic : bool) (r : RegExp.regex) (p : nat * list ascii) : Prop :=
  forallb (captures ic r p.1) p.2 = true.

Definition adds_captures (ic : bool) (r : RegExp.regex) (st st' : RegExp.cursor) : Prop :=
  ∃ new, RegExp.caps st' = new ++ RegExp.caps st ∧ Forall (captured_by ic r) new.




(** The identity of a node (its id and its type), and a store that keeps
    the nodes and the edges of another, in place, possibly followed by new
    ones. *)
Definition ident (n : EnhancedNeo4jService.node) : nat * string :=
  (EnhancedNeo4jService.node_id n, EnhancedNeo4jService.node_label n).

Definition extends (g g' : EnhancedNeo4jService.graph) : Prop :=
  (∃ ns, map ident (EnhancedNeo4jService.nodes g')
         = map ident (EnhancedNeo4jService.nodes g) ++ ns) ∧
  (∃ es, EnhancedNeo4jService.edges g' = EnhancedNeo4jService.edges g ++ es).

(** Every edge joins two nodes of the store. *)
Definition no_dangling (g : EnhancedNeo4jService.graph) : Prop :=
  Forall (fun r =>
            EnhancedNeo4jService.edge_source r
              ∈ map EnhancedNeo4jService.node_id (EnhancedNeo4jService.nodes g) ∧
            EnhancedNeo4jService.edge_target r
              ∈ map EnhancedNeo4jService.node_id (EnhancedNeo4jService.nodes g))
         (EnhancedNeo4jService.edges g).

(** A store with an edge between nodes it does not hold. *)
Definition dangling_graph : EnhancedNeo4jService.graph :=
  {| EnhancedNeo4jService.nodes := [];
     EnhancedNeo4jService.edges :=
       [ {| EnhancedNeo4jService.edge_id := 0;
            EnhancedNeo4jService.edge_source := 4;
            EnhancedNeo4jService.edge_target := 5;
            EnhancedNeo4jService.edge_type := "OWNS";
            EnhancedNeo4jService.edge_props := ∅ |} ];
     EnhancedNeo4jService.next_node := 6;
     EnhancedNeo4jService.next_edge := 1 |}.

(** A node on which the lookup queries cannot fail: its label, if any, is
    a string and its aliases, if any, are a list. *)
Definition well_typed (n : EnhancedNeo4jService.node) : Prop :=
  (∀ v, EnhancedNeo4jService.node_props n !! "label" = Some v → ∃ s, v = VStr s) ∧
  (∀ v, EnhancedNeo4jService.node_props n !! "aliases" = Some v → ∃ l, v = VList l).

(** The label is, up to case, the label or one of the aliases of the
    entity given to an upsert. *)
Definition names (e : EnhancedNeo4jService.EntityInput) (label : string) : Prop :=
  JS.toLowerCase (EnhancedNeo4jService.in_label e) = JS.toLowerCase label ∨
  ∃ alias, alias ∈ default [] (EnhancedNeo4jService.in_aliases e) ∧
           JS.toLowerCase alias = JS.toLowerCase label.

(** One label contains the other, up to case. *)
Definition similar (a b : string) : Prop :=
  JS.includes (JS.toLowerCase a) (JS.toLowerCase b) = true ∨
  JS.includes (JS.toLowerCase b) (JS.toLowerCase a) = true.

(** The entity returned by a lookup describes a node of the store that has
    the given type and a label similar to the given one. *)
Definition similar_hit (g : EnhancedNeo4jService.graph) (label type : string)
    (s : EnhancedNeo4jService.StoredEntity) : Prop :=
  ∃ n l,
    n ∈ EnhancedNeo4jService.nodes g ∧
    EnhancedNeo4jService.node_label n = type ∧
    EnhancedNeo4jService.node_props n !! "label" = Some (VStr l) ∧
    similar l label ∧
    EnhancedNeo4jService.se_id s = EnhancedNeo4jService.node_id n ∧
    EnhancedNeo4jService.se_type s = type ∧
    EnhancedNeo4jService.se_label s = Some (VStr l) ∧
    EnhancedNeo4jService.se_properties s = EnhancedNeo4jService.node_props n.

(** The node stored for a rule-based entity: its type, its label and an
    empty alias list. *)
Definition node_for (e : Entity) (n : EnhancedNeo4jService.node) : Prop :=
  EnhancedNeo4jService.node_label n = ent_type e ∧
  EnhancedNeo4jService.node_props n !! "label" = Some (VStr (ent_label e)) ∧
  EnhancedNeo4jService.node_props n !! "aliases" = Some (VList []).

(** Two states of a node that the lookups cannot tell apart: same id,
    type, label and aliases. *)
Definition same_keys (n n' : EnhancedNeo4jService.node) : Prop :=
  EnhancedNeo4jService.node_id n' = EnhancedNeo4jService.node_id n ∧
  EnhancedNeo4jService.node_label n' = EnhancedNeo4jService.node_label n ∧
  EnhancedNeo4jService.node_props n' !! "label"
    = EnhancedNeo4jService.node_props n !! "label" ∧
  EnhancedNeo4jService.node_props n' !! "aliases"
    = EnhancedNeo4jService.node_props n !! "aliases".

(** What the handler reads of a processed entity. *)
Definition view (e : Entity) (s : EnhancedNeo4jService.StoredEntity) : Prop :=
  EnhancedNeo4jService.se_label s = Some (VStr (ent_label e)) ∧
  EnhancedNeo4jService.se_type s = ent_type e.

(** An entity whose properties leave the managed keys alone and that has
    no alias. *)
Definition clean (e : Entity) : Prop :=
  (reserved_free (ent_properties e) ∧ ent_aliases e = Some []) ∧
  EnhancedNeo4jService.symbolic_name (ent_type e) = true.

(** The first entity whose case-folded label is that of [label]. *)
Definition pick (ents : list Entity) (label : string) : option Entity :=
  List.find (fun e => String.eqb (folded e) (JS.toLowerCase label)) ents.

(** A relationship call that has nothing left to do: an endpoint does not
    resolve, or an edge of the type joins the resolved endpoints, or no
    pair of nodes carries exactly the two labels. *)
Definition settled (g : EnhancedNeo4jService.graph)
    (sourceLabel targetLabel sourceType targetType relationshipType : string) : Prop :=
  match EnhancedNeo4jService.findEntityByLabelAndType g sourceLabel sourceType,
        EnhancedNeo4jService.findEntityByLabelAndType g targetLabel targetType with
  | Some s, Some t =>
      (is_Some (EnhancedNeo4jService.findRelationship g
                  (EnhancedNeo4jService.se_id s) (EnhancedNeo4jService.se_id t)
                  relationshipType)
       ∨ EnhancedNeo4jService.endpoint_rows g sourceLabel targetLabel sourceType targetType
         = [])
      ∨ EnhancedNeo4jService.symbolic_name relationshipType = false
  | _, _ => True
  end.

Definition settled_rel (ents : list Entity) (g : EnhancedNeo4jService.graph)
    (rel : Relationship) : Prop :=
  match pick ents (rel_source rel), pick ents (rel_target rel) with
  | Some es, Some et =>
      settled g (ent_label es) (ent_label et) (ent_type es) (ent_type et) (rel_type rel)
  | _, _ => True
  end.

(** An entity labelled "Profile". *)
Definition profile_entity : Entity :=
  {| ent_label := "Profile"; ent_type := "CONCEPT"; ent_properties := ∅;
     ent_confidence := 0.9; ent_aliases := Some [] |}.

(** The number in the [confidence] field of an entity or a relationship
    of a snapshot. *)
Definition shown (v : option value) : Q :=
  match v with
  | Some (VNum q) => q
  | _ => 1
  end.

(** The stored confidence is absent or a number other than zero. *)
Definition numeric (m : gmap string value) : Prop :=
  m !! "confidence" = None ∨ ∃ q, m !! "confidence" = Some (VNum q) ∧ ¬ (q == 0)%Q.

(** A store of two companies, one of confidence 0.5 and one whose property
    bag sets the confidence 0. *)
Definition zero_confidence_store : EnhancedNeo4jService.graph :=
  upserts EnhancedNeo4jService.empty_graph
    [ candidate "Tesla" "COMPANY" (Some 0.5%Q) None ∅;
      candidate "Apple" "COMPANY" (Some 0.9%Q) None {["confidence" := VNum 0]} ].

(** The punctuation marks of the whitelist, and the characters of a
    normalized text: the plain space, word characters and marks. *)
Definition mark (c : ascii) : bool :=
  RegExp.class_has false
    (EnhancedFileProcessor.stops
     ++ [RegExp.CChar "("; RegExp.CChar ")"; RegExp.CChar "-"; RegExp.CChar "'";
         RegExp.CChar EnhancedFileProcessor.dquote]) c.

Definition normal_char (c : ascii) : bool :=
  Ascii.eqb c " " || JS.is_word c || mark c.

(** The string starts with a blank; no blank of the string is followed by
    a blank. *)
Definition starts_blank (s : string) : bool :=
  match s with
  | EmptyString => false
  | String c _ => JS.is_space c
  end.

Fixpoint single_spaced (s : string) : bool :=
  match s with
  | EmptyString => true
  | String c r => negb (JS.is_space c && starts_blank r) && single_spaced r
  end.

(** The cursor at a position of a subject, before any capture. *)
Definition at_position (bef rst : list ascii) : RegExp.cursor :=
  {| RegExp.before := bef; RegExp.rest := rst; RegExp.caps := [] |}.

Definition starts_space (l : list ascii) : bool :=
  match l with
  | [] => false
  | c :: _ => JS.is_space c
  end.

(** A text made of a tab, a line feed and a space. *)
Definition blank_text : string := String "009" (String "010" " ").

(** Extractors for the examples: the text of a [.txt] file is blank, the
    other formats cannot be read. *)
Definition blank_extractor : EnhancedFileProcessor.File → option string :=
  fun _ => Some blank_text.

(** An extractor that fails. *)
Definition unavailable_file : EnhancedFileProcessor.File → option string := fun _ => None.

Definition notes_txt : EnhancedFileProcessor.File :=
  {| EnhancedFileProcessor.file_name := "notes.TXT";
     EnhancedFileProcessor.file_size := 3 |}.


Ltac by_char c := destruct c as [[] [] [] [] [] [] [] []]; reflexivity.

(** * Facts about the string primitives *)

Section StringFacts.
Import JS.

Lemma lower_upper_char c : lower_char (upper_char c) = lower_char c.
Proof. by_char c. Qed.

Lemma lower_lower_char c : lower_char (lower_char c) = lower_char c.
Proof. by_char c. Qed.

Lemma is_space_lower_char c : is_space (lower_char c) = is_space c.
Proof. by_char c. Qed.

Lemma toLowerCase_idem s : toLowerCase (toLowerCase s) = toLowerCase s.
Proof. induction s as [| c s IH]; [done |]. cbn. by rewrite lower_lower_char, IH. Qed.

Lemma length_toLowerCase s : String.length (toLowerCase s) = String.length s.
Proof. induction s as [| c s IH]; [done |]. cbn. by rewrite IH. Qed.

Lemma trimStart_toLowerCase s : trimStart (toLowerCase s) = toLowerCase (trimStart s).
Proof.
  induction s as [| c s IH]; [done |].
  cbn. rewrite is_space_lower_char. by destruct (is_space c).
Qed.

Lemma trimEnd_toLowerCase s : trimEnd (toLowerCase s) = toLowerCase (trimEnd s).
Proof.
  induction s as [| c s IH]; [done |].
  cbn. rewrite IH, is_space_lower_char.
  destruct (trimEnd s); cbn; [by destruct (is_space c) | done].
Qed.

(** Case folding and trimming commute. *)
Lemma trim_toLowerCase s : trim (toLowerCase s) = toLowerCase (trim s).
Proof. unfold trim. by rewrite trimStart_toLowerCase, trimEnd_toLowerCase. Qed.

Lemma trimStart_clean s : starts_clean (trimStart s).
Proof. induction s as [| c s IH]; [done |]. cbn. by destruct (is_space c) eqn:H. Qed.

Lemma trimStart_id s : starts_clean s → trimStart s = s.
Proof. destruct s as [| c s]; [done |]. cbn. by intros ->. Qed.

Lemma trimEnd_clean s : starts_clean s → starts_clean (trimEnd s).
Proof.
  destruct s as [| c s]; [done |]. cbn. intros Hc.
  destruct (trimEnd s); [by rewrite Hc | done].
Qed.

Lemma trimEnd_idem s : trimEnd (trimEnd s) = trimEnd s.
Proof.
  induction s as [| c s IH]; [done |].
  cbn. destruct (trimEnd s) as [| d t] eqn:Ht.
  - destruct (is_space c) eqn:Hc; [done |]. cbn. by rewrite Hc.
  - cbn [trimEnd] in *. by rewrite IH.
Qed.

Lemma trim_idem s : trim (trim s) = trim s.
Proof.
  unfold trim. rewrite (trimStart_id (trimEnd _)) by apply trimEnd_clean, trimStart_clean.
  apply trimEnd_idem.
Qed.

Lemma all_chars_of_list P (w : list ascii) :
  forallb P w = true → all_chars P (string_of_list_ascii w) = true.
Proof. induction w as [| c w IH]; [done |]. cbn. intros [-> H]%andb_true_iff. by apply IH. Qed.

Lemma trimEnd_no_space s : all_chars not_space s = true → trimEnd s = s.
Proof.
  induction s as [| c s IH]; [done |].
  cbn. intros [Hc Hs]%andb_true_iff. rewrite IH by done.
  apply negb_true_iff in Hc. rewrite Hc. by destruct s.
Qed.

(** A string without blanks is its own trim. *)
Lemma trim_no_space s : all_chars not_space s = true → trim s = s.
Proof.
  intros H. unfold trim. rewrite trimStart_id.
  - by apply trimEnd_no_space.
  - destruct s; [done |]. cbn in *. apply andb_true_iff in H as [H _]. by apply negb_true_iff.
Qed.

Lemma arr_includes_In arr x : arr_includes arr x = true → In x arr.
Proof.
  unfold arr_includes. intros (y & Hy & Heq)%existsb_exists.
  apply String.eqb_eq in Heq. by subst.
Qed.

End StringFacts.

(** * Facts about the matcher: a match consumes only characters of the
      pattern's classes *)

Section RegExpFacts.
Import RegExp.

Lemma reaches_refl P st : reaches P st st.
Proof. by exists []. Qed.

Lemma reaches_trans P st1 st2 st3 :
  reaches P st1 st2 → reaches P st2 st3 → reaches P st1 st3.
Proof.
  intros (w1 & [Hr1 Hb1] & H1) (w2 & [Hr2 Hb2] & H2).
  exists (w1 ++ w2). split; [split |].
  - by rewrite Hr1, Hr2, app_assoc.
  - by rewrite Hb2, Hb1, rev_app_distr, app_assoc.
  - by rewrite forallb_app, H1, H2.
Qed.

Lemma reaches_weaken (P Q : ascii → bool) st st' :
  (∀ c, P c = true → Q c = true) → reaches P st st' → reaches Q st st'.
Proof.
  intros HPQ (w & Hw & HP). exists w. split; [done |].
  apply forallb_forall. intros c Hc. apply HPQ.
  by eapply forallb_forall in HP.
Qed.

Lemma star_loop_reaches P step fuel st st' :
  (∀ a b, In b (step a) → reaches P a b) →
  In st' (star_loop step fuel st) → reaches P st st'.
Proof.
  intros Hstep. induction fuel as [| f IH] in st |- *; cbn [star_loop].
  - intros [<- | []]. apply reaches_refl.
  - intros [Hin | [<- | []]]%in_app_iff; [| apply reaches_refl].
    apply in_concat in Hin as (l & Hl & Hin).
    apply in_map_iff in Hl as (mid & <- & Hmid).
    destruct (Nat.ltb _ _); [| done].
    eapply reaches_trans; [by apply Hstep | by apply IH].
Qed.

Lemma run_reaches ic r st st' :
  In st' (run ic r st) → reaches (consumes ic r) st st'.
Proof.
  induction r as [| cl | r1 IH1 r2 IH2 | r1 IH1 r2 IH2 | r1 IH1 | n r1 IH1 | | |]
    in st, st' |- *; cbn [run consumes].
  - intros [<- | []]. apply reaches_refl.
  - destruct (rest st) as [| c tl] eqn:Hrest; [done |].
    destruct (class_has ic cl c) eqn:Hc; [| done].
    intros [<- | []]. exists [c]. cbn. rewrite Hc. by repeat split.
  - intros (l & Hl & Hin)%in_concat.
    apply in_map_iff in Hl as (mid & <- & Hmid).
    eapply reaches_trans.
    + eapply reaches_weaken; [| by apply IH1]. by intros c ->.
    + eapply reaches_weaken; [| by apply IH2]. intros c ->. by rewrite orb_true_r.
  - intros [Hin | Hin]%in_app_iff.
    + eapply reaches_weaken; [| by apply IH1]. by intros c ->.
    + eapply reaches_weaken; [| by apply IH2]. intros c ->. by rewrite orb_true_r.
  - apply star_loop_reaches. intros a b. apply IH1.
  - intros (mid & <- & Hmid)%in_map_iff.
    destruct (IH1 _ _ Hmid) as (w & [Hr Hb] & Hw). by exists w.
  - destruct (at_word_boundary st); [| done]. intros [<- | []]. apply reaches_refl.
  - destruct (before st); [| done]. intros [<- | []]. apply reaches_refl.
  - destruct (rest st); [| done]. intros [<- | []]. apply reaches_refl.
Qed.

Lemma first_match_reaches ic r bef rst st st' :
  first_match ic r bef rst = Some (st, st') → reaches (consumes ic r) st st'.
Proof.
  induction rst as [| c tl IH] in bef |- *; cbn [first_match].
  - destruct (run ic r _) as [| hd l] eqn:Hrun; [done |].
    intros [= <- <-]. apply run_reaches. rewrite Hrun. by left.
  - destruct (run ic r _) as [| hd l] eqn:Hrun; [apply IH |].
    intros [= <- <-]. apply run_reaches. rewrite Hrun. by left.
Qed.

Lemma result_of_whole P st st' :
  reaches P st st' →
  ∃ w, whole (result_of st st') = string_of_list_ascii w ∧ forallb P w = true.
Proof.
  intros (w & [Hr Hb] & Hw). exists w. split; [| done].
  unfold result_of; cbn [whole]. f_equal.
  rewrite Hb, Hr, length_app, length_rev.
  replace (length w + length (before st) - length (before st)) with (length w) by lia.
  by rewrite take_app_length.
Qed.

Lemma scan_whole fuel ic r bef rst m :
  In m (scan fuel ic r bef rst) →
  ∃ w, whole m = string_of_list_ascii w ∧ forallb (consumes ic r) w = true.
Proof.
  induction fuel as [| f IH] in bef, rst |- *; cbn [scan]; [done |].
  destruct (first_match ic r bef rst) as [[st st'] |] eqn:Hfm; [| done].
  intros [<- | Hin].
  - eapply result_of_whole, first_match_reaches, Hfm.
  - destruct (Nat.ltb _ _); [by eapply IH |].
    destruct (rest st'); [done | by eapply IH].
Qed.

(** Every match of a global pattern is a word over the characters of the
    pattern's classes. *)
Lemma matchAll_whole re s m :
  In m (matchAll re s) →
  ∃ w, whole m = string_of_list_ascii w
       ∧ forallb (consumes (ignoreCase re) (pattern re)) w = true.
Proof. apply scan_whole. Qed.

Lemma reaches_rest P st st' :
  reaches P st st' →
  (length (rest st') ≤ length (rest st))%nat ∧
  (length (before st) < length (before st') → length (rest st') < length (rest st))%nat.
Proof.
  intros (w & [Hr Hb] & _). rewrite Hr, Hb, !length_app, length_rev. lia.
Qed.

Lemma concat_map_ext {A B} (f g : A → list B) l :
  (∀ x, In x l → f x = g x) → concat (map f l) = concat (map g l).
Proof. intros H. by rewrite (map_ext_in _ _ _ H). Qed.

Lemma star_loop_fuel P step f1 f2 st :
  (∀ a b, In b (step a) → reaches P a b) →
  (length (rest st) ≤ f1)%nat → (length (rest st) ≤ f2)%nat →
  star_loop step f1 st = star_loop step f2 st.
Proof.
  intros Hstep.
  assert (∀ f st, length (rest st) = 0%nat → star_loop step f st = [st]) as Hend.
  { intros f st0 H0. destruct f as [| f]; [done |]. cbn [star_loop].
    rewrite (concat_map_ext _ (fun _ => [])).
    - by induction (step st0).
    - intros b Hb. destruct (Nat.ltb _ _) eqn:Hlt; [| done].
      apply Nat.ltb_lt in Hlt. apply Hstep, reaches_rest in Hb as [_ Hb]. specialize (Hb Hlt). lia. }
  induction f1 as [| f1 IH] in f2, st |- *; intros H1 H2.
  - rewrite !Hend by lia. done.
  - destruct f2 as [| f2]; [rewrite !Hend by lia; done |].
    cbn [star_loop]. f_equal. apply concat_map_ext. intros b Hb.
    destruct (Nat.ltb _ _) eqn:Hlt; [| done].
    apply Nat.ltb_lt in Hlt. apply Hstep, reaches_rest in Hb as [_ Hb]. specialize (Hb Hlt).
    apply IH; lia.
Qed.

Lemma first_match_rest ic r bef rst st st' :
  first_match ic r bef rst = Some (st, st') →
  (length (rest st) ≤ length rst)%nat.
Proof.
  induction rst as [| c tl IH] in bef |- *; cbn [first_match].
  - destruct (run ic r _); [done |]. by intros [= <- _].
  - destruct (run ic r _); [| by intros [= <- _]].
    intros H%IH. cbn. lia.
Qed.

Lemma scan_fuel f1 f2 ic r bef rst :
  (length rst < f1)%nat → (length rst < f2)%nat →
  scan f1 ic r bef rst = scan f2 ic r bef rst.
Proof.
  induction f1 as [| f1 IH] in f2, bef, rst |- *; intros H1 H2; [lia |].
  destruct f2 as [| f2]; [lia |]. cbn [scan].
  destruct (first_match ic r bef rst) as [[st st'] |] eqn:Hfm; [| done].
  pose proof (first_match_rest _ _ _ _ _ _ Hfm) as Hst.
  apply first_match_reaches, reaches_rest in Hfm as [Hle Hlt].
  f_equal. destruct (Nat.ltb _ _) eqn:Hp.
  - apply Nat.ltb_lt in Hp. specialize (Hlt Hp). apply IH; lia.
  - destruct (rest st') as [| c tl] eqn:Hr; [done |]. cbn in Hle. apply IH; lia.
Qed.

(** The fuel of the two loops of the matcher is an upper bound, not a
    cut: any larger amount gives the same matches. *)
Lemma matcher_fuel_adequate ic r st s extra :
  star_loop (run ic r) (length (rest st) + extra) st = run ic (Star r) st ∧
  scan (S (String.length s) + extra) ic r [] (list_ascii_of_string s)
    = matchAll {| pattern := r; ignoreCase := ic |} s.
Proof.
  split.
  - cbn [run]. apply (star_loop_fuel (consumes ic r)); [| lia | lia].
    intros a b. apply run_reaches.
  - unfold matchAll; cbn [pattern ignoreCase].
    assert (length (list_ascii_of_string s) = String.length s) as Hlen.
    { induction s as [| c s IH]; [done |]. cbn. by rewrite IH. }
    apply scan_fuel; lia.
Qed.

End RegExpFacts.

(** * Facts about loops and sorting *)

Lemma foldl_invariant {A B} (P : A → Prop) (Q : B → Prop) (f : A → B → A) l a :
  (∀ a b, P a → Q b → P (f a b)) → Forall Q l → P a → P (foldl f a l).
Proof.
  intros Hf Hl. induction Hl as [| b l Hb Hl IH] in a |- *; [done |].
  intros Ha. cbn. apply IH. by apply Hf.
Qed.

Lemma foldl_preserves {A B} (P : A → Prop) (f : A → B → A) l a :
  (∀ a b, P a → P (f a b)) → P a → P (foldl f a l).
Proof.
  intros Hf. apply (foldl_invariant P (fun _ => True)); [auto |].
  by apply Forall_forall.
Qed.

Lemma In_insert_desc {A} (conf : A → Q) x y l :
  In y (insert_desc conf x l) → y = x ∨ In y l.
Proof.
  induction l as [| z l IH]; cbn.
  - intros [<- | []]. by left.
  - destruct (Qle_bool _ _).
    + intros [<- | H]; [by left | by right].
    + intros [<- | H]; [right; by left |].
      destruct (IH H) as [-> | H']; [by left | right; by right].
Qed.

Lemma In_sort_desc {A} (conf : A → Q) y l : In y (sort_desc conf l) → In y l.
Proof.
  induction l as [| x l IH]; cbn; [done |].
  intros [-> | H]%In_insert_desc; [by left | right; by apply IH].
Qed.

Lemma Forall_sort_desc {A} (P : A → Prop) (conf : A → Q) l :
  Forall P l → Forall P (sort_desc conf l).
Proof.
  rewrite !Forall_forall. intros H x Hx%list_elem_of_In%In_sort_desc.
  by apply H, list_elem_of_In.
Qed.

(** * The rule-based strategy *)

Section LocalFacts.
Import JS RegExp LocalNLPProcessor.

Lemma toLowerCase_capitalizeFirst s : toLowerCase (capitalizeFirst s) = toLowerCase s.
Proof.
  destruct s as [| c s]; [done |].
  unfold capitalizeFirst. cbn [charAt0 slice1 toUpperCase].
  change (String (upper_char c) "" +:+ toLowerCase s)
    with (String (upper_char c) (toLowerCase s)).
  cbn [toLowerCase]. by rewrite lower_upper_char, toLowerCase_idem.
Qed.

Lemma normalized_capitalizeFirst s : normalized (capitalizeFirst s) = normalized s.
Proof. unfold normalized. by rewrite toLowerCase_capitalizeFirst. Qed.

Lemma normalized_trimmed s : normalized (trim s) = toLowerCase (trim s).
Proof. unfold normalized. by rewrite trim_toLowerCase, trim_idem. Qed.

Lemma normalized_clean word :
  all_chars not_space word = true → normalized word = toLowerCase word.
Proof. intros H. unfold normalized. by rewrite trim_toLowerCase, trim_no_space. Qed.

Lemma pattern_step_long text type a m :
  Forall long_label a.1 → Forall long_label (pattern_step text type a m).1.
Proof.
  intros Ha. unfold pattern_step.
  destruct (Nat.ltb 1 _) eqn:Hlen; [| done].
  destruct (negb _); [| done]. cbn.
  apply Forall_app. split; [done |]. apply Forall_singleton.
  unfold long_label; cbn [ent_label].
  rewrite normalized_capitalizeFirst, normalized_trimmed.
  by apply Nat.ltb_lt in Hlen.
Qed.

Lemma letters_not_space c :
  consumes false (seq [WordB; upper; plus lower; WordB]) c = true → not_space c = true.
Proof.
  destruct c as [[] [] [] [] [] [] [] []]; vm_compute; intros H;
    first [reflexivity | discriminate H].
Qed.

(** The capitalized words found in a text hold no blank. *)
Lemma capitalizedWords_clean text :
  Forall (fun word => all_chars not_space word = true) (capitalizedWords text).
Proof.
  apply Forall_forall. intros word Hin%list_elem_of_In.
  apply in_map_iff in Hin as (m & <- & Hm).
  apply matchAll_whole in Hm as (w & -> & Hw).
  apply all_chars_of_list, forallb_forall. intros c Hc.
  apply letters_not_space. by eapply forallb_forall in Hw.
Qed.

Lemma capitalized_step_long text a word :
  Forall long_label a.1 →
  all_chars not_space word = true →
  Forall long_label (capitalized_step text a word).1.
Proof.
  intros Ha Hw. unfold capitalized_step.
  destruct (negb _); [| done]. destruct (Nat.ltb 2 _) eqn:Hlen; [| done]. cbn.
  apply Forall_app. split; [done |]. apply Forall_singleton.
  unfold long_label; cbn [ent_label].
  rewrite normalized_clean, length_toLowerCase by done.
  apply Nat.ltb_lt in Hlen. lia.
Qed.

Lemma likely_noun_long noun :
  isLikelyNoun noun = true → 1 < String.length (normalized noun).
Proof.
  intros H%arr_includes_In. unfold normalized.
  rewrite <- toLowerCase_idem, trim_toLowerCase, length_toLowerCase.
  cbn [In] in H.
  repeat (destruct H as [<- | H]; [vm_compute; lia |]). done.
Qed.

Lemma noun_step_long text a noun :
  Forall long_label a.1 → Forall long_label (noun_step text a noun).1.
Proof.
  intros Ha. unfold noun_step.
  destruct (Nat.ltb 2 _); [| done]. destruct (negb _); [| done].
  destruct (isLikelyNoun noun) eqn:Hn; [| done]. cbn.
  apply Forall_app. split; [done |]. apply Forall_singleton.
  unfold long_label; cbn [ent_label].
  rewrite normalized_capitalizeFirst. by apply likely_noun_long.
Qed.

(** Every label produced by [extractEntities] is, once normalized, longer
    than one character. *)
Lemma extractEntities_long text : Forall long_label (extractEntities text).
Proof.
  unfold extractEntities. cbn zeta.
  apply (foldl_preserves (fun a : acc => Forall long_label a.1));
    [intros; by apply noun_step_long |].
  apply (foldl_invariant (fun a : acc => Forall long_label a.1)
           (fun word => all_chars not_space word = true));
    [intros; by apply capitalized_step_long | apply capitalizedWords_clean |].
  apply (foldl_preserves (fun a : acc => Forall long_label a.1)); [| done].
  intros a g Ha. unfold group_loop.
  apply (foldl_preserves (fun a : acc => Forall long_label a.1)); [| done].
  intros a' re Ha'. unfold pattern_loop.
  apply (foldl_preserves (fun a : acc => Forall long_label a.1)); [| done].
  intros; by apply pattern_step_long.
Qed.

Lemma local_filter_step_keeps (P : Entity → Prop) a e :
  Forall P a.1 → P e → Forall P (filter_step a e).1.
Proof.
  intros Ha He. unfold filter_step.
  destruct (_ && _); [| done]. cbn. apply Forall_app. by split; [| apply Forall_singleton].
Qed.

Lemma local_filterEntities_keeps (P : Entity → Prop) ents :
  Forall P ents → Forall P (filterEntities ents).
Proof.
  intros H. apply Forall_sort_desc.
  apply (foldl_invariant (fun a : acc => Forall P a.1) P); [| done | done].
  intros; by apply local_filter_step_keeps.
Qed.

Lemma local_entities_long text :
  Forall long_label (entities (extractEntitiesAndRelationships text)).
Proof. apply local_filterEntities_keeps, extractEntities_long. Qed.


End LocalFacts.

(** * The model-backed strategy *)

Section GeminiFacts.
Import JS GeminiNLPProcessor.

Lemma gemini_filter_step_survivors a e :
  Forall gemini_survivor a.1 → Forall gemini_survivor (filter_step a e).1.
Proof.
  intros Ha. unfold filter_step.
  destruct (String.eqb _ _); [done |].
  destruct (isTechnicalTerm _) eqn:Htech; [done |].
  destruct (_ && _ && _) eqn:Hcond; [| done].
  apply andb_true_iff in Hcond as [[Hlen _]%andb_true_iff Hgen]. cbn.
  apply Forall_app. split; [done |]. apply Forall_singleton.
  split; [by apply Nat.ltb_lt in Hlen |]. split; [by apply negb_true_iff | done].
Qed.

Lemma gemini_entities_survivors ents : Forall gemini_survivor (filterEntities ents).
Proof.
  apply Forall_sort_desc.
  apply (foldl_preserves
           (fun a : list Entity * gset string => Forall gemini_survivor a.1)); [| done].
  intros; by apply gemini_filter_step_survivors.
Qed.


End GeminiFacts.

(** C8 fails on the code, on the model-backed path.  Its filter asks for
    a normalized label of more than zero characters where the rule-based
    filter asks for more than one, and its test for a bare single letter
    reads the raw label, not the normalized one.  So the symbol [#], which
    the rule-based filter drops, survives; and while the bare letter [a]
    is dropped, the same letter after a blank survives, with the
    normalized label [a].  A reply of the model that holds the three
    entities comes out of the coordinator with the symbol and the padded
    letter. *)
Lemma single_character_label_survives :
  GeminiNLPProcessor.filterEntities [padded_letter] = [padded_letter] ∧
  String.length (normalized (ent_label padded_letter)) = 1 ∧
  GeminiNLPProcessor.filterEntities [bare_letter] = [] ∧
  GeminiNLPProcessor.filterEntities [hash_mark] = [hash_mark] ∧
  String.length (normalized (ent_label hash_mark)) = 1 ∧
  LocalNLPProcessor.filterEntities [hash_mark] = [] ∧
  entities (ProcessText.nlpProcessor true (fun _ => Some symbol_reply) apple_text).2
    = [hash_mark; padded_letter].
Proof. split_and!; vm_compute; reflexivity. Qed.

(** What the two paths do guarantee: every entity returned by the
    rule-based strategy has a normalized (case-folded, trimmed) label longer
    than one character; every entity that survives the model-backed filter
    has a non-empty normalized label, is not matched by a generic pattern
    and is not a technical term. *)
Lemma surviving_labels text ents :
  Forall long_label (entities (LocalNLPProcessor.extractEntitiesAndRelationships text)) ∧
  Forall gemini_survivor (GeminiNLPProcessor.filterEntities ents).
Proof. split; [apply local_entities_long | apply gemini_entities_survivors]. Qed.

(** * The coordinator *)

Section CoordinatorFacts.
Import HybridNLPProcessor.

Lemma stamp_stamped text props : stamped text props (stamp text props).
Proof.
  unfold stamped, stamp, stamp_keys. repeat split; [by simplify_map_eq .. |].
  intros k Hk. rewrite !not_elem_of_cons in Hk. destruct Hk as (H1 & H2 & H3 & _).
  by rewrite !lookup_insert_ne.
Qed.

Lemma enhance_stamped result text :
  stamped_result text result (enhanceLocalResults result text).
Proof.
  split; cbn [enhanceLocalResults entities relationships].
  - induction (entities result) as [| e l IH]; constructor; [| done].
    repeat split; try done; apply stamp_stamped.
  - induction (relationships result) as [| r l IH]; constructor; [| done].
    repeat split; try done; apply stamp_stamped.
Qed.


Lemma extract_external key gemini local text result :
  key = true → gemini text = Some result →
  entities result ≠ [] ∨ relationships result ≠ [] →
  extract_traced key gemini local text = (External, result).
Proof.
  intros -> Hg Hne. unfold extract_traced. rewrite Hg.
  destruct (entities result), (relationships result); cbn; try done.
  by destruct Hne.
Qed.

Lemma extract_fallback key gemini local text :
  key = false ∨ gemini text = None ∨ (∃ result, gemini text = Some result ∧ no_items result) →
  extract_traced key gemini local text = (Local, enhanceLocalResults (local text) text).
Proof.
  unfold extract_traced. intros [-> | [Hg | (result & Hg & He & Hr)]]; [done | |].
  - rewrite Hg. by destruct key.
  - rewrite Hg, He, Hr. by destruct key.
Qed.

End CoordinatorFacts.

(** C5, as the claim states it, fails: when the model-backed strategy is
    unavailable the coordinator does not return the rule-based result
    itself but a copy whose property bags carry three more keys. *)
Lemma fallback_differs_from_local :
  HybridNLPProcessor.extractEntitiesAndRelationships true unavailable
    LocalNLPProcessor.extractEntitiesAndRelationships "John likes Mary."
  ≠ LocalNLPProcessor.extractEntitiesAndRelationships "John likes Mary.".
Proof.
  intros H.
  apply (f_equal (fun r => map (fun e => ent_properties e !! "processingMethod")
                               (entities r))) in H.
  vm_compute in H. discriminate H.
Qed.

(** C5 (amended): with the key configured, a model-backed result holding
    at least one entity or relationship is returned verbatim; when the key
    is absent, or that strategy throws, or it returns no entity and no
    relationship, the coordinator returns the rule-based result of the same
    text with every item's property bag stamped ([enhanced], [originalText],
    [processingMethod = local]) and nothing else changed.  The two results
    are never mixed. *)
Theorem coordinator_priority key gemini local text :
  (∀ result,
      key = true → gemini text = Some result →
      entities result ≠ [] ∨ relationships result ≠ [] →
      HybridNLPProcessor.extractEntitiesAndRelationships key gemini local text = result) ∧
  (key = false ∨ gemini text = None ∨
     (∃ result, gemini text = Some result ∧ no_items result) →
   HybridNLPProcessor.extractEntitiesAndRelationships key gemini local text
     = HybridNLPProcessor.enhanceLocalResults (local text) text ∧
   stamped_result text (local text)
     (HybridNLPProcessor.extractEntitiesAndRelationships key gemini local text)).
Proof.
  unfold HybridNLPProcessor.extractEntitiesAndRelationships. split.
  - intros result Hk Hg Hne. by rewrite (extract_external _ _ _ _ result).
  - intros H. rewrite extract_fallback by done. split; [done | apply enhance_stamped].
Qed.

Lemma coordinator_priority_witness :
  HybridNLPProcessor.extractEntitiesAndRelationships true (fun _ => Some tesla_reply)
    LocalNLPProcessor.extractEntitiesAndRelationships "Elon Musk owns Tesla."
  = tesla_reply ∧
  unavailable "John likes Mary." = None ∧
  stamped_result "John likes Mary."
    (LocalNLPProcessor.extractEntitiesAndRelationships "John likes Mary.")
    (HybridNLPProcessor.extractEntitiesAndRelationships true unavailable
       LocalNLPProcessor.extractEntitiesAndRelationships "John likes Mary.").
Proof.
  split; [| split; [reflexivity |]].
  - apply (coordinator_priority true (fun _ => Some tesla_reply)
             LocalNLPProcessor.extractEntitiesAndRelationships "Elon Musk owns Tesla.");
      [reflexivity | reflexivity | left; discriminate].
  - apply (coordinator_priority true unavailable
             LocalNLPProcessor.extractEntitiesAndRelationships "John likes Mary.").
    right. left. reflexivity.
Defined.

(** * The graph reconciler *)

Section StoreFacts.
Import EnhancedNeo4jService.

Lemma graph_eta (g : graph) :
  {| nodes := nodes g; edges := edges g;
     next_node := next_node g; next_edge := next_edge g |} = g.
Proof. by destruct g. Qed.

Lemma Qlt_bool_iff (x y : Q) : Qlt_bool x y = true ↔ (x < y)%Q.
Proof.
  unfold Qlt_bool. rewrite negb_true_iff, <- not_true_iff_false, Qle_bool_iff.
  split; [apply Qnot_le_lt | apply Qlt_not_le].
Qed.

(** The comparison made by the [CASE] of [ON MATCH] selects the maximum. *)
Lemma Qmax_select (x y : Q) : (if Qlt_bool x y then y else x) = Qmax x y.
Proof.
  unfold Qmax, GenericMinMax.gmax.
  destruct (Qlt_bool x y) eqn:H, (x ?= y)%Q eqn:Hc; try done.
  - apply Qlt_bool_iff in H. apply Qeq_alt in Hc. rewrite Hc in H. by apply Qlt_irrefl in H.
  - apply Qlt_bool_iff in H. apply Qgt_alt in Hc. exfalso.
    apply (Qlt_not_le _ _ H). by apply Qlt_le_weak.
  - apply Qlt_alt, Qlt_bool_iff in Hc. congruence.
Qed.

Lemma confidence_param_given (c : Q) : ¬ (c == 0)%Q → confidence_param (Some c) = c.
Proof.
  intros Hc. unfold confidence_param.
  destruct (Qeq_bool c 0) eqn:H; [| done]. by apply Qeq_bool_iff in H.
Qed.

Lemma filter_hit_cons type label (m : node) (l : list node) :
  filter (fun n => has_exact_label type label n = true) (m :: l) =
  if has_exact_label type label m
  then m :: filter (fun n => has_exact_label type label n = true) l
  else filter (fun n => has_exact_label type label n = true) l.
Proof.
  rewrite filter_cons. destruct (has_exact_label type label m); by case_decide.
Qed.

Lemma replace_hits_cons type label n' (m : node) (l : list node) :
  replace_hits type label n' (m :: l) =
  (if has_exact_label type label m then n' else m) :: replace_hits type label n' l.
Proof. reflexivity. Qed.

Lemma replace_hits_none type label n' (l : list node) :
  filter (fun n => has_exact_label type label n = true) l = [] →
  replace_hits type label n' l = l.
Proof.
  induction l as [| m l IH]; [done |].
  rewrite filter_hit_cons, replace_hits_cons.
  destruct (has_exact_label type label m); [done |].
  intros Hf. f_equal. by apply IH.
Qed.

Lemma replace_hits_stored type label n n' (l : list node) :
  filter (fun n => has_exact_label type label n = true) l = [n] →
  has_exact_label type label n' = true →
  filter (fun n => has_exact_label type label n = true) (replace_hits type label n' l) = [n'].
Proof.
  intros Hf Hn'. induction l as [| m l IH] in Hf |- *; [done |].
  rewrite filter_hit_cons in Hf. rewrite replace_hits_cons, filter_hit_cons.
  destruct (has_exact_label type label m) eqn:Hm.
  - injection Hf as _ Hf. rewrite Hn'.
    rewrite replace_hits_none by done. by rewrite Hf.
  - rewrite Hm. by apply IH.
Qed.

Lemma length_replace_hits type label n' l :
  length (replace_hits type label n' l) = length l.
Proof. unfold replace_hits. by rewrite length_map. Qed.

Lemma only_hit type label (l : list node) n m :
  filter (fun n => has_exact_label type label n = true) l = [n] →
  m ∈ l → has_exact_label type label m = true → m = n.
Proof.
  intros Hf Hm Hhit.
  assert (m ∈ filter (fun n => has_exact_label type label n = true) l) as Hin
    by (apply list_elem_of_filter; done).
  rewrite Hf in Hin. by apply list_elem_of_singleton in Hin.
Qed.

Lemma mapM_hits now e (l : list node) n n' :
  (∀ m, m ∈ l → has_exact_label (in_type e) (in_label e) m = true → m = n) →
  on_match now e n = Some n' →
  mapM (fun m => if has_exact_label (in_type e) (in_label e) m
                 then on_match now e m else Some m) l
  = Some (replace_hits (in_type e) (in_label e) n' l).
Proof.
  intros Honly Hn. induction l as [| m l IH]; [done |].
  cbn. rewrite IH by (intros; apply Honly; [by right | done]).
  destruct (has_exact_label (in_type e) (in_label e) m) eqn:Hm.
  - rewrite (Honly m) by (done || left). by rewrite Hn.
  - done.
Qed.

(** What a hit of the node pattern says of the type and of the node. *)
Lemma hit_name type label n :
  has_exact_label type label n = true → symbolic_name type = true.
Proof. unfold has_exact_label. by intros [H _]%andb_true_iff. Qed.

Lemma hit_type type label n :
  has_exact_label type label n = true → node_label n = type.
Proof.
  unfold has_exact_label. intros [_ [H _]%andb_true_iff]%andb_true_iff.
  by apply String.eqb_eq.
Qed.

Lemma stored_name g type label n l :
  stored g type label = n :: l → symbolic_name type = true.
Proof.
  intros Hst. apply (hit_name type label n).
  assert (n ∈ stored g type label) as Hin by (rewrite Hst; left).
  by apply list_elem_of_filter in Hin as [Hhit _].
Qed.

(** A type that is no name: every query that splices it fails. *)
Lemma find_no_name g label type :
  symbolic_name type = false → findEntityByLabelAndType g label type = None.
Proof. unfold findEntityByLabelAndType. by intros ->. Qed.

Lemma find_name g label type s :
  findEntityByLabelAndType g label type = Some s → symbolic_name type = true.
Proof. unfold findEntityByLabelAndType. by destruct (symbolic_name type). Qed.

Lemma find_rows g label type :
  symbolic_name type = true →
  findEntityByLabelAndType g label type
  = match find_node label type (nodes g) with
    | Some n =>
        Some {| se_id := node_id n;
                se_label := node_props n !! "label";
                se_type := type;
                se_properties := node_props n;
                se_confidence := or_default (node_props n !! "confidence") (VNum 1);
                se_aliases := or_default (node_props n !! "aliases") (VList []) |}
    | None => None
    end.
Proof. unfold findEntityByLabelAndType. by intros ->. Qed.

Lemma findRelationship_rows g a b type :
  symbolic_name type = true →
  findRelationship g a b type
  = match filter (fun r => links a b type r = true) (edges g) with
    | r :: _ => Some (relationship_of type r)
    | [] => None
    end.
Proof. unfold findRelationship. by intros ->. Qed.

Lemma create_edges_rows now g sl tl st tt rt props :
  symbolic_name st = true → symbolic_name tt = true → symbolic_name rt = true →
  create_edges now g sl tl st tt rt props
  = Some (imap (fun i ab => new_edge now rt props (next_edge g + i) ab)
               (endpoint_rows g sl tl st tt)).
Proof. unfold create_edges. by intros -> -> ->. Qed.

Lemma create_edges_no_name now g sl tl st tt rt props :
  symbolic_name rt = false → create_edges now g sl tl st tt rt props = None.
Proof. unfold create_edges. intros ->. by rewrite andb_false_r. Qed.

(** The edges a call writes once both endpoints are resolved and no edge
    joins them: those of the creating query, none when it fails. *)
Lemma createRelationship_created now g sl tl st tt rt props s t :
  findEntityByLabelAndType g sl st = Some s →
  findEntityByLabelAndType g tl tt = Some t →
  findRelationship g (se_id s) (se_id t) rt = None →
  createRelationshipWithValidation now g sl tl st tt rt props
  = ({| nodes := nodes g; edges := edges g ++ created_edges now g sl tl st tt rt props;
        next_node := next_node g;
        next_edge := next_edge g + length (created_edges now g sl tl st tt rt props) |},
     match created_edges now g sl tl st tt rt props with
     | r :: _ => Some (relationship_of rt r)
     | [] => None
     end).
Proof.
  intros Hs Ht Hr. unfold createRelationshipWithValidation, created_edges.
  rewrite Hs, Ht, Hr.
  destruct (create_edges now g sl tl st tt rt props) as [created |]; [done |].
  cbn. by rewrite app_nil_r, Nat.add_0_r, graph_eta.
Qed.

Lemma created_edges_rows now g sl tl st tt rt props s t :
  findEntityByLabelAndType g sl st = Some s →
  findEntityByLabelAndType g tl tt = Some t →
  created_edges now g sl tl st tt rt props
  = if symbolic_name rt
    then imap (fun i ab => new_edge now rt props (next_edge g + i) ab)
              (endpoint_rows g sl tl st tt)
    else [].
Proof.
  intros Hs%find_name Ht%find_name. unfold created_edges, create_edges.
  rewrite Hs, Ht. by destruct (symbolic_name rt).
Qed.

(** First write of a key: [MERGE] creates the node. *)
Lemma merge_fresh now g e :
  symbolic_name (in_type e) = true →
  stored g (in_type e) (in_label e) = [] →
  createEntityWithMerge now g e =
  Some ({| nodes := nodes g ++ [on_create now e (next_node g)]; edges := edges g;
           next_node := S (next_node g); next_edge := next_edge g |},
        entity_of (in_type e) (on_create now e (next_node g))).
Proof.
  unfold stored, createEntityWithMerge, merge_query. by intros -> ->.
Qed.

(** An upsert under a type that is no name throws. *)
Lemma merge_no_name now g e :
  symbolic_name (in_type e) = false → createEntityWithMerge now g e = None.
Proof. unfold createEntityWithMerge, merge_query. by intros ->. Qed.

Lemma merge_name now g e g' r :
  createEntityWithMerge now g e = Some (g', r) → symbolic_name (in_type e) = true.
Proof.
  destruct (symbolic_name (in_type e)) eqn:Hn; [done |].
  by rewrite merge_no_name.
Qed.

(** Later write of a key held by one node: [MERGE] updates it in place. *)
Lemma merge_existing now g e n n' :
  stored g (in_type e) (in_label e) = [n] →
  on_match now e n = Some n' →
  createEntityWithMerge now g e =
  Some ({| nodes := replace_hits (in_type e) (in_label e) n' (nodes g); edges := edges g;
           next_node := next_node g; next_edge := next_edge g |},
        entity_of (in_type e) n').
Proof.
  intros Hf Hn. pose proof (stored_name _ _ _ _ _ Hf) as Hname. revert Hf.
  unfold stored, createEntityWithMerge, merge_query. intros Hf. rewrite Hname, Hf.
  rewrite (mapM_hits now e (nodes g) n n'); [| | done].
  - cbn. by rewrite Hn.
  - intros m Hm Hhit. by eapply only_hit.
Qed.

Lemma on_create_props now e id :
  reserved_free (in_properties e) →
  node_props (on_create now e id) !! "label" = Some (VStr (in_label e)) ∧
  node_props (on_create now e id) !! "confidence"
    = Some (VNum (confidence_param (in_confidence e))) ∧
  node_props (on_create now e id) !! "aliases" = Some (VList (default [] (in_aliases e))).
Proof.
  intros (Hl & Hc & Ha). unfold on_create; cbn [node_props].
  rewrite !lookup_union_r by done. by simplify_map_eq.
Qed.

Lemma on_create_hit now e id :
  symbolic_name (in_type e) = true →
  in_properties e !! "label" = None →
  has_exact_label (in_type e) (in_label e) (on_create now e id) = true.
Proof.
  intros Hname Hl. unfold has_exact_label, on_create; cbn [node_props node_label].
  rewrite Hname, lookup_union_r by done. simplify_map_eq.
  by rewrite !String.eqb_refl.
Qed.

Lemma set_prop_other k k' v (m : gmap string value) :
  k ≠ k' → set_prop k v m !! k' = m !! k'.
Proof.
  intros Hk. unfold set_prop. destruct v.
  - by rewrite lookup_insert_ne.
  - by rewrite lookup_delete_ne.
Qed.

Lemma on_match_props now e n old :
  node_props n !! "aliases" = Some (VList old) →
  ∃ n', on_match now e n = Some n' ∧
    node_id n' = node_id n ∧ node_label n' = node_label n ∧
    node_props n' =
      in_properties e ∪
      <["updated_at" := VTime now]>
        (<["aliases" := VList (old ++ default [] (in_aliases e))]>
           (set_prop "confidence"
              (if exceeds (confidence_param (in_confidence e)) (node_props n !! "confidence")
               then Some (VNum (confidence_param (in_confidence e)))
               else node_props n !! "confidence") (node_props n))).
Proof.
  intros Ha. unfold on_match. rewrite Ha. cbn. eauto.
Qed.

Lemma on_match_hit now e n n' :
  in_properties e !! "label" = None →
  has_exact_label (in_type e) (in_label e) n = true →
  on_match now e n = Some n' →
  has_exact_label (in_type e) (in_label e) n' = true.
Proof.
  intros Hl Hn Hm. unfold on_match in Hm.
  destruct (plus_aliases _ _) as [a |]; [| done]. cbn in Hm. injection Hm as <-.
  unfold has_exact_label in *; cbn [node_props node_label].
  apply andb_true_iff in Hn as [Hname [Ht Hn]%andb_true_iff]. rewrite Hname, Ht. cbn.
  rewrite lookup_union_r by done.
  rewrite !lookup_insert_ne by done. by rewrite set_prop_other.
Qed.

Lemma has_exact_label_prop type label n :
  has_exact_label type label n = true → node_props n !! "label" = Some (VStr label).
Proof.
  unfold has_exact_label. intros [_ [_ H]%andb_true_iff]%andb_true_iff.
  destruct (node_props n !! "label") as [[] |]; try done.
  by apply String.eqb_eq in H as ->.
Qed.

Lemma createEntity_edges now g e g' r :
  createEntityWithMerge now g e = Some (g', r) → edges g' = edges g.
Proof.
  unfold createEntityWithMerge.
  destruct (merge_query now g e) as [[g1 rows] |] eqn:Hq; [| done].
  cbn. destruct rows as [| n rows]; [done |]. intros [= <- _].
  unfold merge_query in Hq. destruct (symbolic_name (in_type e)); [| done].
  destruct (filter _ (nodes g)) as [| h hs]; [by injection Hq as <- _ |].
  destruct (mapM _ (nodes g)) as [ns |]; [| done].
  destruct (mapM (on_match now e) (h :: hs)) as [rs |]; [| done].
  by injection Hq as <- _.
Qed.

End StoreFacts.

Section Reconciliation.
Import EnhancedNeo4jService.

(** The second of two upserts of a key, on the one node that holds it. *)
Lemma upsert_again now g e c n x old :
  stored g (in_type e) (in_label e) = [n] →
  node_props n !! "confidence" = Some (VNum x) →
  node_props n !! "aliases" = Some (VList old) →
  in_properties e !! "label" = None → in_properties e !! "confidence" = None →
  in_confidence e = Some c → ¬ (c == 0)%Q →
  ∃ g' r n',
    createEntityWithMerge now g e = Some (g', r) ∧
    stored g' (in_type e) (in_label e) = [n'] ∧
    length (nodes g') = length (nodes g) ∧
    se_id r = node_id n ∧
    se_confidence r = node_props n' !! "confidence" ∧
    node_props n' !! "confidence" = Some (VNum (Qmax x c)).
Proof.
  intros Hst Hx Ha Hl Hk Hc Hnz.
  destruct (on_match_props now e n _ Ha) as (n' & Hm & Hid & Hnl & Hprops).
  assert (has_exact_label (in_type e) (in_label e) n = true) as Hhit.
  { assert (n ∈ stored g (in_type e) (in_label e)) as Hin by (rewrite Hst; left).
    by apply list_elem_of_filter in Hin as [Hhit _]. }
  exists {| nodes := replace_hits (in_type e) (in_label e) n' (nodes g); edges := edges g;
            next_node := next_node g; next_edge := next_edge g |},
    (entity_of (in_type e) n'), n'.
  split; [by apply (merge_existing now g e n) |].
  split.
  { unfold stored; cbn [nodes]. apply (replace_hits_stored _ _ n); [exact Hst |].
    by eapply on_match_hit. }
  split; [cbn [nodes]; apply length_replace_hits |].
  split; [cbn; by rewrite Hid |].
  split; [done |].
  rewrite Hprops, lookup_union_r by done. rewrite !lookup_insert_ne by done.
  rewrite Hx, Hc, (confidence_param_given c Hnz). cbn [exceeds].
  rewrite <- Qmax_select.
  destruct (Qlt_bool x c); cbn [set_prop]; by rewrite lookup_insert_eq.
Qed.

(** The first of two upserts of a key: it creates the node, or updates the
    one node that holds the key; either way one node holds the key
    afterwards, with a numeric confidence and a list of aliases. *)
Lemma upsert_first now g e :
  symbolic_name (in_type e) = true →
  held_at_most_once g (in_type e) (in_label e) →
  reserved_free (in_properties e) →
  ∃ g' r n x old,
    createEntityWithMerge now g e = Some (g', r) ∧
    stored g' (in_type e) (in_label e) = [n] ∧
    length (nodes g') = length (nodes g) + (1 - length (stored g (in_type e) (in_label e))) ∧
    se_id r = node_id n ∧
    se_confidence r = Some (VNum x) ∧
    node_props n !! "confidence" = Some (VNum x) ∧
    node_props n !! "aliases" = Some (VList old) ∧
    (stored g (in_type e) (in_label e) = [] → x = confidence_param (in_confidence e)) ∧
    (∀ n0 q, stored g (in_type e) (in_label e) = [n0] →
             node_props n0 !! "confidence" = Some (VNum q) →
             x = Qmax q (confidence_param (in_confidence e))).
Proof.
  intros Hname [Hfresh | (n0 & q & old & Hst & Hq & Ha)] Hfree.
  - pose proof (on_create_props now e (next_node g) Hfree) as (Hl1 & Hc1 & Ha1).
    set (n1 := on_create now e (next_node g)) in *.
    exists {| nodes := nodes g ++ [n1]; edges := edges g;
              next_node := S (next_node g); next_edge := next_edge g |},
      (entity_of (in_type e) n1), n1, (confidence_param (in_confidence e)),
      (default [] (in_aliases e)).
    split; [by apply merge_fresh |].
    split.
    { unfold stored; cbn [nodes]. rewrite filter_app.
      unfold stored in Hfresh. rewrite Hfresh. cbn [app].
      rewrite filter_hit_cons, filter_nil.
      unfold n1. by rewrite on_create_hit by (done || apply Hfree). }
    split; [cbn [nodes]; rewrite Hfresh, length_app; cbn; lia |].
    split; [done |]. split; [exact Hc1 |]. split; [exact Hc1 |]. split; [exact Ha1 |].
    split; [done |]. intros n0 q Hst. by rewrite Hfresh in Hst.
  - destruct Hfree as (Hl & Hk & Hal).
    destruct (on_match_props now e n0 _ Ha) as (n1 & Hm & Hid & Hnl & Hprops).
    assert (has_exact_label (in_type e) (in_label e) n0 = true) as Hhit.
    { assert (n0 ∈ stored g (in_type e) (in_label e)) as Hin by (rewrite Hst; left).
      by apply list_elem_of_filter in Hin as [Hhit _]. }
    assert (node_props n1 !! "confidence"
            = Some (VNum (Qmax q (confidence_param (in_confidence e))))) as Hconf.
    { rewrite Hprops, lookup_union_r by done. rewrite !lookup_insert_ne by done.
      rewrite Hq. cbn [exceeds]. rewrite <- Qmax_select.
      destruct (Qlt_bool q _); cbn [set_prop]; by rewrite lookup_insert_eq. }
    exists {| nodes := replace_hits (in_type e) (in_label e) n1 (nodes g); edges := edges g;
              next_node := next_node g; next_edge := next_edge g |},
      (entity_of (in_type e) n1), n1, (Qmax q (confidence_param (in_confidence e))),
      (old ++ default [] (in_aliases e)).
    split; [by apply (merge_existing now g e n0) |].
    split.
    { unfold stored; cbn [nodes]. apply (replace_hits_stored _ _ n0); [exact Hst |].
      by eapply on_match_hit. }
    split; [cbn [nodes]; rewrite Hst, length_replace_hits; cbn; lia |].
    split; [done |]. split; [exact Hconf |]. split; [exact Hconf |].
    split.
    { rewrite Hprops, lookup_union_r by done.
      rewrite lookup_insert_ne by done. by rewrite lookup_insert_eq. }
    split; [intros Hnil; by rewrite Hnil in Hst |].
    intros n0' q' Hst'. rewrite Hst in Hst'. injection Hst' as <-.
    rewrite Hq. by intros [= ->].
Qed.

(** C1, as the claim states it, fails in seven ways.  (a) An incoming
    confidence of 0 is replaced by the default 0.8 before the comparison:
    stored 0.5, incoming 0, stored afterwards 0.8.  (b) The incoming
    property bag is merged into the node after the confidence is set, so a
    bag holding the key [confidence] overwrites it: stored 0.5, incoming
    0.9, stored afterwards 0.1.  (c) A bag holding the key [label] renames
    the node, so the second upsert of the same (label, type) finds nothing
    and two nodes are stored.  (d) A bag holding a number under the key
    [aliases] leaves a node whose alias property is no list; the next
    upsert, which appends its aliases to it, fails as a query and the
    method throws: the higher incoming confidence is not stored.  (e) The
    type is spliced into the query as the node label; under a type that is
    no name (ROCK BAND) the query fails, the method throws and nothing is
    stored.  (f) Once two nodes hold a key, as after (c), [MERGE] updates
    both: two upserts of that key leave two nodes under it.  (g) On a node
    whose stored confidence is no number the comparison of [ON MATCH] is
    never true: neither of two upserts of its key changes it. *)
Lemma upsert_confidence_counterexample :
  stored_property "confidence"
    (upserts empty_graph [ candidate "Apple" "COMPANY" (Some 0.5%Q) None ∅;
                           candidate "Apple" "COMPANY" (Some 0%Q) None ∅ ])
    = [Some (VNum 0.8)] ∧
  stored_property "confidence"
    (upserts empty_graph [ candidate "Apple" "COMPANY" (Some 0.5%Q) None ∅;
                           candidate "Apple" "COMPANY" (Some 0.9%Q) None
                             {["confidence" := VNum 0.1]} ])
    = [Some (VNum 0.1)] ∧
  length (nodes
    (upserts empty_graph [ candidate "Apple" "COMPANY" (Some 0.5%Q) None
                             {["label" := VStr "Apple Inc"]};
                           candidate "Apple" "COMPANY" (Some 0.5%Q) None
                             {["label" := VStr "Apple Inc"]} ])) = 2 ∧
  createEntityWithMerge 1
    (upserts empty_graph [ candidate "Apple" "COMPANY" (Some 0.5%Q) None
                             {["aliases" := VNum 5]} ])
    (candidate "Apple" "COMPANY" (Some 0.9%Q) (Some ["AAPL"]) ∅) = None ∧
  createEntityWithMerge 0 empty_graph
    (candidate "Queen" "ROCK BAND" (Some 0.9%Q) None ∅) = None ∧
  nodes (upserts empty_graph [ candidate "Queen" "ROCK BAND" (Some 0.9%Q) None ∅;
                               candidate "Queen" "ROCK BAND" (Some 0.9%Q) None ∅ ])
    = [] ∧
  length (stored
    (upserts empty_graph [ candidate "Apple" "COMPANY" (Some 0.5%Q) None
                             {["label" := VStr "Apple Inc"]};
                           candidate "Apple" "COMPANY" (Some 0.5%Q) None
                             {["label" := VStr "Apple Inc"]};
                           candidate "Apple Inc" "COMPANY" (Some 0.5%Q) None ∅;
                           candidate "Apple Inc" "COMPANY" (Some 0.5%Q) None ∅ ])
    "COMPANY" "Apple Inc") = 2 ∧
  stored_property "confidence"
    (upserts empty_graph [ candidate "Apple" "COMPANY" (Some 0.5%Q) None
                             {["confidence" := VStr "high"]};
                           candidate "Apple" "COMPANY" (Some 0.6%Q) None ∅;
                           candidate "Apple" "COMPANY" (Some 0.9%Q) None ∅ ])
    = [Some (VStr "high")].
Proof. split_and!; vm_compute; reflexivity. Qed.

(** C1 (amended): when the type is a name, at most one node is stored
    under (type, label), with a numeric confidence and a list of aliases
    as upserts write them, neither property bag holds the key [label] or
    [confidence], the first one does not hold [aliases] either, and the
    second upsert gives a non-zero confidence [c2], then both upserts
    succeed and exactly one node is stored under (type, label) afterwards:
    the store has grown by one node when none held the key, and not at all
    otherwise; the second upsert returns the node of the first, and its
    stored confidence is the maximum of the confidence [x] stored by the
    first upsert and [c2]: unchanged when [c2] is equal or lower, [c2]
    when it is strictly higher.  The first upsert stores its own
    confidence on a new node, and the maximum of the old and its own on a
    node that held the key.  (A confidence that is absent counts as
    0.8.) *)
Theorem upsert_twice now1 now2 g e1 e2 c2 :
  symbolic_name (in_type e1) = true →
  in_label e2 = in_label e1 → in_type e2 = in_type e1 →
  held_at_most_once g (in_type e1) (in_label e1) →
  reserved_free (in_properties e1) →
  in_properties e2 !! "label" = None → in_properties e2 !! "confidence" = None →
  in_confidence e2 = Some c2 → ¬ (c2 == 0)%Q →
  ∃ g1 r1 g2 r2 n x,
    createEntityWithMerge now1 g e1 = Some (g1, r1) ∧
    createEntityWithMerge now2 g1 e2 = Some (g2, r2) ∧
    stored g2 (in_type e1) (in_label e1) = [n] ∧
    length (nodes g2)
      = length (nodes g) + (1 - length (stored g (in_type e1) (in_label e1))) ∧
    se_id r2 = se_id r1 ∧
    se_confidence r2 = node_props n !! "confidence" ∧
    se_confidence r1 = Some (VNum x) ∧
    (stored g (in_type e1) (in_label e1) = [] → x = confidence_param (in_confidence e1)) ∧
    (∀ n0 q, stored g (in_type e1) (in_label e1) = [n0] →
             node_props n0 !! "confidence" = Some (VNum q) →
             x = Qmax q (confidence_param (in_confidence e1))) ∧
    node_props n !! "confidence" = Some (VNum (Qmax x c2)) ∧
    ((c2 <= x)%Q → node_props n !! "confidence" = Some (VNum x)) ∧
    ((x < c2)%Q → node_props n !! "confidence" = Some (VNum c2)).
Proof.
  intros Hname Hlab Hty Hheld Hfree1 Hl2 Hk Hc2 Hnz.
  destruct (upsert_first now1 g e1 Hname Hheld Hfree1)
    as (g1 & r1 & n1 & x & old & Hrun1 & Hst1 & Hlen1 & Hid1 & Hr1 & Hx & Ha & Hnew & Hold).
  rewrite <- Hlab, <- Hty in Hst1.
  destruct (upsert_again now2 g1 e2 c2 n1 x old Hst1 Hx Ha Hl2 Hk Hc2 Hnz)
    as (g2 & r2 & n2 & Hrun2 & Hst2 & Hlen2 & Hid2 & Hr2 & Hconf).
  rewrite Hlab, Hty in Hst2.
  exists g1, r1, g2, r2, n2, x.
  split; [exact Hrun1 |]. split; [exact Hrun2 |]. split; [exact Hst2 |].
  split; [by rewrite Hlen2 |]. split; [by rewrite Hid2, Hid1 |].
  split; [exact Hr2 |]. split; [exact Hr1 |]. split; [exact Hnew |].
  split; [exact Hold |]. split; [exact Hconf |].
  rewrite Hconf. split; intros Hcmp; do 2 f_equal.
  - rewrite <- Qmax_select. destruct (Qlt_bool x c2) eqn:Hlt; [| done].
    apply Qlt_bool_iff in Hlt. by apply Qlt_not_le in Hlt.
  - rewrite <- Qmax_select. by apply Qlt_bool_iff in Hcmp as ->.
Qed.

Lemma upsert_twice_witness :
  symbolic_name "COMPANY" = true ∧
  held_at_most_once empty_graph "COMPANY" "Apple" ∧
  reserved_free (∅ : gmap string value) ∧
  ∃ g2 n, stored g2 "COMPANY" "Apple" = [n] ∧ length (nodes g2) = 1 ∧
          node_props n !! "confidence" = Some (VNum 0.9).
Proof.
  split; [reflexivity |]. split; [by left |]. split; [done |].
  destruct (upsert_twice 0 1 empty_graph
              (candidate "Apple" "COMPANY" (Some 0.5%Q) None ∅)
              (candidate "Apple" "COMPANY" (Some 0.9%Q) None ∅) 0.9%Q
              eq_refl eq_refl eq_refl (or_introl eq_refl))
    as (g1 & r1 & g2 & r2 & n & x & _ & _ & Hst & Hlen & _ & _ & _ & Hnew & _ & _ & _ & Hup);
    try done.
  exists g2, n. split; [exact Hst |]. split; [exact Hlen |].
  apply Hup. rewrite (Hnew eq_refl). reflexivity.
Defined.

(** C7, as the claim states it, fails: the incoming property bag is merged
    into the node after the alias list is set, so a bag that itself holds
    the key [aliases] replaces the concatenated list.  Stored aliases
    [AAPL], incoming aliases [Apple Inc], incoming properties
    [{aliases: [x]}]: stored afterwards [x]. *)
Lemma merge_aliases_counterexample :
  stored_property "aliases"
    (upserts empty_graph
       [ candidate "Apple" "COMPANY" (Some 0.9%Q) (Some ["AAPL"]) ∅;
         candidate "Apple" "COMPANY" (Some 0.9%Q) (Some ["Apple Inc"])
           {["aliases" := VList ["x"]]} ])
    = [Some (VList ["x"])].
Proof. vm_compute. reflexivity. Qed.

(** C7 (amended): on the upsert of a key held by one node whose alias list
    is [old], with an incoming property bag that does not itself hold the
    key [aliases], the stored alias list becomes [old] followed by the
    incoming aliases, which as a set is the union of the two; every
    incoming property is stored with its incoming value, and every other
    property keeps its value, apart from the three the upsert sets itself
    ([confidence], [aliases], [updated_at]).  The returned entity shows the
    updated node. *)
Theorem merge_conflict now g e n old :
  stored g (in_type e) (in_label e) = [n] →
  node_props n !! "aliases" = Some (VList old) →
  in_properties e !! "aliases" = None →
  ∃ g' r n',
    createEntityWithMerge now g e = Some (g', r) ∧
    nodes g' = replace_hits (in_type e) (in_label e) n' (nodes g) ∧
    node_id n' = node_id n ∧
    se_id r = node_id n ∧ se_properties r = node_props n' ∧
    se_aliases r = node_props n' !! "aliases" ∧
    node_props n' !! "aliases" = Some (VList (old ++ default [] (in_aliases e))) ∧
    (list_to_set (old ++ default [] (in_aliases e)) : gset string)
      = list_to_set old ∪ list_to_set (default [] (in_aliases e)) ∧
    (∀ k v, in_properties e !! k = Some v → node_props n' !! k = Some v) ∧
    (∀ k, in_properties e !! k = None →
          k ∉ ["confidence"; "aliases"; "updated_at"] →
          node_props n' !! k = node_props n !! k).
Proof.
  intros Hst Hold Hfree.
  destruct (on_match_props now e n old Hold) as (n' & Hm & Hid & Hnl & Hprops).
  eexists _, _, n'. split; [by apply (merge_existing now g e n) |].
  cbn [nodes se_id se_properties se_aliases entity_of].
  repeat split; try done.
  - rewrite Hprops, lookup_union_r by done. by simplify_map_eq.
  - apply list_to_set_app_L.
  - intros k v Hk. rewrite Hprops. by apply lookup_union_Some_l.
  - intros k Hk Hnot. rewrite Hprops, lookup_union_r by done.
    rewrite !not_elem_of_cons in Hnot. destruct Hnot as (H1 & H2 & H3 & _).
    rewrite !lookup_insert_ne by done. by rewrite set_prop_other.
Qed.

Lemma merge_conflict_witness :
  stored_property "aliases"
    (upserts empty_graph [candidate "Apple" "COMPANY" (Some 0.9%Q) (Some ["AAPL"]) ∅])
    = [Some (VList ["AAPL"])] ∧
  ∃ g' r, createEntityWithMerge 1
            (upserts empty_graph
               [candidate "Apple" "COMPANY" (Some 0.9%Q) (Some ["AAPL"]) ∅])
            (candidate "Apple" "COMPANY" (Some 0.5%Q) (Some ["Apple Inc"])
               {["founded" := VNum 1976]})
          = Some (g', r) ∧
          se_aliases r = Some (VList ["AAPL"; "Apple Inc"]) ∧
          se_properties r !! "founded" = Some (VNum 1976).
Proof.
  split; [vm_compute; reflexivity |].
  set (g := upserts empty_graph
              [candidate "Apple" "COMPANY" (Some 0.9%Q) (Some ["AAPL"]) ∅]).
  set (e := candidate "Apple" "COMPANY" (Some 0.5%Q) (Some ["Apple Inc"])
              {["founded" := VNum 1976]}).
  destruct (stored g "COMPANY" "Apple") as [| n [| n2 l]] eqn:Hst;
    [vm_compute in Hst; discriminate Hst | | vm_compute in Hst; discriminate Hst].
  assert (node_props n !! "aliases" = Some (VList ["AAPL"])) as Hold.
  { vm_compute in Hst. injection Hst as <-. vm_compute. reflexivity. }
  destruct (merge_conflict 1 g e n ["AAPL"] Hst Hold eq_refl)
    as (g' & r & n' & Hrun & _ & _ & _ & Hp & Ha & Hal & _ & Hin & _).
  exists g', r. split; [exact Hrun |]. split.
  - rewrite Ha. exact Hal.
  - rewrite Hp. apply Hin. reflexivity.
Defined.

(** C3: when the source or the target cannot be resolved by (label, type),
    [createRelationshipWithValidation] returns [null] (it does not throw)
    and leaves the graph as it was: no edge is created. *)
Theorem unresolved_endpoint_is_skipped now g sourceLabel targetLabel sourceType targetType
    relationshipType properties :
  findEntityByLabelAndType g sourceLabel sourceType = None ∨
  findEntityByLabelAndType g targetLabel targetType = None →
  createRelationshipWithValidation now g sourceLabel targetLabel sourceType targetType
    relationshipType properties = (g, None).
Proof.
  unfold createRelationshipWithValidation.
  intros [-> | ->]; [done |].
  by destruct (findEntityByLabelAndType g sourceLabel sourceType).
Qed.

Lemma unresolved_endpoint_is_skipped_witness :
  findEntityByLabelAndType company_and_founder "Tesla" "COMPANY" = None ∧
  createRelationshipWithValidation 7 company_and_founder
    "Steve Jobs" "Tesla" "PERSON" "COMPANY" "OWNS" ∅
  = (company_and_founder, None).
Proof.
  split; [vm_compute; reflexivity |].
  apply unresolved_endpoint_is_skipped. right. vm_compute. reflexivity.
Defined.

Lemma endpoint_rows_nil_l g sl tl st tt :
  stored g st sl = [] → endpoint_rows g sl tl st tt = [].
Proof. unfold stored, endpoint_rows. by intros ->. Qed.

Lemma endpoint_rows_nil_r g sl tl st tt :
  stored g tt tl = [] → endpoint_rows g sl tl st tt = [].
Proof.
  unfold stored, endpoint_rows. intros ->.
  induction (filter _ (nodes g)) as [| a l IH]; [done |]. cbn. exact IH.
Qed.

(** C10, as the claim states it, fails: a call whose source is found only
    through a differently-cased label does not return [null] when an edge
    of the requested type already joins the resolved endpoints; it returns
    that edge.  Store: (COMPANY, "apple"), (PERSON, "Steve Jobs") and an
    edge apple -FOUNDED_BY-> Steve Jobs; call with source label "Apple". *)
Lemma mismatch_returns_existing_edge :
  stored (founded_by 2 company_and_founder "apple").1 "COMPANY" "Apple" = [] ∧
  se_id <$> findEntityByLabelAndType
              (founded_by 2 company_and_founder "apple").1 "Apple" "COMPANY" = Some 0 ∧
  (founded_by 3 (founded_by 2 company_and_founder "apple").1 "Apple").1
    = (founded_by 2 company_and_founder "apple").1 ∧
  sr_id <$> (founded_by 3 (founded_by 2 company_and_founder "apple").1 "Apple").2
    = Some 0.
Proof. split_and!; vm_compute; reflexivity. Qed.

(** C10 (amended): endpoints are resolved case-insensitively and through
    aliases, but the edge-creating query matches the exact label.  When
    both endpoints resolve and one of them has no node carrying exactly
    the given label, the call creates no edge and leaves the graph as it
    was; it returns [null], unless an edge of the requested type already
    joins the resolved endpoints, in which case it returns that edge. *)
Theorem mismatched_endpoint_creates_nothing now g sourceLabel targetLabel
    sourceType targetType relationshipType properties s t :
  findEntityByLabelAndType g sourceLabel sourceType = Some s →
  findEntityByLabelAndType g targetLabel targetType = Some t →
  stored g sourceType sourceLabel = [] ∨ stored g targetType targetLabel = [] →
  createRelationshipWithValidation now g sourceLabel targetLabel sourceType targetType
    relationshipType properties
  = (g, findRelationship g (se_id s) (se_id t) relationshipType).
Proof.
  intros Hs Ht Hno. unfold createRelationshipWithValidation. rewrite Hs, Ht.
  destruct (findRelationship g (se_id s) (se_id t) relationshipType) as [r |] eqn:Hr;
    [done |].
  assert (endpoint_rows g sourceLabel targetLabel sourceType targetType = []) as Hrows.
  { destruct Hno; [by apply endpoint_rows_nil_l | by apply endpoint_rows_nil_r]. }
  unfold create_edges. rewrite Hrows.
  destruct (_ && _ && _); [| done].
  cbn. by rewrite app_nil_r, Nat.add_0_r, graph_eta.
Qed.

Lemma mismatched_endpoint_creates_nothing_witness :
  se_id <$> findEntityByLabelAndType aliased_company "Apple" "COMPANY" = Some 0 ∧
  stored aliased_company "COMPANY" "Apple" = [] ∧
  founded_by 5 aliased_company "Apple" = (aliased_company, None).
Proof.
  split; [vm_compute; reflexivity |]. split; [vm_compute; reflexivity |].
  destruct (findEntityByLabelAndType aliased_company "Apple" "COMPANY") as [s |] eqn:Hs;
    [| vm_compute in Hs; discriminate Hs].
  destruct (findEntityByLabelAndType aliased_company "Steve Jobs" "PERSON") as [t |] eqn:Ht;
    [| vm_compute in Ht; discriminate Ht].
  unfold founded_by.
  rewrite (mismatched_endpoint_creates_nothing 5 aliased_company
             "Apple" "Steve Jobs" "COMPANY" "PERSON" "FOUNDED_BY" ∅ s t Hs Ht);
    [| left; vm_compute; reflexivity].
  reflexivity.
Defined.

(** C2 fails on the code.  The existence check looks at the edge between
    the resolved nodes, the creating query writes between the nodes that
    carry the exact labels.  With (COMPANY, "apple") stored before
    (COMPANY, "Apple"), the label "Apple" resolves to the first node while
    the edge is written from the second: each of two identical calls finds
    no edge and writes a new one, and the store ends with two FOUNDED_BY
    edges from node 1 to node 2.  With the two companies stored in the
    other order the same happens for the label "apple". *)
Lemma duplicate_edge_after_two_calls :
  se_id <$> findEntityByLabelAndType case_variants "Apple" "COMPANY" = Some 0 ∧
  sr_id <$> (founded_by 3 case_variants "Apple").2 = Some 0 ∧
  sr_id <$> (founded_by 4 (founded_by 3 case_variants "Apple").1 "Apple").2 = Some 1 ∧
  stored_edges (founded_by 4 (founded_by 3 case_variants "Apple").1 "Apple").1
    = [(1, "FOUNDED_BY", 2); (1, "FOUNDED_BY", 2)] ∧
  stored_edges
    (founded_by 4 (founded_by 3 case_variants_swapped "apple").1 "apple").1
    = [(1, "FOUNDED_BY", 2); (1, "FOUNDED_BY", 2)].
Proof. split_and!; vm_compute; reflexivity. Qed.

(** The part of C2 that the code does keep: when an edge of the
    requested type joins the resolved endpoints, the call returns it and
    changes nothing. *)
Lemma existing_edge_is_returned now g sourceLabel targetLabel sourceType targetType
    relationshipType properties s t r :
  findEntityByLabelAndType g sourceLabel sourceType = Some s →
  findEntityByLabelAndType g targetLabel targetType = Some t →
  findRelationship g (se_id s) (se_id t) relationshipType = Some r →
  createRelationshipWithValidation now g sourceLabel targetLabel sourceType targetType
    relationshipType properties = (g, Some r).
Proof.
  intros Hs Ht Hr. unfold createRelationshipWithValidation. by rewrite Hs, Ht, Hr.
Qed.

End Reconciliation.

(** * The request handler *)

Section RouteFacts.
Import EnhancedNeo4jService ProcessText.


(** An edge written by the creating query: the types are names and the
    edge is built from a row of the two [MATCH] clauses. *)
Lemma created_edges_row now g sl tl st tt rt props r :
  r ∈ created_edges now g sl tl st tt rt props →
  symbolic_name rt = true ∧
  ∃ i ab, r = new_edge now rt props (next_edge g + i) ab ∧
          endpoint_rows g sl tl st tt !! i = Some ab.
Proof.
  unfold created_edges, create_edges.
  destruct (symbolic_name st), (symbolic_name tt), (symbolic_name rt);
    cbn [andb default]; try by intros ?%elem_of_nil.
  intros (i & ab & -> & Hab)%elem_of_lookup_imap. eauto.
Qed.

(** A call leaves the graph as it was, or appends the edges of the creating
    query. *)
Lemma createRelationship_cases now g sl tl st tt rt props :
  (createRelationshipWithValidation now g sl tl st tt rt props).1 = g ∨
  ∃ s t,
    findEntityByLabelAndType g sl st = Some s ∧
    findEntityByLabelAndType g tl tt = Some t ∧
    findRelationship g (se_id s) (se_id t) rt = None ∧
    createRelationshipWithValidation now g sl tl st tt rt props
    = ({| nodes := nodes g; edges := edges g ++ created_edges now g sl tl st tt rt props;
          next_node := next_node g;
          next_edge := next_edge g + length (created_edges now g sl tl st tt rt props) |},
       match created_edges now g sl tl st tt rt props with
       | r :: _ => Some (relationship_of rt r)
       | [] => None
       end).
Proof.
  destruct (findEntityByLabelAndType g sl st) as [s |] eqn:Hs;
    [| left; unfold createRelationshipWithValidation; by rewrite Hs].
  destruct (findEntityByLabelAndType g tl tt) as [t |] eqn:Ht;
    [| left; unfold createRelationshipWithValidation; by rewrite Hs, Ht].
  destruct (findRelationship g (se_id s) (se_id t) rt) as [r |] eqn:Hr;
    [left; unfold createRelationshipWithValidation; by rewrite Hs, Ht, Hr |].
  right. exists s, t. split_and!; try done. by apply (createRelationship_created _ _ _ _ _ _ _ _ s t).
Qed.





Lemma entity_step_edges now st entity :
  edges (entity_step now st entity).1.1 = edges st.1.1.
Proof.
  destruct st as [[g done_] k]. unfold entity_step.
  destruct (createEntityWithMerge _ _ _) as [[g' r] |] eqn:H; [| done].
  cbn. by eapply createEntity_edges.
Qed.


End RouteFacts.


(** C6 fails on the code.  The response's tag is computed from the number
    of extracted entities, not from the strategy that produced them.  With
    no key configured the rule-based fallback is used and finds entities in
    the sample text, yet the tag is "gemini"; with a key configured and a
    model reply that keeps one relationship but no entity, the model-backed
    result is used, yet the tag is "local". *)
Lemma tag_ignores_strategy :
  (ProcessText.nlpProcessor false unavailable apple_text).1 = HybridNLPProcessor.Local ∧
  ProcessText.tag
    (ProcessText.POST false unavailable ticks EnhancedNeo4jService.empty_graph
       apple_text true).2 = Some "gemini" ∧
  (ProcessText.nlpProcessor true (fun _ => Some generic_reply) apple_text).1
    = HybridNLPProcessor.External ∧
  ProcessText.tag
    (ProcessText.POST true (fun _ => Some generic_reply) ticks
       EnhancedNeo4jService.empty_graph apple_text true).2 = Some "local".
Proof. split_and!; vm_compute; reflexivity. Qed.

(** C9 fails on the code, for the rule-based strategy, which is the one
    that runs when no key is configured or the model is unavailable.  On
    the sample text, for which the prompt of the model-backed strategy
    spells out the result the claim states, the rule-based strategy also
    extracts the single words Steve, Jobs, Elon and Musk, lower-cases the
    second word of the two-word names, has no rule for FOUNDED_BY, and
    captures one word on each side of its OWNS rule. *)
Lemma apple_example_counterexample :
  JS.arr_includes
    (map ent_label (entities (LocalNLPProcessor.extractEntitiesAndRelationships apple_text)))
    "Steve" = true ∧
  JS.arr_includes
    (map ent_label (entities (LocalNLPProcessor.extractEntitiesAndRelationships apple_text)))
    "Steve Jobs" = false ∧
  has_triple (relationships (LocalNLPProcessor.extractEntitiesAndRelationships apple_text))
    ("Apple", "FOUNDED_BY", "Steve Jobs") = false ∧
  has_triple (relationships (LocalNLPProcessor.extractEntitiesAndRelationships apple_text))
    ("Elon Musk", "OWNS", "Tesla") = false.
Proof. split_and!; vm_compute; reflexivity. Qed.

(** The whole result on the sample text: the rule-based strategy, and so
    the coordinator when no key is configured, yields the entities Apple,
    Steve jobs, Elon musk, Tesla (PERSON, 0.85) followed by Steve, Jobs,
    Elon, Musk (CONCEPT, 0.7), and the single relationship
    (Musk, OWNS, Tesla). *)
Lemma apple_example :
  map summary (entities (LocalNLPProcessor.extractEntitiesAndRelationships apple_text))
    = [ ("Apple", "PERSON", 0.85%Q); ("Steve jobs", "PERSON", 0.85%Q);
        ("Elon musk", "PERSON", 0.85%Q); ("Tesla", "PERSON", 0.85%Q);
        ("Steve", "CONCEPT", 0.7%Q); ("Jobs", "CONCEPT", 0.7%Q);
        ("Elon", "CONCEPT", 0.7%Q); ("Musk", "CONCEPT", 0.7%Q) ] ∧
  map triple (relationships (LocalNLPProcessor.extractEntitiesAndRelationships apple_text))
    = [ ("Musk", "OWNS", "Tesla") ] ∧
  map summary
    (entities (HybridNLPProcessor.extractEntitiesAndRelationships false unavailable
                 LocalNLPProcessor.extractEntitiesAndRelationships apple_text))
    = map summary
        (entities (LocalNLPProcessor.extractEntitiesAndRelationships apple_text)) ∧
  map triple
    (relationships (HybridNLPProcessor.extractEntitiesAndRelationships false unavailable
                      LocalNLPProcessor.extractEntitiesAndRelationships apple_text))
    = [ ("Musk", "OWNS", "Tesla") ].
Proof. split_and!; vm_compute; reflexivity. Qed.

(** * Further properties of the reconciler, the filter and the handler *)

Section MoreStoreFacts.
Import EnhancedNeo4jService.







Lemma existing_edge_is_returned_witness :
  sr_id <$> (founded_by 3 (founded_by 2 company_and_founder "apple").1 "apple").2 = Some 0 ∧
  (founded_by 3 (founded_by 2 company_and_founder "apple").1 "apple").1
    = (founded_by 2 company_and_founder "apple").1.
Proof.
  set (g := (founded_by 2 company_and_founder "apple").1).
  destruct (findEntityByLabelAndType g "apple" "COMPANY")
    as [s |] eqn:Hs; [| vm_compute in Hs; discriminate Hs].
  destruct (findEntityByLabelAndType g "Steve Jobs" "PERSON")
    as [t |] eqn:Ht; [| vm_compute in Ht; discriminate Ht].
  destruct (findRelationship g (se_id s) (se_id t) "FOUNDED_BY") as [r |] eqn:Hr.
  - unfold founded_by.
    rewrite (existing_edge_is_returned 3 g "apple" "Steve Jobs" "COMPANY" "PERSON"
               "FOUNDED_BY" ∅ s t r Hs Ht Hr).
    split; [| reflexivity]. cbn.
    vm_compute in Hs, Ht. injection Hs as <-. injection Ht as <-.
    vm_compute in Hr. injection Hr as <-. reflexivity.
  - vm_compute in Hs, Ht. injection Hs as <-. injection Ht as <-.
    vm_compute in Hr. discriminate Hr.
Defined.

(** [clearAllData] leaves no node and no edge. *)
Lemma clearAllData_empties g :
  nodes (clearAllData g) = [] ∧ edges (clearAllData g) = [].
Proof. done. Qed.

End MoreStoreFacts.

Section SortFacts.
Context {A : Type} (conf : A → Q).

Lemma Forall_insert_desc (P : A → Prop) x l :
  P x → Forall P l → Forall P (insert_desc conf x l).
Proof.
  intros Hx Hl. induction Hl as [| y l Hy Hl IH]; cbn; [by repeat constructor |].
  destruct (Qle_bool _ _); by repeat constructor.
Qed.

Lemma descending_insert_desc x l :
  descending conf l → descending conf (insert_desc conf x l).
Proof.
  induction l as [| y l IH]; cbn; [done |].
  intros [Hy Hl]. destruct (Qle_bool (conf y) (conf x)) eqn:Hle; cbn.
  - apply Qle_bool_iff in Hle. split; [| done].
    constructor; [done |].
    eapply Forall_impl; [exact Hy |]. intros z Hz. by apply (Qle_trans _ (conf y)).
  - split; [| by apply IH].
    apply Forall_insert_desc; [| done].
    apply Qlt_le_weak, Qnot_le_lt. intros H%Qle_bool_iff. congruence.
Qed.

Lemma with_confidence_insert_desc q x l :
  with_confidence conf q (insert_desc conf x l) = with_confidence conf q (x :: l).
Proof.
  unfold with_confidence. induction l as [| y l IH]; cbn [insert_desc]; [done |].
  destruct (Qle_bool (conf y) (conf x)) eqn:Hle; [done |].
  rewrite filter_cons, IH, !filter_cons.
  destruct (decide (Qeq_bool (conf y) q = true)) as [Hy |]; [| done].
  destruct (decide (Qeq_bool (conf x) q = true)) as [Hx |]; [| done].
  exfalso. apply Qeq_bool_iff in Hx, Hy.
  assert (Qle_bool (conf y) (conf x) = true); [| congruence].
  apply Qle_bool_iff. rewrite Hx, Hy. apply Qle_refl.
Qed.

Lemma insert_desc_perm x l : insert_desc conf x l ≡ₚ x :: l.
Proof.
  induction l as [| y l IH]; cbn [insert_desc]; [done |].
  destruct (Qle_bool _ _); [done |]. rewrite IH. apply Permutation_swap.
Qed.

(** X3.  [sort_desc] orders by descending confidence, keeps every item,
    and keeps items of equal confidence in their original order. *)
Theorem sort_desc_stable l :
  descending conf (sort_desc conf l) ∧
  sort_desc conf l ≡ₚ l ∧
  ∀ q, with_confidence conf q (sort_desc conf l) = with_confidence conf q l.
Proof.
  split; [| split].
  - induction l as [| x l IH]; cbn; [done |]. by apply descending_insert_desc.
  - induction l as [| x l IH]; [done |].
    change (sort_desc conf (x :: l)) with (insert_desc conf x (sort_desc conf l)).
    by rewrite insert_desc_perm, IH.
  - intros q. induction l as [| x l IH]; cbn [sort_desc foldr]; [done |].
    fold (sort_desc conf l). rewrite with_confidence_insert_desc.
    unfold with_confidence in *. by rewrite !filter_cons, IH.
Qed.

End SortFacts.

(** On "John likes John." the rule-based strategy finds the entity John
    and no relationship: the match of the LIKES rule is discarded because
    its two ends are equal. *)
Lemma john_likes_john :
  map summary (entities (LocalNLPProcessor.extractEntitiesAndRelationships
                           "John likes John."))
    = [("John", "PERSON", 0.85%Q)] ∧
  relationships (LocalNLPProcessor.extractEntitiesAndRelationships "John likes John.") = [].
Proof. split; vm_compute; reflexivity. Qed.

(** Processing the sample text a second time without clearing stores no
    further node and no further edge. *)
Lemma reprocessing_adds_nothing :
  stored_edges (process_apple EnhancedNeo4jService.empty_graph true).1
    = [(7, "OWNS", 3)] ∧
  stored_labels (process_apple (process_apple EnhancedNeo4jService.empty_graph true).1
                   false).1
    = stored_labels (process_apple EnhancedNeo4jService.empty_graph true).1 ∧
  stored_edges (process_apple (process_apple EnhancedNeo4jService.empty_graph true).1
                  false).1
    = [(7, "OWNS", 3)].
Proof. split_and!; vm_compute; reflexivity. Qed.

(** The tag of a response is "gemini" or "local", and it is "gemini"
    exactly when the extraction returned at least one entity. *)
Lemma tag_values key oneCall now g text clearBefore :
  ProcessText.tag (ProcessText.POST key oneCall now g text clearBefore).2 =
  if String.eqb text "" then None
  else if Nat.ltb 0 (length (entities (ProcessText.nlpProcessor key oneCall text).2))
       then Some "gemini" else Some "local".
Proof.
  unfold ProcessText.POST. destruct (String.eqb text ""); [done |].
  destruct (foldl (ProcessText.entity_step now) _ _) as [[g1 processed] k].
  destruct (foldl (ProcessText.relationship_step now processed) _ _) as [[g2 rels] k2].
  cbn [snd ProcessText.tag ProcessText.processingMethod].
  by destruct (Nat.ltb 0 _).
Qed.

(** * Matches of the extraction patterns *)

Section MatchOrder.
Import RegExp.

Lemma reaches_before P st st' :
  reaches P st st' → (length (before st) ≤ length (before st'))%nat.
Proof. intros (w & [_ Hb] & _). rewrite Hb, length_app. lia. Qed.

(** A pattern that is not nullable moves the cursor forward. *)
Lemma run_advances ic r st st' :
  nullable r = false → In st' (run ic r st) →
  (length (before st) < length (before st'))%nat.
Proof.
  induction r as [| cl | r1 IH1 r2 IH2 | r1 IH1 r2 IH2 | r1 IH1 | n r1 IH1 | | |]
    in st, st' |- *; cbn [run nullable]; try done.
  - intros _. destruct (rest st) as [| c tl]; [done |].
    destruct (class_has ic cl c); [| done].
    intros [<- | []]. cbn. lia.
  - intros Hn (l & Hl & Hin)%in_concat.
    apply in_map_iff in Hl as (mid & <- & Hmid).
    pose proof (reaches_before _ _ _ (run_reaches _ _ _ _ Hmid)) as H1.
    pose proof (reaches_before _ _ _ (run_reaches _ _ _ _ Hin)) as H2.
    apply andb_false_iff in Hn as [Hn | Hn].
    + specialize (IH1 _ _ Hn Hmid). lia.
    + specialize (IH2 _ _ Hn Hin). lia.
  - intros [Hn1 Hn2]%orb_false_iff [Hin | Hin]%in_app_iff.
    + by apply IH1.
    + by apply IH2.
  - intros Hn (mid & <- & Hmid)%in_map_iff. cbn. by apply IH1.
Qed.

Lemma first_match_position ic r bef rst st st' :
  first_match ic r bef rst = Some (st, st') →
  rev (before st) ++ rest st = rev bef ++ rst ∧
  (length bef ≤ length (before st))%nat ∧
  In st' (run ic r st).
Proof.
  induction rst as [| c tl IH] in bef |- *; cbn [first_match].
  - destruct (run ic r (Build_cursor bef [] [])) as [| hd l] eqn:Hrun; [done |].
    intros [= <- <-]. cbn. rewrite Hrun. split_and!; [done | done | by left].
  - destruct (run ic r (Build_cursor bef (c :: tl) [])) as [| hd l] eqn:Hrun.
    + intros (H1 & H2 & H3)%IH. split_and!; [| cbn in H2; lia | done].
      rewrite H1. cbn. by rewrite <- app_assoc.
    + intros [= <- <-]. cbn. rewrite Hrun. split_and!; [done | done | by left].
Qed.

Lemma length_string_of_list_ascii w :
  String.length (string_of_list_ascii w) = length w.
Proof. induction w as [| c w IH]; [done |]. cbn. by rewrite IH. Qed.

Lemma scan_in_order fuel ic r bef rst :
  nullable r = false →
  in_order (length bef) (rev bef ++ rst) (scan fuel ic r bef rst).
Proof.
  intros Hn. induction fuel as [| f IH] in bef, rst |- *; cbn [scan]; [done |].
  destruct (first_match ic r bef rst) as [[st st'] |] eqn:Hfm; [| done].
  apply first_match_position in Hfm as (Hpos & Hle & Hrun).
  pose proof (run_advances _ _ _ _ Hn Hrun) as Hadv.
  destruct (run_reaches _ _ _ _ Hrun) as (w & [Hr Hb] & _).
  assert (length w = length (before st') - length (before st))%nat as Hw.
  { rewrite Hb, length_app, length_rev. lia. }
  assert (whole (result_of st st') = string_of_list_ascii w) as Hwhole.
  { unfold result_of; cbn [whole]. by rewrite <- Hw, Hr, take_app_length. }
  cbn [in_order]. rewrite Hwhole, length_string_of_list_ascii.
  cbn [index result_of].
  assert (drop (length (before st)) (rev bef ++ rst) = rest st) as Hdrop.
  { rewrite <- Hpos, <- (length_rev (before st)). by rewrite drop_app_length. }
  split_and!.
  - done.
  - lia.
  - by rewrite Hdrop, Hr, take_app_length.
  - apply Nat.ltb_lt in Hadv as Hlt. rewrite Hlt.
    replace (length (before st) + length w)%nat with (length (before st')) by lia.
    replace (rev bef ++ rst) with (rev (before st') ++ rest st'); [apply IH |].
    rewrite <- Hpos, Hb, Hr, rev_app_distr, rev_involutive. by rewrite <- app_assoc.
Qed.

End MatchOrder.

(** X5.  The [exec] loops and [match] calls of the rule-based strategy
    never see an empty match: whatever the text, every match of every
    extraction pattern is the non-empty substring found at its index, and
    successive matches go from left to right without overlap (so the loops
    end, [lastIndex] moving forward each round). *)
Theorem extraction_matches_in_order re text :
  In re extraction_patterns →
  in_order 0 (list_ascii_of_string text) (RegExp.matchAll re text).
Proof.
  intros Hin. unfold RegExp.matchAll.
  apply (scan_in_order _ _ _ [] (list_ascii_of_string text)).
  assert (Forall (fun re => nullable (RegExp.pattern re) = false) extraction_patterns) as Hall.
  { vm_compute. repeat constructor. }
  exact (proj1 (List.Forall_forall _ _) Hall re Hin).
Qed.

Lemma extraction_matches_in_order_witness :
  in_order 0 (list_ascii_of_string "Elon Musk owns Tesla.")
    (RegExp.matchAll
       (LocalNLPProcessor.svo
          (RegExp.alt [LocalNLPProcessor.word_s "own"; RegExp.lit "owning"; RegExp.lit "owned"]))
       "Elon Musk owns Tesla.").
Proof.
  apply extraction_matches_in_order. vm_compute. tauto.
Defined.

(** * The candidate filters and the rule-based pipeline *)

Section DedupFacts.
Import JS RegExp.

Lemma deduplicated_add key (a : list Entity * gset string) e k :
  deduplicated key a → key e = k → k ∉ a.2 →
  deduplicated key (a.1 ++ [e], {[ k ]} ∪ a.2).
Proof.
  intros [Hnd Hin] <- Hk. split; cbn [fst snd].
  - rewrite map_app. apply NoDup_app. split_and!; [done | | apply NoDup_singleton].
    intros x Hx ->%list_elem_of_singleton.
    apply list_elem_of_fmap in Hx as (e' & He' & Hin'). apply Hk. rewrite He'. by apply Hin.
  - intros e' [He' | ->%list_elem_of_singleton]%elem_of_app; [| set_solver].
    apply elem_of_union_r. by apply Hin.
Qed.

Lemma has_false (found : gset string) s : bool_decide (s ∈ found) = false → s ∉ found.
Proof. by intros H%bool_decide_eq_false. Qed.

(** A loop that keeps an item only under a fresh key keeps a sublist of
    its input. *)
Lemma dedup_fold key (step : list Entity * gset string → Entity → list Entity * gset string)
    l a :
  (∀ a e, step a e = a ∨ ((key e ∉ a.2) ∧ step a e = (a.1 ++ [e], {[ key e ]} ∪ a.2))) →
  deduplicated key a →
  ∃ l', (foldl step a l).1 = a.1 ++ l' ∧ sublist l' l ∧ deduplicated key (foldl step a l).
Proof.
  intros Hstep. induction l as [| e l IH] in a |- *; intros Ha.
  - exists []. by rewrite app_nil_r.
  - cbn [foldl]. destruct (Hstep a e) as [-> | [Hk ->]].
    + destruct (IH a Ha) as (l' & H1 & H2 & H3). exists l'. split_and!; [done | | done].
      by apply sublist_cons.
    + destruct (IH (a.1 ++ [e], {[ key e ]} ∪ a.2)) as (l' & H1 & H2 & H3).
      { by apply deduplicated_add. }
      exists (e :: l'). split_and!; [| by apply sublist_skip | done].
      rewrite H1. cbn [fst]. by rewrite <- app_assoc.
Qed.

Lemma local_filter_step_spec a e :
  LocalNLPProcessor.filter_step a e = a ∨
  ((folded e ∉ a.2) ∧
   LocalNLPProcessor.filter_step a e = (a.1 ++ [e], {[ folded e ]} ∪ a.2)).
Proof.
  unfold LocalNLPProcessor.filter_step, LocalNLPProcessor.has, folded.
  destruct (Nat.ltb 1 _); [| by left]. cbn [andb].
  destruct (bool_decide _) eqn:Hd; [by left |]. right. split; [by apply has_false | done].
Qed.

Lemma gemini_filter_step_spec a e :
  GeminiNLPProcessor.filter_step a e = a ∨
  ((folded_trimmed e ∉ a.2) ∧
   GeminiNLPProcessor.filter_step a e = (a.1 ++ [e], {[ folded_trimmed e ]} ∪ a.2)).
Proof.
  unfold GeminiNLPProcessor.filter_step, GeminiNLPProcessor.has, folded_trimmed, normalized.
  destruct (String.eqb _ _); [by left |].
  destruct (GeminiNLPProcessor.isTechnicalTerm _); [by left |].
  destruct (Nat.ltb 0 _); [| by left]. cbn [andb].
  destruct (bool_decide _) eqn:Hd; [by left |]. cbn [negb andb].
  destruct (GeminiNLPProcessor.isVeryGenericEntity e); [by left |]. right.
  split; [by apply has_false | done].
Qed.

Lemma deduplicated_nil key : deduplicated key ([], ∅).
Proof. split; [constructor | by intros e H%elem_of_nil]. Qed.

Lemma sort_desc_perm {A} (conf : A → Q) l : sort_desc conf l ≡ₚ l.
Proof.
  induction l as [| x l IH]; [done |].
  change (sort_desc conf (x :: l)) with (insert_desc conf x (sort_desc conf l)).
  by rewrite insert_desc_perm, IH.
Qed.

End DedupFacts.

(** X6.  Both entity filters deduplicate and invent nothing: the entities
    they return have pairwise distinct keys (the case-folded label on the
    rule-based path, the case-folded and trimmed label on the model-backed
    path) and form a sub-multiset of the entities they were given. *)
Theorem filters_deduplicate ents :
  NoDup (map folded (LocalNLPProcessor.filterEntities ents)) ∧
  LocalNLPProcessor.filterEntities ents ⊆+ ents ∧
  NoDup (map folded_trimmed (GeminiNLPProcessor.filterEntities ents)) ∧
  GeminiNLPProcessor.filterEntities ents ⊆+ ents.
Proof.
  destruct (dedup_fold folded LocalNLPProcessor.filter_step ents ([], ∅)
              local_filter_step_spec (deduplicated_nil _)) as (l1 & H1 & Hs1 & [Hn1 _]).
  destruct (dedup_fold folded_trimmed GeminiNLPProcessor.filter_step ents ([], ∅)
              gemini_filter_step_spec (deduplicated_nil _)) as (l2 & H2 & Hs2 & [Hn2 _]).
  unfold LocalNLPProcessor.filterEntities, GeminiNLPProcessor.filterEntities.
  split_and!.
  - by rewrite (Permutation_map folded (sort_desc_perm _ _)).
  - rewrite sort_desc_perm. apply sublist_submseteq.
    exact (eq_ind_r (fun l => sublist l ents) Hs1 H1).
  - by rewrite (Permutation_map folded_trimmed (sort_desc_perm _ _)).
  - rewrite sort_desc_perm. apply sublist_submseteq.
    exact (eq_ind_r (fun l => sublist l ents) Hs2 H2).
Qed.

Section DedupComplete.

Lemma fold_extends {X} (step : list Entity * gset string → X → list Entity * gset string) l a :
  (∀ a x, ∃ l', (step a x).1 = a.1 ++ l') →
  ∃ l', (foldl step a l).1 = a.1 ++ l'.
Proof.
  intros Hstep. induction l as [| x l IH] in a |- *.
  - exists []. by rewrite app_nil_r.
  - cbn [foldl]. destruct (IH (step a x)) as (l2 & ->).
    destruct (Hstep a x) as (l1 & ->). exists (l1 ++ l2). by rewrite app_assoc.
Qed.

Lemma dedup_fold_complete key (admissible : Entity → Prop)
    (step : list Entity * gset string → Entity → list Entity * gset string) l a e :
  (∀ a e, step a e = (a.1 ++ [e], {[ key e ]} ∪ a.2)
          ∨ (step a e = a ∧ (key e ∈ a.2 ∨ ¬ admissible e))) →
  (∀ k, k ∈ a.2 → k ∈ map key a.1) →
  e ∈ l → admissible e → key e ∈ map key (foldl step a l).1.
Proof.
  intros Hstep.
  assert (∀ l a k, k ∈ map key a.1 → k ∈ map key (foldl step a l).1) as Hmono.
  { intros l0 a0 k Hk. destruct (fold_extends step l0 a0) as (l' & ->).
    - intros a1 x. destruct (Hstep a1 x) as [-> | [-> _]]; [by exists [x] |].
      exists []. by rewrite app_nil_r.
    - rewrite map_app. apply elem_of_app. by left. }
  induction l as [| x l IH] in a |- *; intros Ha Hin Hadm; [by apply elem_of_nil in Hin |].
  cbn [foldl]. apply elem_of_cons in Hin as [-> | Hin].
  - apply Hmono. destruct (Hstep a x) as [-> | [-> [Hk | Hn]]]; [| by apply Ha | done].
    cbn [fst]. rewrite map_app. apply elem_of_app. right. cbn. by apply list_elem_of_singleton.
  - apply IH; [| done | done].
    destruct (Hstep a x) as [-> | [-> _]]; [| done]. cbn [fst snd].
    intros k [->%elem_of_singleton | Hk]%elem_of_union; rewrite map_app; apply elem_of_app.
    + right. cbn. by apply list_elem_of_singleton.
    + left. by apply Ha.
Qed.

Lemma local_filter_step_complete a e :
  LocalNLPProcessor.filter_step a e = (a.1 ++ [e], {[ folded e ]} ∪ a.2)
  ∨ (LocalNLPProcessor.filter_step a e = a
     ∧ (folded e ∈ a.2 ∨ ¬ (1 < String.length (folded e)))).
Proof.
  unfold LocalNLPProcessor.filter_step, LocalNLPProcessor.has, folded.
  destruct (Nat.ltb 1 _) eqn:Hlen.
  - cbn [andb]. destruct (bool_decide _) eqn:Hd; [| by left].
    right. split; [done |]. left. by apply bool_decide_eq_true in Hd.
  - right. split; [done |]. right. apply Nat.ltb_ge in Hlen. lia.
Qed.

Lemma gemini_filter_step_complete a e :
  GeminiNLPProcessor.filter_step a e = (a.1 ++ [e], {[ folded_trimmed e ]} ∪ a.2)
  ∨ (GeminiNLPProcessor.filter_step a e = a
     ∧ (folded_trimmed e ∈ a.2 ∨ ¬ gemini_admissible e)).
Proof.
  unfold GeminiNLPProcessor.filter_step, GeminiNLPProcessor.has, gemini_admissible,
    folded_trimmed, normalized.
  destruct (String.eqb _ _) eqn:He.
  { right. split; [done |]. right. apply String.eqb_eq in He. tauto. }
  destruct (GeminiNLPProcessor.isTechnicalTerm _) eqn:Ht.
  { right. split; [done |]. right. intros (_ & [=] & _). }
  destruct (Nat.ltb 0 _) eqn:Hlen; cbn [andb].
  2:{ right. split; [done |]. right. apply Nat.ltb_ge in Hlen. intros (_ & _ & H & _). lia. }
  destruct (bool_decide _) eqn:Hd; cbn [negb andb].
  { right. split; [done |]. left. by apply bool_decide_eq_true in Hd. }
  destruct (GeminiNLPProcessor.isVeryGenericEntity e) eqn:Hg; cbn [negb].
  { right. split; [done |]. right. intros (_ & _ & _ & [=]). }
  by left.
Qed.

End DedupComplete.

(** X7.  The entity filters lose a label only to a repeat: an entity
    given to the rule-based filter whose case-folded label is longer than
    one character has that key among the survivors, and so has, on the
    model-backed path, every entity with a label that is not a technical
    term nor a generic word and is not blank. *)
Theorem filters_keep_every_key ents e :
  e ∈ ents →
  (1 < String.length (folded e) →
   folded e ∈ map folded (LocalNLPProcessor.filterEntities ents)) ∧
  (gemini_admissible e →
   folded_trimmed e ∈ map folded_trimmed (GeminiNLPProcessor.filterEntities ents)).
Proof.
  intros Hin. unfold LocalNLPProcessor.filterEntities, GeminiNLPProcessor.filterEntities.
  split; intros Hadm.
  - rewrite (Permutation_map folded (sort_desc_perm _ _)).
    apply (dedup_fold_complete folded (fun e => 1 < String.length (folded e))
             LocalNLPProcessor.filter_step ents ([], ∅) e);
      [apply local_filter_step_complete | | done | done].
    by intros k Hk%elem_of_empty.
  - rewrite (Permutation_map folded_trimmed (sort_desc_perm _ _)).
    apply (dedup_fold_complete folded_trimmed gemini_admissible
             GeminiNLPProcessor.filter_step ents ([], ∅) e);
      [apply gemini_filter_step_complete | | done | done].
    by intros k Hk%elem_of_empty.
Qed.

Lemma filters_keep_every_key_witness :
  folded padded_letter ∈ map folded (LocalNLPProcessor.filterEntities [padded_letter]) ∧
  folded_trimmed padded_letter
    ∈ map folded_trimmed (GeminiNLPProcessor.filterEntities [padded_letter]).
Proof.
  destruct (filters_keep_every_key [padded_letter] padded_letter) as [H1 H2];
    [by left |].
  split; [apply H1; vm_compute; lia | apply H2].
  unfold gemini_admissible. split_and!; [done | reflexivity | vm_compute; lia | reflexivity].
Defined.

Section LocalPipeline.
Import JS RegExp LocalNLPProcessor.

Lemma lower_letters c :
  consumes false (seq [WordB; plus lower; WordB]) c = true → lower_char c = c.
Proof.
  destruct c as [[] [] [] [] [] [] [] []]; vm_compute; intros H;
    first [reflexivity | discriminate H].
Qed.

(** The words found by [/\b[a-z]+\b/g] are their own case folding. *)
Lemma commonNouns_folded text :
  Forall (fun noun => toLowerCase noun = noun) (commonNouns text).
Proof.
  apply Forall_forall. intros noun Hin%list_elem_of_In.
  apply in_map_iff in Hin as (m & <- & Hm).
  apply matchAll_whole in Hm as (w & -> & Hw). cbn [ignoreCase pattern re_g] in Hw.
  induction w as [| c w IH]; [done |]. cbn in Hw |- *.
  apply andb_true_iff in Hw as [Hc Hw]. by rewrite lower_letters, IH.
Qed.

Lemma pattern_step_dedup text type a m :
  deduplicated folded a → deduplicated folded (pattern_step text type a m).
Proof.
  intros Ha. unfold pattern_step, has.
  destruct (Nat.ltb 1 _); [| done]. cbn [andb].
  destruct (bool_decide _) eqn:Hd; [done |]. cbn [negb].
  apply deduplicated_add; [done | | by apply has_false].
  unfold folded; cbn [ent_label]. apply toLowerCase_capitalizeFirst.
Qed.

Lemma capitalized_step_dedup text a word :
  deduplicated folded a → deduplicated folded (capitalized_step text a word).
Proof.
  intros Ha. unfold capitalized_step, has.
  destruct (bool_decide _) eqn:Hd; [done |]. cbn [negb andb].
  destruct (Nat.ltb 2 _); [| done].
  apply deduplicated_add; [done | done | by apply has_false].
Qed.

Lemma noun_step_dedup text a noun :
  toLowerCase noun = noun →
  deduplicated folded a → deduplicated folded (noun_step text a noun).
Proof.
  intros Hn Ha. unfold noun_step, has.
  destruct (Nat.ltb 2 _); [| done]. cbn [andb].
  destruct (bool_decide _) eqn:Hd; [done |]. cbn [negb andb].
  destruct (isLikelyNoun noun); [| done].
  apply deduplicated_add; [done | | by apply has_false].
  unfold folded; cbn [ent_label]. by rewrite toLowerCase_capitalizeFirst.
Qed.

(** No two entities found by [extractEntities] share a case-folded
    label. *)
Lemma extractEntities_dedup text : NoDup (map folded (extractEntities text)).
Proof.
  unfold extractEntities. cbn zeta.
  apply (foldl_invariant (deduplicated folded) (fun noun => toLowerCase noun = noun));
    [intros; by apply noun_step_dedup | apply commonNouns_folded |].
  apply (foldl_preserves (deduplicated folded));
    [intros; by apply capitalized_step_dedup |].
  apply (foldl_preserves (deduplicated folded)); [| apply deduplicated_nil].
  intros a g Ha. unfold group_loop.
  apply (foldl_preserves (deduplicated folded)); [| done].
  intros a' re Ha'. unfold pattern_loop.
  apply (foldl_preserves (deduplicated folded)); [| done].
  intros; by apply pattern_step_dedup.
Qed.

Lemma fold_appends {X} (P : Entity → Prop) (step : acc → X → acc) l a :
  (∀ a x, ∃ l', (step a x).1 = a.1 ++ l' ∧ Forall P l') →
  ∃ l', (foldl step a l).1 = a.1 ++ l' ∧ Forall P l'.
Proof.
  intros Hstep. induction l as [| x l IH] in a |- *.
  - exists []. by rewrite app_nil_r.
  - cbn [foldl]. destruct (IH (step a x)) as (l2 & -> & H2).
    destruct (Hstep a x) as (l1 & -> & H1). exists (l1 ++ l2).
    split; [by rewrite app_assoc | by apply Forall_app].
Qed.

Lemma appends_nothing (P : Entity → Prop) (a : acc) : ∃ l', a.1 = a.1 ++ l' ∧ Forall P l'.
Proof. exists []. by rewrite app_nil_r. Qed.

Lemma appends_one (P : Entity → Prop) (a : acc) e (s : gset string) :
  P e → ∃ l', (a.1 ++ [e], s).1 = a.1 ++ l' ∧ Forall P l'.
Proof. intros He. exists [e]. split; [done | by apply Forall_singleton]. Qed.

(** The three passes of [extractEntities] append, in turn, candidates of
    confidence 0.85, 0.7 and 0.6. *)
Lemma extractEntities_passes text :
  ∃ l1 l2 l3,
    extractEntities text = l1 ++ l2 ++ l3 ∧
    Forall (fun e => ent_confidence e = 0.85%Q) l1 ∧
    Forall (fun e => ent_confidence e = 0.7%Q) l2 ∧
    Forall (fun e => ent_confidence e = 0.6%Q) l3.
Proof.
  unfold extractEntities. cbn zeta.
  destruct (fold_appends (fun e => ent_confidence e = 0.6%Q) (noun_step text)
              (commonNouns text)
              (foldl (capitalized_step text) (foldl (group_loop text) ([], ∅) ENTITY_PATTERNS)
                     (capitalizedWords text))) as (l3 & -> & H3).
  { intros a noun. unfold noun_step. destruct (_ && _); [| apply appends_nothing].
    by apply appends_one. }
  destruct (fold_appends (fun e => ent_confidence e = 0.7%Q) (capitalized_step text)
              (capitalizedWords text)
              (foldl (group_loop text) ([], ∅) ENTITY_PATTERNS)) as (l2 & -> & H2).
  { intros a word. unfold capitalized_step. destruct (_ && _); [| apply appends_nothing].
    by apply appends_one. }
  destruct (fold_appends (fun e => ent_confidence e = 0.85%Q) (group_loop text)
              ENTITY_PATTERNS ([], ∅)) as (l1 & -> & H1).
  { intros a g. apply fold_appends. intros a' re. apply fold_appends. intros a'' m.
    unfold pattern_step. destruct (_ && _); [| apply appends_nothing].
    by apply appends_one. }
  exists l1, l2, l3. cbn [fst app]. by rewrite <- app_assoc.
Qed.

Lemma descending_app {A} (conf : A → Q) l1 l2 :
  descending conf l1 → descending conf l2 →
  (∀ x y, x ∈ l1 → y ∈ l2 → (conf y <= conf x)%Q) →
  descending conf (l1 ++ l2).
Proof.
  induction l1 as [| x l1 IH]; [done |]. cbn [descending app].
  intros [Hx Hl1] Hl2 Hc. split.
  - apply Forall_app. split; [done |]. apply Forall_forall. intros y Hy.
    apply Hc; [by left | done].
  - apply IH; [done | done |]. intros x' y Hx' Hy. apply Hc; [by right | done].
Qed.

Lemma descending_constant {A} (conf : A → Q) q l :
  Forall (fun x => conf x = q) l → descending conf l.
Proof.
  induction 1 as [| x l Hx Hl IH]; [done |]. cbn [descending]. split; [| done].
  eapply Forall_impl; [exact Hl |]. intros y ->. rewrite Hx. apply Qle_refl.
Qed.

Lemma extractEntities_descending text : descending ent_confidence (extractEntities text).
Proof.
  destruct (extractEntities_passes text) as (l1 & l2 & l3 & -> & H1 & H2 & H3).
  pose proof (proj1 (Forall_forall _ _) H1) as F1.
  pose proof (proj1 (Forall_forall _ _) H2) as F2.
  pose proof (proj1 (Forall_forall _ _) H3) as F3.
  apply descending_app; [by eapply descending_constant | |].
  - apply descending_app; [by eapply descending_constant | by eapply descending_constant |].
    intros x y Hx Hy. by rewrite (F2 x Hx), (F3 y Hy).
  - intros x y Hx [Hy | Hy]%elem_of_app; rewrite (F1 x Hx).
    + by rewrite (F2 y Hy).
    + by rewrite (F3 y Hy).
Qed.

(** Sorting a list that is already in descending order changes nothing. *)
Lemma sort_desc_sorted {A} (conf : A → Q) l : descending conf l → sort_desc conf l = l.
Proof.
  induction l as [| x l IH]; [done |]. cbn [descending]. intros [Hx Hl].
  change (sort_desc conf (x :: l)) with (insert_desc conf x (sort_desc conf l)).
  rewrite IH by done. destruct l as [| y l]; [done |]. cbn [insert_desc].
  apply Forall_cons in Hx as [Hy _]. apply Qle_bool_iff in Hy. by rewrite Hy.
Qed.

Lemma length_trimStart s : (String.length (trimStart s) ≤ String.length s)%nat.
Proof.
  induction s as [| c s IH]; [done |]. cbn [trimStart].
  destruct (is_space c); cbn [String.length]; lia.
Qed.

Lemma length_trimEnd s : (String.length (trimEnd s) ≤ String.length s)%nat.
Proof.
  induction s as [| c s IH]; [done |]. cbn [trimEnd].
  destruct (trimEnd s) as [| c' s'].
  - destruct (is_space c); cbn [String.length]; lia.
  - cbn [String.length] in *. lia.
Qed.

Lemma length_trim s : (String.length (trim s) ≤ String.length s)%nat.
Proof.
  unfold trim. etrans; [apply length_trimEnd | apply length_trimStart].
Qed.

Lemma local_filter_all l (a : acc) :
  NoDup (map folded l) →
  Forall (fun e => 1 < String.length (folded e)) l →
  (∀ e, e ∈ l → folded e ∉ a.2) →
  (foldl filter_step a l).1 = a.1 ++ l.
Proof.
  induction l as [| e l IH] in a |- *; intros Hnd Hlen Hfresh.
  - by rewrite app_nil_r.
  - cbn [foldl]. apply NoDup_cons in Hnd as [He Hnd].
    apply Forall_cons in Hlen as [Hl Hlen].
    assert (filter_step a e = (a.1 ++ [e], {[ folded e ]} ∪ a.2)) as ->.
    { unfold filter_step, has. fold (folded e).
      apply Nat.ltb_lt in Hl. rewrite Hl. cbn [andb].
      rewrite bool_decide_eq_false_2; [done |]. apply Hfresh. by left. }
    rewrite IH; [cbn [fst]; by rewrite <- app_assoc | done | done |].
    cbn [snd]. intros e' He' [Heq%elem_of_singleton | Hin]%elem_of_union.
    + apply He. rewrite <- Heq. apply list_elem_of_fmap. by exists e'.
    + eapply Hfresh; [| exact Hin]. by right.
Qed.

Lemma relationship_step_kept labels p rels m :
  let set : gset string := list_to_set labels in
  Forall (fun r => keep_relationship set r = true) rels →
  Forall (fun r => keep_relationship set r = true) (relationship_step labels p rels m).
Proof.
  intros set Hrels. unfold relationship_step.
  destruct (arr_includes labels _) eqn:Hs; [| done]. cbn [andb].
  destruct (arr_includes labels (toLowerCase (capitalizeFirst (trim (group_text 2 m)))))
    eqn:Ht; [| done]. cbn [andb].
  destruct (negb _) eqn:Hn; [| done].
  apply Forall_app. split; [done |]. apply Forall_singleton.
  unfold keep_relationship, has; cbn [rel_source rel_target]. rewrite Hn.
  apply arr_includes_In, list_elem_of_In in Hs, Ht.
  rewrite !bool_decide_eq_true_2; [done | |]; by apply elem_of_list_to_set.
Qed.

Lemma filter_all {A} (P : A → Prop) `{∀ x, Decision (P x)} l :
  Forall P l → filter P l = l.
Proof.
  induction 1 as [| x l Hx Hl IH]; [done |].
  rewrite filter_cons, decide_True by done. by rewrite IH.
Qed.

End LocalPipeline.

Lemma local_filterEntities_id text :
  LocalNLPProcessor.filterEntities (LocalNLPProcessor.extractEntities text)
  = LocalNLPProcessor.extractEntities text.
Proof.
  unfold LocalNLPProcessor.filterEntities.
  rewrite (local_filter_all _ ([], ∅)).
  - apply sort_desc_sorted, extractEntities_descending.
  - apply extractEntities_dedup.
  - eapply Forall_impl; [apply extractEntities_long |].
    intros e He. unfold long_label, normalized in He. unfold folded.
    pose proof (length_trim (JS.toLowerCase (ent_label e))). lia.
  - intros e _. apply not_elem_of_empty.
Qed.

Lemma local_filterRelationships_id text ents :
  LocalNLPProcessor.filterRelationships
    (LocalNLPProcessor.extractRelationships text ents) ents
  = LocalNLPProcessor.extractRelationships text ents.
Proof.
  unfold LocalNLPProcessor.filterRelationships. cbn zeta.
  apply filter_all. unfold LocalNLPProcessor.extractRelationships. cbn zeta.
  apply (foldl_preserves
           (Forall (fun r => LocalNLPProcessor.keep_relationship _ r = true)));
    [| done].
  intros rels p Hrels.
  apply (foldl_preserves
           (Forall (fun r => LocalNLPProcessor.keep_relationship _ r = true)));
    [| done].
  intros rels' m Hrels'. by apply relationship_step_kept.
Qed.

(** X8.  On the rule-based path the filter stage changes nothing: the
    strategy returns the entities in discovery order (which is already by
    descending confidence, no label repeated, none too short) and every
    relationship found. *)
Theorem local_filters_change_nothing text :
  LocalNLPProcessor.extractEntitiesAndRelationships text =
  {| entities := LocalNLPProcessor.extractEntities text;
     relationships :=
       LocalNLPProcessor.extractRelationships text
         (LocalNLPProcessor.extractEntities text) |}.
Proof.
  unfold LocalNLPProcessor.extractEntitiesAndRelationships. cbn zeta.
  by rewrite local_filterEntities_id, local_filterRelationships_id.
Qed.

Section CaptureFacts.
Import JS RegExp.

Lemma captured_by_weaken ic r r' p :
  (∀ n c, captures ic r n c = true → captures ic r' n c = true) →
  captured_by ic r p → captured_by ic r' p.
Proof.
  unfold captured_by. intros Hw H. apply forallb_forall. intros c Hc.
  apply Hw. by eapply forallb_forall in H.
Qed.

Lemma adds_captures_refl ic r st : adds_captures ic r st st.
Proof. by exists []. Qed.

Lemma adds_captures_trans ic r1 r2 r st1 st2 st3 :
  (∀ n c, captures ic r1 n c = true → captures ic r n c = true) →
  (∀ n c, captures ic r2 n c = true → captures ic r n c = true) →
  adds_captures ic r1 st1 st2 → adds_captures ic r2 st2 st3 → adds_captures ic r st1 st3.
Proof.
  intros Hw1 Hw2 (n1 & H1 & F1) (n2 & H2 & F2). exists (n2 ++ n1). split.
  - by rewrite H2, H1, app_assoc.
  - apply Forall_app. split; (eapply Forall_impl; [eassumption |]); intros p;
      by apply captured_by_weaken.
Qed.

Lemma star_loop_captures ic r step fuel st st' :
  (∀ a b, In b (step a) → adds_captures ic r a b) →
  In st' (star_loop step fuel st) → adds_captures ic r st st'.
Proof.
  intros Hstep. induction fuel as [| f IH] in st |- *; cbn [star_loop].
  - intros [<- | []]. apply adds_captures_refl.
  - intros [Hin | [<- | []]]%in_app_iff; [| apply adds_captures_refl].
    apply in_concat in Hin as (l & Hl & Hin).
    apply in_map_iff in Hl as (mid & <- & Hmid).
    destruct (Nat.ltb _ _); [| done].
    eapply (adds_captures_trans ic r r r); [done | done | by apply Hstep | by apply IH].
Qed.

Lemma run_captures ic r st st' :
  In st' (run ic r st) → adds_captures ic r st st'.
Proof.
  induction r as [| cl | r1 IH1 r2 IH2 | r1 IH1 r2 IH2 | r1 IH1 | n r1 IH1 | | |]
    in st, st' |- *; cbn [run].
  - intros [<- | []]. apply adds_captures_refl.
  - destruct (rest st) as [| c tl]; [done |].
    destruct (class_has ic cl c); [| done].
    intros [<- | []]. by exists [].
  - intros (l & Hl & Hin)%in_concat.
    apply in_map_iff in Hl as (mid & <- & Hmid).
    eapply (adds_captures_trans ic r1 r2); [| | by apply IH1 | by apply IH2];
      intros k c H; cbn [captures]; rewrite H; [done | by rewrite orb_true_r].
  - intros [Hin | Hin]%in_app_iff.
    + destruct (IH1 _ _ Hin) as (new & Hc & Hf). exists new. split; [done |].
      eapply Forall_impl; [exact Hf |]. intros p. apply captured_by_weaken.
      intros k c H. cbn [captures]. by rewrite H.
    + destruct (IH2 _ _ Hin) as (new & Hc & Hf). exists new. split; [done |].
      eapply Forall_impl; [exact Hf |]. intros p. apply captured_by_weaken.
      intros k c H. cbn [captures]. by rewrite H, orb_true_r.
  - apply star_loop_captures. intros a b Hab. apply IH1 in Hab.
    destruct Hab as (new & Hc & Hf). by exists new.
  - intros (mid & <- & Hmid)%in_map_iff.
    destruct (IH1 _ _ Hmid) as (new & Hc & Hf).
    destruct (run_reaches _ _ _ _ Hmid) as (w & [Hr Hb] & Hw).
    exists ((n, w) :: new). split.
    + unfold capture; cbn [caps]. rewrite Hc. cbn. do 2 f_equal.
      rewrite Hb, Hr, length_app, length_rev.
      replace (length w + length (before st) - length (before st))%nat with (length w) by lia.
      by rewrite take_app_length.
    + apply Forall_cons. split.
      * unfold captured_by; cbn [fst snd]. apply forallb_forall. intros c Hc'.
        cbn [captures]. rewrite Nat.eqb_refl. cbn [andb].
        eapply forallb_forall in Hw; [| exact Hc']. by rewrite Hw.
      * eapply Forall_impl; [exact Hf |]. intros p. apply captured_by_weaken.
        intros k c H. cbn [captures]. by rewrite H, orb_true_r.
  - destruct (at_word_boundary st); [| done]. intros [<- | []]. apply adds_captures_refl.
  - destruct (before st); [| done]. intros [<- | []]. apply adds_captures_refl.
  - destruct (rest st); [| done]. intros [<- | []]. apply adds_captures_refl.
Qed.

Lemma first_match_caps ic r bef rst st st' :
  first_match ic r bef rst = Some (st, st') → caps st = [].
Proof.
  induction rst as [| c tl IH] in bef |- *; cbn [first_match].
  - destruct (run ic r _); [done |]. by intros [= <- _].
  - destruct (run ic r _); [apply IH |]. by intros [= <- _].
Qed.

Lemma scan_groups fuel ic r bef rst m :
  In m (scan fuel ic r bef rst) → Forall (captured_by ic r) (groups m).
Proof.
  induction fuel as [| f IH] in bef, rst |- *; cbn [scan]; [done |].
  destruct (first_match ic r bef rst) as [[st st'] |] eqn:Hfm; [| done].
  intros [<- | Hin].
  - cbn [groups result_of].
    pose proof (first_match_caps _ _ _ _ _ _ Hfm) as Hc.
    apply first_match_position in Hfm as (_ & _ & Hrun).
    apply run_captures in Hrun as (new & Hn & Hf). by rewrite Hn, Hc, app_nil_r.
  - destruct (Nat.ltb _ _); [by eapply IH |].
    destruct (rest st'); [done | by eapply IH].
Qed.

(** The text of a group consists of characters the group can capture. *)
Lemma group_chars re s m k t :
  In m (matchAll re s) → group k m = Some t →
  ∃ w, t = string_of_list_ascii w
       ∧ forallb (captures (ignoreCase re) (pattern re) k) w = true.
Proof.
  intros Hm%scan_groups. unfold group.
  destruct (filter _ (groups m)) as [| p l] eqn:Hf; [done |].
  intros [= <-]. exists p.2. split; [done |].
  assert (p ∈ filter (λ p : nat * list ascii, Nat.eqb p.1 k) (groups m)) as Hp.
  { rewrite Hf. by left. }
  apply list_elem_of_filter in Hp as [Hk Hp].
  apply Is_true_true, Nat.eqb_eq in Hk. subst k.
  eapply (proj1 (Forall_forall _ _)) in Hm; [| exact Hp]. exact Hm.
Qed.

Lemma in_order_whole pos s ms m :
  in_order pos s ms → In m ms →
  whole m = string_of_list_ascii (take (String.length (whole m)) (drop (index m) s)).
Proof.
  induction ms as [| m0 ms IH] in pos |- *; [done |]. cbn [in_order].
  intros (_ & _ & Hw & Hrest) [<- | Hin]; [done | by eapply IH].
Qed.

Lemma prefix_app (a b : string) : String.prefix a (a +:+ b) = true.
Proof.
  induction a as [| c a IH].
  - by destruct b.
  - change (String c a +:+ b) with (String c (a +:+ b)). cbn [String.prefix].
    by destruct (ascii_dec c c).
Qed.

Lemma includes_app (a b c : string) : includes (a +:+ b +:+ c) b = true.
Proof.
  induction a as [| x a IH].
  - change ("" +:+ b +:+ c) with (b +:+ c).
    destruct (b +:+ c) eqn:E; cbn [includes]; rewrite <- E, prefix_app; done.
  - change (String x a +:+ b +:+ c) with (String x (a +:+ b +:+ c)).
    cbn [includes]. rewrite IH. apply orb_true_r.
Qed.

Lemma string_of_list_ascii_app l1 l2 :
  string_of_list_ascii (l1 ++ l2) = string_of_list_ascii l1 +:+ string_of_list_ascii l2.
Proof.
  induction l1 as [| c l1 IH]; [done |]. cbn [app string_of_list_ascii].
  rewrite IH. done.
Qed.

(** A match of an extraction pattern occurs in the text. *)
Lemma match_included re text m :
  nullable (pattern re) = false → In m (matchAll re text) →
  includes text (whole m) = true.
Proof.
  intros Hn Hm.
  pose proof (scan_in_order (S (String.length text)) (ignoreCase re) (pattern re) []
                (list_ascii_of_string text) Hn) as Hord.
  rewrite (in_order_whole _ _ _ _ Hord Hm).
  set (s := list_ascii_of_string text). set (i := index m). set (n := String.length _).
  rewrite <- (string_of_list_ascii_of_string text). fold s.
  rewrite <- (take_drop i s) at 1. rewrite <- (take_drop n (drop i s)) at 1.
  rewrite !string_of_list_ascii_app. apply includes_app.
Qed.

End CaptureFacts.

Section LocalShapes.
Import JS RegExp LocalNLPProcessor.

Lemma Forall_self {A} (l : list A) : Forall (fun x => x ∈ l) l.
Proof. by apply Forall_forall. Qed.

Lemma Forall_In_self {A} (l : list A) : Forall (fun x => In x l) l.
Proof. apply Forall_forall. intros x. apply list_elem_of_In. Qed.

Lemma pattern_step_candidate text g a m :
  g ∈ ENTITY_PATTERNS →
  Forall (local_candidate text) a.1 →
  Forall (local_candidate text) (pattern_step text g.1 a m).1.
Proof.
  intros Hg Ha. unfold pattern_step. destruct (_ && _); [| done]. cbn [fst].
  apply Forall_app. split; [done |]. apply Forall_singleton.
  unfold local_candidate; cbn [ent_properties ent_aliases ent_confidence ent_type].
  split_and!; [done | done | done |]. left. split_and!; [done | | done | done].
  apply list_elem_of_fmap. by exists g.
Qed.

Lemma capitalized_step_candidate text a word :
  Forall (local_candidate text) a.1 →
  Forall (local_candidate text) (capitalized_step text a word).1.
Proof.
  intros Ha. unfold capitalized_step. destruct (_ && _); [| done]. cbn [fst].
  apply Forall_app. split; [done |]. apply Forall_singleton.
  unfold local_candidate; cbn [ent_properties ent_aliases ent_confidence ent_type ent_label].
  split_and!; [done | done | done |]. right; left. by split_and!.
Qed.

Lemma noun_step_candidate text a noun :
  Forall (local_candidate text) a.1 →
  Forall (local_candidate text) (noun_step text a noun).1.
Proof.
  intros Ha. unfold noun_step. destruct (_ && _); [| done]. cbn [fst].
  apply Forall_app. split; [done |]. apply Forall_singleton.
  unfold local_candidate; cbn [ent_properties ent_aliases ent_confidence ent_type ent_label].
  split_and!; [done | done | done |]. right; right. by split_and!.
Qed.

Lemma extractEntities_candidates text :
  Forall (local_candidate text) (extractEntities text).
Proof.
  unfold extractEntities. cbn zeta.
  apply (foldl_preserves (fun a : acc => Forall (local_candidate text) a.1));
    [intros; by apply noun_step_candidate |].
  apply (foldl_preserves (fun a : acc => Forall (local_candidate text) a.1));
    [intros; by apply capitalized_step_candidate |].
  apply (foldl_invariant (fun a : acc => Forall (local_candidate text) a.1)
           (fun g => g ∈ ENTITY_PATTERNS)); [| apply Forall_self | done].
  intros a g Ha Hg. unfold group_loop.
  apply (foldl_preserves (fun a : acc => Forall (local_candidate text) a.1)); [| done].
  intros a' re Ha'. unfold pattern_loop.
  apply (foldl_preserves (fun a : acc => Forall (local_candidate text) a.1)); [| done].
  intros; by apply pattern_step_candidate.
Qed.

Lemma relationship_patterns_checked :
  Forall (fun p =>
            nullable (pattern (rp_pattern p)) = false ∧
            (0.7 <= rp_confidence p <= 0.9)%Q ∧
            ∀ c, (captures (ignoreCase (rp_pattern p)) (pattern (rp_pattern p)) 1 c = true
                  → is_word c = true) ∧
                 (captures (ignoreCase (rp_pattern p)) (pattern (rp_pattern p)) 2 c = true
                  → is_word c = true))
         RELATIONSHIP_PATTERNS.
Proof.
  unfold RELATIONSHIP_PATTERNS.
  repeat (apply Forall_cons_2); try apply Forall_nil_2;
    (split; [reflexivity | split; [split; vm_compute; discriminate |]]);
    intros c; split;
    destruct c as [[] [] [] [] [] [] [] []]; vm_compute; intros H;
      first [reflexivity | discriminate H].
Qed.

Lemma is_word_case c :
  is_word c = true → is_word (upper_char c) = true ∧ is_word (lower_char c) = true
                     ∧ not_space c = true.
Proof.
  destruct c as [[] [] [] [] [] [] [] []]; vm_compute; intros H;
    first [done | discriminate H].
Qed.

Lemma word_toLowerCase s :
  all_chars is_word s = true → all_chars is_word (toLowerCase s) = true.
Proof.
  induction s as [| c s IH]; [done |]. cbn [all_chars toLowerCase].
  intros [Hc Hs]%andb_true_iff. apply is_word_case in Hc as (_ & -> & _). by apply IH.
Qed.

Lemma word_capitalizeFirst s :
  all_chars is_word s = true → all_chars is_word (capitalizeFirst s) = true.
Proof.
  destruct s as [| c s]; [done |]. cbn [all_chars].
  intros [Hc Hs]%andb_true_iff. unfold capitalizeFirst. cbn [charAt0 slice1 toUpperCase].
  change (String (upper_char c) "" +:+ toLowerCase s)
    with (String (upper_char c) (toLowerCase s)).
  cbn [all_chars]. apply is_word_case in Hc as (-> & _ & _). by apply word_toLowerCase.
Qed.

Lemma word_trim s : all_chars is_word s = true → trim s = s.
Proof.
  intros H. apply trim_no_space.
  induction s as [| c s IH]; [done |]. cbn [all_chars] in *.
  apply andb_true_iff in H as [Hc Hs]. apply is_word_case in Hc as (_ & _ & ->).
  by apply IH.
Qed.

Lemma endpoint_word re text m k :
  (∀ c, captures (ignoreCase re) (pattern re) k c = true → is_word c = true) →
  In m (matchAll re text) →
  all_chars is_word (capitalizeFirst (trim (group_text k m))) = true.
Proof.
  intros Hc Hm. unfold group_text.
  destruct (group k m) as [t |] eqn:Hg; [| done]. cbn [default].
  destruct (group_chars _ _ _ _ _ Hm Hg) as (w & -> & Hw).
  assert (all_chars is_word (string_of_list_ascii w) = true) as Hword.
  { apply all_chars_of_list, forallb_forall. intros c Hin. apply Hc.
    by eapply forallb_forall in Hw. }
  rewrite word_trim by done. by apply word_capitalizeFirst.
Qed.

Lemma relationship_step_shape text ents p rels m :
  p ∈ RELATIONSHIP_PATTERNS → In m (matchAll (rp_pattern p) text) →
  Forall (local_relationship text ents) rels →
  Forall (local_relationship text ents)
         (relationship_step (map (fun e => toLowerCase (ent_label e)) ents) p rels m).
Proof.
  intros Hp Hm Hrels.
  pose proof (proj1 (Forall_forall _ _) relationship_patterns_checked p Hp)
    as (Hnull & Hrange & Hcap).
  unfold relationship_step.
  destruct (arr_includes _ _) eqn:Hs; [| done]. cbn [andb].
  destruct (arr_includes _ (toLowerCase (capitalizeFirst (trim (group_text 2 m)))))
    eqn:Ht; [| done]. cbn [andb].
  destruct (negb _) eqn:Hn; [| done].
  apply Forall_app. split; [done |]. apply Forall_singleton.
  unfold local_relationship;
    cbn [rel_source rel_target rel_type rel_confidence rel_context rel_properties].
  split_and!.
  - by exists p.
  - apply Hrange.
  - apply Hrange.
  - done.
  - done.
  - by apply (match_included (rp_pattern p)).
  - by apply arr_includes_In, list_elem_of_In in Hs.
  - by apply arr_includes_In, list_elem_of_In in Ht.
  - eapply endpoint_word; [| exact Hm]. intros c. apply Hcap.
  - eapply endpoint_word; [| exact Hm]. intros c. apply Hcap.
Qed.

Lemma extractRelationships_shape text ents :
  Forall (local_relationship text ents) (extractRelationships text ents).
Proof.
  unfold extractRelationships. cbn zeta.
  apply (foldl_invariant (Forall (local_relationship text ents))
           (fun p => p ∈ RELATIONSHIP_PATTERNS)); [| apply Forall_self | done].
  intros rels p Hrels Hp.
  apply (foldl_invariant (Forall (local_relationship text ents))
           (fun m => In m (matchAll (rp_pattern p) text))); [| apply Forall_In_self | done].
  intros rels' m Hrels' Hm. by apply relationship_step_shape.
Qed.

End LocalShapes.

(** X9.  Every entity of the rule-based strategy records the whole input
    text as context and the extractor's name, has no alias, and has the
    confidence, type and marker of the pass that found it: 0.85 and a type
    of the pattern table, 0.7 with a guessed type, or 0.6 and OBJECT. *)
Theorem local_entities_provenance text :
  Forall (local_candidate text)
         (entities (LocalNLPProcessor.extractEntitiesAndRelationships text)).
Proof. apply local_filterEntities_keeps, extractEntities_candidates. Qed.

(** X10.  Every relationship of the rule-based strategy has the type
    and confidence of one rule of the table (between 0.7 and 0.9), keeps
    the matched phrase, which occurs in the text, as context and
    provenance, and joins two single words that are, up to case, labels of
    returned entities. *)
Theorem local_relationships_shape text :
  Forall (local_relationship text
            (entities (LocalNLPProcessor.extractEntitiesAndRelationships text)))
         (relationships (LocalNLPProcessor.extractEntitiesAndRelationships text)).
Proof.
  unfold LocalNLPProcessor.extractEntitiesAndRelationships. cbn zeta.
  cbn [entities relationships].
  rewrite local_filterEntities_id, local_filterRelationships_id.
  apply extractRelationships_shape.
Qed.

(** * Requests and the store *)

Section EdgeProvenance.
Import EnhancedNeo4jService ProcessText.







End EdgeProvenance.


Section Additive.
Import EnhancedNeo4jService ProcessText.

Lemma extends_refl g : extends g g.
Proof. split; exists []; by rewrite app_nil_r. Qed.


Lemma on_match_ident now e n n' : on_match now e n = Some n' → ident n' = ident n.
Proof.
  unfold on_match. destruct (plus_aliases _ _); [| done]. by intros [= <-].
Qed.

Lemma mapM_ident (f : node → option node) l l' :
  (∀ n n', f n = Some n' → ident n' = ident n) →
  mapM f l = Some l' → map ident l' = map ident l.
Proof.
  intros Hf. induction l as [| n l IH] in l' |- *; cbn.
  - by intros [= <-].
  - destruct (f n) as [n' |] eqn:Hn; [| done]. cbn.
    destruct (mapM f l) as [l0 |]; [| done]. cbn. intros [= <-]. cbn.
    by rewrite (Hf _ _ Hn), (IH l0).
Qed.

Lemma createEntity_extends now g e g' r :
  createEntityWithMerge now g e = Some (g', r) → extends g g'.
Proof.
  unfold createEntityWithMerge.
  destruct (merge_query now g e) as [[g1 rows] |] eqn:Hq; [| done].
  cbn. destruct rows as [| n rows]; [done |]. intros [= <- _].
  unfold merge_query in Hq.
  destruct (symbolic_name (in_type e)) eqn:Hname; [| done].
  destruct (filter _ (nodes g)) as [| h hs].
  { injection Hq as <- _. split; cbn [nodes edges].
    - eexists. by rewrite map_app.
    - exists []. by rewrite app_nil_r. }
  destruct (mapM _ (nodes g)) as [ns |] eqn:Hm; [| done].
  destruct (mapM (on_match now e) (h :: hs)) as [rs |]; [| done].
  injection Hq as <- _. split; cbn [nodes edges].
  - exists []. rewrite app_nil_r. eapply mapM_ident; [| exact Hm].
    intros m m'. cbn beta. destruct (has_exact_label _ _ m); [apply on_match_ident |].
    by intros [= <-].
  - exists []. by rewrite app_nil_r.
Qed.

Lemma entity_step_extends now st entity : extends st.1.1 (entity_step now st entity).1.1.
Proof.
  destruct st as [[g done_] k]. unfold entity_step.
  destruct (createEntityWithMerge _ _ _) as [[g' r] |] eqn:H; [| apply extends_refl].
  cbn [fst]. by eapply createEntity_extends.
Qed.

Lemma createRelationship_extends now g sl tl st tt rt props :
  nodes (createRelationshipWithValidation now g sl tl st tt rt props).1 = nodes g ∧
  ∃ created,
    edges (createRelationshipWithValidation now g sl tl st tt rt props).1
      = edges g ++ created ∧
    Forall (fun r => ∃ a b, a ∈ nodes g ∧ b ∈ nodes g ∧
                            edge_source r = node_id a ∧ edge_target r = node_id b)
           created.
Proof.
  destruct (createRelationship_cases now g sl tl st tt rt props)
    as [-> | (s & t & _ & _ & _ & ->)];
    [split; [done | exists []; by rewrite app_nil_r] |].
  cbn [fst nodes edges]. split; [done |]. eexists. split; [done |].
  apply Forall_forall. intros r Hr.
  apply created_edges_row in Hr as (_ & i & [a b] & -> & Hab).
  apply list_elem_of_lookup_2 in Hab. unfold endpoint_rows in Hab.
  apply list_elem_of_bind in Hab as (a' & Hab & [_ Ha']%list_elem_of_filter).
  apply list_elem_of_bind in Hab as (b' & Hab & [_ Hb']%list_elem_of_filter).
  apply list_elem_of_singleton in Hab as [= -> ->]. by exists a', b'.
Qed.


Lemma no_dangling_entity_step now st entity :
  no_dangling st.1.1 → no_dangling (entity_step now st entity).1.1.
Proof.
  intros Hnd. destruct (entity_step_extends now st entity) as [(ns & Hn) _].
  unfold no_dangling. rewrite entity_step_edges.
  eapply Forall_impl; [exact Hnd |]. intros r.
  assert (∀ i, i ∈ map node_id (nodes st.1.1)
               → i ∈ map node_id (nodes (entity_step now st entity).1.1)) as Hsub.
  { intros i Hi.
    replace (map node_id (nodes (entity_step now st entity).1.1))
      with (map fst (map ident (nodes (entity_step now st entity).1.1)))
      by (rewrite map_map; done).
    rewrite Hn, map_app, map_map. apply elem_of_app. by left. }
  intros [H1 H2]. split; by apply Hsub.
Qed.

Lemma no_dangling_relationship_step now processed st rel :
  no_dangling st.1.1 → no_dangling (relationship_step now processed st rel).1.1.
Proof.
  intros Hnd. destruct st as [[g done_] k]. unfold relationship_step. cbn [fst] in *.
  destruct (find_processed processed (rel_source rel)) as [[[se sl] |] |];
    [| done | done].
  destruct (find_processed processed (rel_target rel)) as [[[te tl] |] |];
    [| done | done].
  destruct (createRelationship_extends (now k) g sl tl (se_type se) (se_type te)
              (rel_type rel) (relationship_properties rel)) as (Hn & created & He & Hc).
  assert (no_dangling (createRelationshipWithValidation (now k) g sl tl (se_type se)
                         (se_type te) (rel_type rel) (relationship_properties rel)).1)
    as Hgoal.
  { unfold no_dangling. rewrite Hn, He. apply Forall_app. split; [done |].
    eapply Forall_impl; [exact Hc |]. intros r (a & b & Ha & Hb & -> & ->).
    split; apply list_elem_of_fmap; eauto. }
  by destruct (createRelationshipWithValidation _ _ _ _ _ _ _ _) as [g' [r |]].
Qed.

End Additive.


(** X13.  After a request every edge joins two nodes of the store,
    provided this held before the request or the request cleared the graph
    (an empty text is refused before anything is cleared). *)
Theorem request_leaves_no_dangling_edge key oneCall now g text clearBefore :
  (clearBefore = false → no_dangling g) →
  (text = "" → no_dangling g) →
  no_dangling (ProcessText.POST key oneCall now g text clearBefore).1.
Proof.
  intros Hg Hempty. unfold ProcessText.POST.
  destruct (String.eqb text "") eqn:Ht; cbn [fst].
  { apply Hempty. by apply String.eqb_eq. }
  set (g0 := if clearBefore then EnhancedNeo4jService.clearAllData g else g).
  assert (no_dangling g0) as Hg0.
  { unfold g0. destruct clearBefore; [by apply Forall_nil | by apply Hg]. }
  set (result := (ProcessText.nlpProcessor key oneCall text).2).
  destruct (foldl (ProcessText.entity_step now) (g0, [], 0) (entities result))
    as [[g1 processed] k] eqn:H1.
  assert (no_dangling g1) as Hg1.
  { change g1 with (g1, processed, k).1.1. rewrite <- H1.
    apply (foldl_preserves (fun st => no_dangling st.1.1)); [| done].
    intros st e Hst. by apply no_dangling_entity_step. }
  assert (no_dangling
            (foldl (ProcessText.relationship_step now processed) (g1, [], k)
                   (relationships result)).1.1) as Hg2.
  { apply (foldl_preserves (fun st => no_dangling st.1.1)); [| done].
    intros st e Hst. by apply no_dangling_relationship_step. }
  by destruct (foldl (ProcessText.relationship_step now processed) _ _) as [[g2 rels] k2].
Qed.

Lemma request_leaves_no_dangling_edge_witness :
  ¬ no_dangling dangling_graph ∧
  no_dangling (process_apple dangling_graph true).1 ∧
  EnhancedNeo4jService.edges (process_apple dangling_graph true).1 ≠ [].
Proof.
  split_and!.
  - intros [[H _] _]%Forall_cons. by apply elem_of_nil in H.
  - unfold process_apple.
    apply (request_leaves_no_dangling_edge false unavailable ticks dangling_graph
             apple_text true); [intros [=] | unfold apple_text; intros [=]].
  - vm_compute. intros [=].
Defined.

Section RoundTrip.
Import EnhancedNeo4jService.

Lemma or_default_lookup k v d (m : gmap string value) :
  set_prop k (or_default v d) m !! k = or_default v d.
Proof.
  unfold or_default. destruct (truthy v) eqn:Ht.
  - destruct v as [x |]; [| done]. cbn. by rewrite lookup_insert_eq.
  - cbn. by rewrite lookup_insert_eq.
Qed.

Lemma or_default_other k k' v d (m : gmap string value) :
  k ≠ k' → set_prop k (or_default v d) m !! k' = m !! k'.
Proof. apply set_prop_other. Qed.

Lemma well_typed_find label n : well_typed n → ∃ b, find_where label n = Some b.
Proof.
  intros [Hl Ha]. unfold find_where.
  destruct (node_props n !! "label") as [v |] eqn:El.
  - destruct (Hl v eq_refl) as (s & ->). cbn.
    destruct (node_props n !! "aliases") as [w |] eqn:Ea; [| by eexists].
    destruct (Ha w eq_refl) as (l & ->). by eexists.
  - cbn. destruct (node_props n !! "aliases") as [w |] eqn:Ea; [| by eexists].
    destruct (Ha w eq_refl) as (l & ->). by eexists.
Qed.

(** In a well-typed store a label that some node of the type answers to
    resolves, to the first such node. *)
Lemma find_node_some label type ns n :
  Forall well_typed ns → n ∈ ns → node_label n = type → find_where label n = Some true →
  ∃ m, find_node label type ns = Some m ∧ m ∈ ns ∧ node_label m = type
       ∧ find_where label m = Some true.
Proof.
  induction ns as [| h ns IH]; intros Hwt Hin Hty Hfw; [by apply elem_of_nil in Hin |].
  apply Forall_cons in Hwt as [Hh Hwt]. cbn [find_node].
  destruct (String.eqb (node_label h) type) eqn:Eh.
  - destruct (well_typed_find label h Hh) as ([] & Hb); rewrite Hb.
    + exists h. split_and!; [done | by left | by apply String.eqb_eq | done].
    + apply elem_of_cons in Hin as [-> | Hin]; [congruence |].
      destruct (IH Hwt Hin Hty Hfw) as (m & ? & ? & ? & ?). exists m.
      split_and!; [done | by right | done | done].
  - apply elem_of_cons in Hin as [-> | Hin].
    { apply String.eqb_neq in Eh. done. }
    destruct (IH Hwt Hin Hty Hfw) as (m & ? & ? & ? & ?). exists m.
    split_and!; [done | by right | done | done].
Qed.

Lemma find_node_sound label type ns m :
  find_node label type ns = Some m →
  m ∈ ns ∧ node_label m = type ∧ find_where label m = Some true.
Proof.
  induction ns as [| h ns IH]; cbn [find_node]; [done |].
  destruct (String.eqb (node_label h) type) eqn:Eh.
  - destruct (find_where label h) as [[] |] eqn:Hb; [| | done].
    + intros [= <-]. split_and!; [by left | by apply String.eqb_eq | done].
    + intros (? & ? & ?)%IH. split_and!; [by right | done | done].
  - intros (? & ? & ?)%IH. split_and!; [by right | done | done].
Qed.

Lemma named_answers e label (n : node) old :
  names e label →
  node_props n !! "label" = Some (VStr (in_label e)) →
  node_props n !! "aliases" = Some (VList (old ++ default [] (in_aliases e))) →
  find_where label n = Some true.
Proof.
  intros Hname Hl Ha. unfold find_where. rewrite Hl, Ha. cbn. f_equal.
  destruct Hname as [Heq | (alias & Hin & Heq)].
  - rewrite Heq, String.eqb_refl. done.
  - apply orb_true_iff. right. apply existsb_exists. exists alias. split.
    + apply list_elem_of_In, elem_of_app. by right.
    + by apply String.eqb_eq.
Qed.

Lemma on_create_well_typed now e id :
  in_properties e !! "label" = None → in_properties e !! "aliases" = None →
  node_props (on_create now e id) !! "label" = Some (VStr (in_label e)) ∧
  node_props (on_create now e id) !! "aliases" = Some (VList (default [] (in_aliases e))).
Proof.
  intros Hl Ha. unfold on_create; cbn [node_props]. split.
  - rewrite lookup_union_r by done. by rewrite !lookup_insert_ne, lookup_singleton_eq.
  - rewrite lookup_union_r by done. rewrite lookup_insert_ne by done.
    by rewrite lookup_insert_eq.
Qed.

Lemma on_match_well_typed now e n n' :
  in_properties e !! "label" = None → in_properties e !! "aliases" = None →
  well_typed n → on_match now e n = Some n' →
  node_props n' !! "label" = node_props n !! "label" ∧
  ∃ old, node_props n' !! "aliases" = Some (VList (old ++ default [] (in_aliases e))).
Proof.
  intros Hl Ha [_ Hwa]. unfold on_match.
  destruct (plus_aliases _ _) as [a' |] eqn:Hp; [| done]. cbn. intros [= <-].
  cbn [node_props]. split.
  - rewrite lookup_union_r by done. rewrite !lookup_insert_ne by done.
    by apply set_prop_other.
  - rewrite lookup_union_r by done. rewrite lookup_insert_ne by done.
    rewrite lookup_insert_eq. unfold plus_aliases in Hp.
    destruct (node_props n !! "aliases") as [v |] eqn:Ev.
    + destruct (Hwa v eq_refl) as (l & ->). injection Hp as <-. by exists l.
    + injection Hp as <-. by exists [].
Qed.

Lemma well_typed_intro (n : node) s l :
  node_props n !! "label" = Some (VStr s) → node_props n !! "aliases" = Some (VList l) →
  well_typed n.
Proof.
  intros Hl Ha. split; intros v; rewrite ?Hl, ?Ha; intros [= <-]; by eexists.
Qed.

Lemma mapM_image (f : node → option node) l l' (P : node → Prop) h :
  mapM f l = Some l' → Forall P l → h ∈ l →
  (∀ n n', P n → f n = Some n' → P n') →
  Forall P l' ∧ ∃ h', f h = Some h' ∧ h' ∈ l'.
Proof.
  intros Hm Hall Hin Hf. induction l as [| n l IH] in l', Hm, Hall, Hin |- *.
  { by apply elem_of_nil in Hin. }
  apply Forall_cons in Hall as [Hn Hall]. cbn in Hm.
  destruct (f n) as [n' |] eqn:En; [| done]. cbn in Hm.
  destruct (mapM f l) as [l0 |] eqn:El; [| done]. cbn in Hm. injection Hm as <-.
  assert (Forall P l0) as Hl0.
  { clear IH Hin. revert l0 El Hall. induction l as [| x l IHl]; intros l0 El Hall.
    - cbn in El. by injection El as <-.
    - apply Forall_cons in Hall as [Hx Hall]. cbn in El.
      destruct (f x) as [x' |] eqn:Ex; [| done]. cbn in El.
      destruct (mapM f l) as [l1 |] eqn:El1; [| done]. cbn in El. injection El as <-.
      apply Forall_cons. split; [by eapply Hf | by apply IHl]. }
  split; [apply Forall_cons; split; [by eapply Hf | done] |].
  apply elem_of_cons in Hin as [-> | Hin].
  - exists n'. split; [done | by left].
  - destruct (IH l0 eq_refl Hall Hin) as (_ & h' & ? & ?). exists h'. split; [done | by right].
Qed.

End RoundTrip.

(** X14.  When the relationship type is a name (the creating query, which
    splices it in, fails otherwise and nothing is written), both endpoints
    resolve, no edge of the type joins them yet and each endpoint label is
    carried by exactly one node of its type,
    [createRelationshipWithValidation] adds exactly one edge, between those
    two nodes, and returns it: the edge has the requested type, the creation
    time, the confidence given in the properties (0.8 when that is absent
    or falsy) and every other property given. *)
Theorem new_edge_is_stamped now g sourceLabel targetLabel sourceType targetType
    relationshipType properties s t a b :
  EnhancedNeo4jService.symbolic_name relationshipType = true →
  EnhancedNeo4jService.findEntityByLabelAndType g sourceLabel sourceType = Some s →
  EnhancedNeo4jService.findEntityByLabelAndType g targetLabel targetType = Some t →
  EnhancedNeo4jService.findRelationship g (EnhancedNeo4jService.se_id s)
    (EnhancedNeo4jService.se_id t) relationshipType = None →
  stored g sourceType sourceLabel = [a] →
  stored g targetType targetLabel = [b] →
  ∃ r,
    EnhancedNeo4jService.createRelationshipWithValidation now g sourceLabel targetLabel
      sourceType targetType relationshipType properties
    = ({| EnhancedNeo4jService.nodes := EnhancedNeo4jService.nodes g;
          EnhancedNeo4jService.edges := EnhancedNeo4jService.edges g ++ [r];
          EnhancedNeo4jService.next_node := EnhancedNeo4jService.next_node g;
          EnhancedNeo4jService.next_edge := EnhancedNeo4jService.next_edge g + 1 |},
       Some (EnhancedNeo4jService.relationship_of relationshipType r)) ∧
    EnhancedNeo4jService.edge_source r = EnhancedNeo4jService.node_id a ∧
    EnhancedNeo4jService.edge_target r = EnhancedNeo4jService.node_id b ∧
    EnhancedNeo4jService.edge_type r = relationshipType ∧
    EnhancedNeo4jService.edge_props r !! "created_at" = Some (VTime now) ∧
    EnhancedNeo4jService.edge_props r !! "confidence"
      = (if truthy (properties !! "confidence") then properties !! "confidence"
         else Some (VNum 0.8)) ∧
    ∀ k, k ∉ ["created_at"; "confidence"] →
         EnhancedNeo4jService.edge_props r !! k = properties !! k.
Proof.
  intros Hname Hs Ht Hnone Ha Hb.
  exists (EnhancedNeo4jService.new_edge now relationshipType properties
            (EnhancedNeo4jService.next_edge g + 0) (a, b)).
  split_and!.
  - unfold EnhancedNeo4jService.createRelationshipWithValidation.
    rewrite Hs, Ht, Hnone.
    rewrite create_edges_rows by (done || by eapply find_name).
    unfold EnhancedNeo4jService.endpoint_rows.
    unfold stored in Ha, Hb. rewrite Ha, Hb. done.
  - done.
  - done.
  - done.
  - cbn [EnhancedNeo4jService.new_edge EnhancedNeo4jService.edge_props].
    rewrite or_default_other by done. by rewrite lookup_insert_eq.
  - cbn [EnhancedNeo4jService.new_edge EnhancedNeo4jService.edge_props].
    apply or_default_lookup.
  - intros k Hk.
    cbn [EnhancedNeo4jService.new_edge EnhancedNeo4jService.edge_props].
    rewrite or_default_other by (intros <-; apply Hk; set_solver).
    rewrite lookup_insert_ne by (intros <-; apply Hk; set_solver).
    by rewrite (right_id_L (∅ : gmap string value) (∪)).
Qed.

Lemma new_edge_is_stamped_witness :
  ∃ r, (founded_by 2 company_and_founder "apple").2
       = Some (EnhancedNeo4jService.relationship_of "FOUNDED_BY" r) ∧
       EnhancedNeo4jService.edge_source r = 0 ∧
       EnhancedNeo4jService.edge_target r = 1 ∧
       EnhancedNeo4jService.edge_props r !! "created_at" = Some (VTime 2) ∧
       EnhancedNeo4jService.edge_props r !! "confidence" = Some (VNum 0.8).
Proof.
  destruct (new_edge_is_stamped 2 company_and_founder "apple" "Steve Jobs"
              "COMPANY" "PERSON" "FOUNDED_BY" ∅
              (entity_of "COMPANY"
                 (EnhancedNeo4jService.on_create 0
                    (candidate "apple" "COMPANY" (Some 0.9%Q) None ∅) 0))
              (entity_of "PERSON"
                 (EnhancedNeo4jService.on_create 1
                    (candidate "Steve Jobs" "PERSON" (Some 0.9%Q) None ∅) 1))
              (EnhancedNeo4jService.on_create 0
                 (candidate "apple" "COMPANY" (Some 0.9%Q) None ∅) 0)
              (EnhancedNeo4jService.on_create 1
                 (candidate "Steve Jobs" "PERSON" (Some 0.9%Q) None ∅) 1))
    as (r & Hr & Hsrc & Htgt & _ & Hat & Hconf & _);
    [vm_compute; reflexivity .. |].
  exists r. unfold founded_by. rewrite Hr. split_and!; [done | done | done | done |].
  rewrite Hconf. reflexivity.
Defined.

(** X15.  Upsert, then lookup: in a store whose labels are strings and
    whose aliases are lists, after a successful upsert (whose property map
    carries neither label nor aliases) every spelling, up to case, of the
    entity's label or of one of the aliases given resolves to a node of the
    entity's type that answers to it. *)
Theorem upserted_entity_resolves now g e g' r label :
  EnhancedNeo4jService.createEntityWithMerge now g e = Some (g', r) →
  Forall well_typed (EnhancedNeo4jService.nodes g) →
  EnhancedNeo4jService.in_properties e !! "label" = None →
  EnhancedNeo4jService.in_properties e !! "aliases" = None →
  names e label →
  ∃ s n,
    EnhancedNeo4jService.findEntityByLabelAndType g' label
      (EnhancedNeo4jService.in_type e) = Some s ∧
    n ∈ EnhancedNeo4jService.nodes g' ∧
    EnhancedNeo4jService.node_label n = EnhancedNeo4jService.in_type e ∧
    EnhancedNeo4jService.se_id s = EnhancedNeo4jService.node_id n ∧
    EnhancedNeo4jService.find_where label n = Some true.
Proof.
  intros Hup Hwt Hl Ha Hname.
  pose proof (merge_name _ _ _ _ _ Hup) as Hsym.
  assert (Forall well_typed (EnhancedNeo4jService.nodes g') ∧
          ∃ n, n ∈ EnhancedNeo4jService.nodes g' ∧
               EnhancedNeo4jService.node_label n = EnhancedNeo4jService.in_type e ∧
               EnhancedNeo4jService.find_where label n = Some true) as [Hwt' (n & Hn & Hty & Hfw)].
  { unfold EnhancedNeo4jService.createEntityWithMerge in Hup.
    destruct (EnhancedNeo4jService.merge_query now g e) as [[g1 rows] |] eqn:Hq; [| done].
    cbn in Hup. destruct rows as [| n0 rows]; [done |]. injection Hup as <- _.
    unfold EnhancedNeo4jService.merge_query in Hq. rewrite Hsym in Hq.
    destruct (filter _ (EnhancedNeo4jService.nodes g)) as [| h hs] eqn:Hf.
    - injection Hq as <- _. cbn [EnhancedNeo4jService.nodes].
      destruct (on_create_well_typed now e (EnhancedNeo4jService.next_node g) Hl Ha)
        as [Hcl Hca].
      split.
      + apply Forall_app. split; [done |]. apply Forall_singleton.
        by eapply well_typed_intro.
      + eexists. split_and!; [apply elem_of_app; right; by left | done |].
        by eapply (named_answers e label _ []).
    - destruct (mapM _ (EnhancedNeo4jService.nodes g)) as [ns |] eqn:Hm; [| done].
      destruct (mapM (EnhancedNeo4jService.on_match now e) (h :: hs)) as [rs |]; [| done].
      injection Hq as <- _. cbn [EnhancedNeo4jService.nodes].
      assert (h ∈ filter
                (λ n, EnhancedNeo4jService.has_exact_label
                        (EnhancedNeo4jService.in_type e)
                        (EnhancedNeo4jService.in_label e) n = true)
                (EnhancedNeo4jService.nodes g)) as Hh by (rewrite Hf; by left).
      apply list_elem_of_filter in Hh as [Hhit Hh].
      destruct (mapM_image _ _ _ well_typed h Hm Hwt Hh) as (Hns & h' & Hh' & Hin').
      { intros m m' Hm0. cbn beta.
        destruct (EnhancedNeo4jService.has_exact_label _ _ m) eqn:Hmhit;
          [| by intros [= <-]].
        intros Hom.
        destruct (on_match_well_typed now e m m' Hl Ha Hm0 Hom) as (Hml & old & Hma).
        apply has_exact_label_prop in Hmhit. rewrite Hmhit in Hml.
        by eapply well_typed_intro. }
      split; [done |]. cbn beta in Hh'. rewrite Hhit in Hh'.
      destruct (on_match_well_typed now e h h' Hl Ha
                  (proj1 (Forall_forall _ _) Hwt h Hh) Hh') as (Hml & old & Hma).
      exists h'. split_and!; [done | |].
      + unfold EnhancedNeo4jService.on_match in Hh'.
        destruct (EnhancedNeo4jService.plus_aliases _ _); [| done].
        injection Hh' as <-. cbn. by eapply hit_type.
      + pose proof (has_exact_label_prop _ _ _ Hhit) as Hlab. rewrite Hlab in Hml.
        by eapply (named_answers e label _ old). }
  destruct (find_node_some label _ _ n Hwt' Hn Hty Hfw) as (m & Hfind & Hm & Htym & Hfwm).
  rewrite (find_rows _ _ _ Hsym), Hfind.
  eexists _, m. by split_and!.
Qed.

Lemma upserted_entity_resolves_witness :
  names (candidate "Apple Inc" "COMPANY" (Some 0.9%Q) (Some ["Apple"]) ∅) "APPLE" ∧
  ∃ s, EnhancedNeo4jService.findEntityByLabelAndType
         (upserts EnhancedNeo4jService.empty_graph
            [candidate "Apple Inc" "COMPANY" (Some 0.9%Q) (Some ["Apple"]) ∅])
         "APPLE" "COMPANY" = Some s.
Proof.
  assert (names (candidate "Apple Inc" "COMPANY" (Some 0.9%Q) (Some ["Apple"]) ∅) "APPLE")
    as Hname.
  { right. exists "Apple". split; [by left | reflexivity]. }
  split; [done |].
  assert (EnhancedNeo4jService.createEntityWithMerge 0 EnhancedNeo4jService.empty_graph
            (candidate "Apple Inc" "COMPANY" (Some 0.9%Q) (Some ["Apple"]) ∅)
          = Some (upserts EnhancedNeo4jService.empty_graph
                    [candidate "Apple Inc" "COMPANY" (Some 0.9%Q) (Some ["Apple"]) ∅],
                  entity_of "COMPANY"
                    (EnhancedNeo4jService.on_create 0
                       (candidate "Apple Inc" "COMPANY" (Some 0.9%Q) (Some ["Apple"]) ∅) 0)))
    as Hup by (vm_compute; reflexivity).
  destruct (upserted_entity_resolves _ _ _ _ _ "APPLE" Hup (Forall_nil_2 _) eq_refl eq_refl
              Hname) as (s & n & Hs & _).
  by exists s.
Defined.

Section Similar.
Import EnhancedNeo4jService.

Lemma similar_nodes_sound label type limit ns rows :
  similar_nodes label type limit ns = Some rows →
  (length rows ≤ limit)%nat ∧ sublist rows ns ∧
  Forall (fun n => node_label n = type ∧ similar_where label n = Some true) rows.
Proof.
  induction ns as [| n ns IH] in limit, rows |- *; cbn [similar_nodes].
  { intros [= <-]. split_and!; [cbn; lia | done | done]. }
  destruct limit as [| k].
  { intros [= <-]. split_and!; [done | apply sublist_nil_l | done]. }
  destruct (String.eqb (node_label n) type) eqn:Ety.
  - destruct (similar_where label n) as [[] |] eqn:Ew; [| | done].
    + destruct (similar_nodes label type k ns) as [rows' |] eqn:Er; [| done].
      cbn. intros [= <-]. destruct (IH _ _ Er) as (Hlen & Hsub & Hall).
      split_and!; [cbn; lia | by apply sublist_skip |].
      apply Forall_cons. split; [| done]. split; [by apply String.eqb_eq | done].
    + intros (Hlen & Hsub & Hall)%IH. split_and!; [done | by apply sublist_cons | done].
  - intros (Hlen & Hsub & Hall)%IH. split_and!; [done | by apply sublist_cons | done].
Qed.

End Similar.

(** X16.  [findSimilarEntities] returns at most five entities, and each
    describes a node of the store of the requested type whose label
    contains the requested label or is contained in it, up to case. *)
Theorem similar_entities_bounded_and_sound g label type threshold :
  (length (EnhancedNeo4jService.findSimilarEntities g label type threshold) ≤ 5)%nat ∧
  Forall (similar_hit g label type)
         (EnhancedNeo4jService.findSimilarEntities g label type threshold).
Proof.
  unfold EnhancedNeo4jService.findSimilarEntities.
  destruct (EnhancedNeo4jService.symbolic_name type); [| split; [cbn; lia | done]].
  destruct (EnhancedNeo4jService.similar_nodes label type 5 (EnhancedNeo4jService.nodes g))
    as [rows |] eqn:Hr; [| split; [cbn; lia | done]].
  apply similar_nodes_sound in Hr as (Hlen & Hsub & Hall).
  split; [by rewrite length_map |].
  apply Forall_map, Forall_forall. intros n Hn.
  pose proof (proj1 (Forall_forall _ _) Hall n Hn) as [Hty Hw].
  unfold EnhancedNeo4jService.similar_where in Hw.
  destruct (EnhancedNeo4jService.node_props n !! "label") as [[| l | | |] |] eqn:El;
    try done.
  injection Hw as Hw. exists n, l. cbn.
  split_and!; try done.
  - by eapply elem_of_sublist.
  - unfold similar. by apply orb_true_iff in Hw.
Qed.

(** * Processing the same text again *)

Section Settled.
Import EnhancedNeo4jService.

Lemma settled_no_change now g sl tl st tt rt props :
  settled g sl tl st tt rt →
  (createRelationshipWithValidation now g sl tl st tt rt props).1 = g.
Proof.
  unfold settled, createRelationshipWithValidation.
  destruct (findEntityByLabelAndType g sl st) as [s |]; [| done].
  destruct (findEntityByLabelAndType g tl tt) as [t |]; [| done].
  intros [[[r Hr] | Hrows] | Hname].
  - by rewrite Hr.
  - destruct (findRelationship g _ _ rt); [done |].
    unfold create_edges. rewrite Hrows. destruct (_ && _ && _); [| done]. cbn.
    rewrite app_nil_r, Nat.add_0_r. apply graph_eta.
  - unfold findRelationship. rewrite Hname.
    by rewrite (create_edges_no_name _ _ _ _ _ _ _ _ Hname).
Qed.

Lemma findRelationship_app g g' s t rt es :
  edges g' = edges g ++ es →
  is_Some (findRelationship g s t rt) → is_Some (findRelationship g' s t rt).
Proof.
  unfold findRelationship. intros ->. rewrite filter_app.
  destruct (symbolic_name rt); [| done].
  destruct (filter _ (edges g)) as [| r l]; [by intros [? [=]] |]. by eexists.
Qed.

Lemma settled_mono g g' sl tl st tt rt es :
  nodes g' = nodes g → edges g' = edges g ++ es →
  settled g sl tl st tt rt → settled g' sl tl st tt rt.
Proof.
  intros Hn He. unfold settled, findEntityByLabelAndType, endpoint_rows. rewrite Hn.
  destruct (symbolic_name st); [| done].
  destruct (find_node sl st (nodes g)) as [a |]; [| done].
  destruct (symbolic_name tt); [| done].
  destruct (find_node tl tt (nodes g)) as [b |]; [| done]. cbn [se_id].
  intros [[H | H] | H];
    [left; left; by eapply findRelationship_app | left; by right | by right].
Qed.

(** A call whose exact-label hits are at most one per endpoint and carry
    the resolved ids leaves nothing to do for the same call. *)
Lemma settled_after now g sl tl st tt rt props :
  (∀ s, findEntityByLabelAndType g sl st = Some s →
        ∀ a, a ∈ stored g st sl → node_id a = se_id s) →
  (∀ t, findEntityByLabelAndType g tl tt = Some t →
        ∀ b, b ∈ stored g tt tl → node_id b = se_id t) →
  settled (createRelationshipWithValidation now g sl tl st tt rt props).1 sl tl st tt rt.
Proof.
  intros Hs Ht.
  destruct (findEntityByLabelAndType g sl st) as [s |] eqn:Es.
  2:{ unfold createRelationshipWithValidation. rewrite Es. cbn [fst].
      unfold settled. by rewrite Es. }
  destruct (findEntityByLabelAndType g tl tt) as [t |] eqn:Et.
  2:{ unfold createRelationshipWithValidation. rewrite Es, Et. cbn [fst].
      unfold settled. by rewrite Es, Et. }
  destruct (findRelationship g (se_id s) (se_id t) rt) as [r |] eqn:Er.
  { unfold createRelationshipWithValidation. rewrite Es, Et, Er. cbn [fst].
    unfold settled. rewrite Es, Et, Er. left. left. by eexists. }
  rewrite (createRelationship_created _ _ _ _ _ _ _ _ s t Es Et Er). cbn [fst].
  rewrite (created_edges_rows _ _ _ _ _ _ _ _ s t Es Et).
  destruct (symbolic_name rt) eqn:Hname.
  2:{ unfold settled.
      change (findEntityByLabelAndType _ sl st) with (findEntityByLabelAndType g sl st).
      change (findEntityByLabelAndType _ tl tt) with (findEntityByLabelAndType g tl tt).
      rewrite Es, Et. by right. }
  set (created := imap _ _).
  set (g' := {| nodes := nodes g; edges := edges g ++ created;
                next_node := next_node g; next_edge := next_edge g + length created |}).
  assert (findEntityByLabelAndType g' sl st = Some s) as Es' by exact Es.
  assert (findEntityByLabelAndType g' tl tt = Some t) as Et' by exact Et.
  unfold settled. rewrite Es', Et'. left.
  destruct (endpoint_rows g sl tl st tt) as [| [a b] rows] eqn:Erows.
  { right. exact Erows. }
  left. unfold findRelationship, g'. rewrite Hname. cbn [edges]. rewrite filter_app.
  assert (a ∈ stored g st sl ∧ b ∈ stored g tt tl) as [Ha Hb].
  { assert ((a, b) ∈ endpoint_rows g sl tl st tt) as Hab by (rewrite Erows; by left).
    unfold endpoint_rows in Hab.
    apply list_elem_of_bind in Hab as (a' & Hab & Ha').
    apply list_elem_of_bind in Hab as (b' & Hab & Hb').
    apply list_elem_of_singleton in Hab as [= -> ->]. done. }
  unfold created. cbn [imap].
  rewrite filter_cons.
  rewrite decide_True.
  - destruct (filter _ (edges g)); by eexists.
  - unfold links, new_edge; cbn [edge_source edge_target edge_type fst snd].
    rewrite (Hs s eq_refl a Ha), (Ht t eq_refl b Hb), !Nat.eqb_refl, String.eqb_refl. done.
Qed.

End Settled.

Section Coherence.
Import EnhancedNeo4jService.

Lemma node_for_label ents ns a label :
  Forall2 node_for ents ns → a ∈ ns →
  node_props a !! "label" = Some (VStr label) →
  JS.toLowerCase label ∈ map folded ents.
Proof.
  induction 1 as [| e n es ns' (_ & Hl & _) _ IH]; intros Hin Hlab.
  { by apply elem_of_nil in Hin. }
  apply elem_of_cons in Hin as [-> | Hin]; cbn [map].
  - rewrite Hl in Hlab. injection Hlab as <-. by left.
  - right. by apply IH.
Qed.

Lemma node_for_find_where e n label :
  node_for e n →
  find_where label n = Some (String.eqb (folded e) (JS.toLowerCase label)).
Proof.
  intros (_ & Hl & Ha). unfold find_where. rewrite Hl, Ha. cbn.
  by rewrite orb_false_r.
Qed.

(** In a store holding one node per entity, entities of pairwise distinct
    case-folded labels, the node a label resolves to is the only one that
    can carry exactly this label. *)
Lemma resolved_is_exact ents ns label type m a :
  Forall2 node_for ents ns → NoDup (map folded ents) →
  find_node label type ns = Some m →
  a ∈ filter (fun n => has_exact_label type label n = true) ns →
  a = m.
Proof.
  induction 1 as [| e h es tl He Hrest IH]; intros Hnd Hfind Ha; [done |].
  cbn [map] in Hnd. apply NoDup_cons in Hnd as [Hfresh Hnd].
  cbn [find_node] in Hfind. rewrite filter_hit_cons in Ha.
  rewrite (node_for_find_where e h label He) in Hfind.
  destruct (has_exact_label type label h) eqn:Hhit.
  - pose proof (has_exact_label_prop _ _ _ Hhit) as Hlab.
    destruct He as (Hty & Hl & _). rewrite Hl in Hlab. injection Hlab as Hlab.
    assert (String.eqb (node_label h) type = true) as Hty'
      by (apply String.eqb_eq; by eapply hit_type).
    rewrite Hty' in Hfind. unfold folded in Hfind. rewrite Hlab, String.eqb_refl in Hfind.
    injection Hfind as <-.
    apply elem_of_cons in Ha as [-> | Ha]; [done |].
    apply list_elem_of_filter in Ha as [Hhit' Ha].
    exfalso. apply Hfresh. unfold folded at 1. rewrite Hlab.
    eapply node_for_label; [exact Hrest | exact Ha |].
    by apply has_exact_label_prop in Hhit'.
  - destruct (String.eqb (node_label h) type) eqn:Hty; [| by apply IH].
    destruct (String.eqb (folded e) (JS.toLowerCase label)) eqn:Heq; [| by apply IH].
    injection Hfind as <-.
    apply list_elem_of_filter in Ha as [Hhit' Ha].
    exfalso. apply Hfresh. apply String.eqb_eq in Heq. rewrite Heq.
    eapply node_for_label; [exact Hrest | exact Ha |].
    by apply has_exact_label_prop in Hhit'.
Qed.

Lemma coherent_store ents g label type s a :
  Forall2 node_for ents (nodes g) → NoDup (map folded ents) →
  findEntityByLabelAndType g label type = Some s →
  a ∈ stored g type label → node_id a = se_id s.
Proof.
  intros Hfor Hnd. unfold findEntityByLabelAndType.
  destruct (symbolic_name type); [| done].
  destruct (find_node label type (nodes g)) as [m |] eqn:Hm; [| done].
  intros [= <-] Ha. cbn [se_id]. f_equal. by eapply resolved_is_exact.
Qed.

Lemma same_keys_refl n : same_keys n n.
Proof. by split_and!. Qed.

Lemma same_keys_trans n1 n2 n3 : same_keys n1 n2 → same_keys n2 n3 → same_keys n1 n3.
Proof.
  intros (a1 & a2 & a3 & a4) (b1 & b2 & b3 & b4). split_and!; congruence.
Qed.

Lemma same_keys_find_where label n n' :
  same_keys n n' → find_where label n' = find_where label n.
Proof. intros (_ & _ & Hl & Ha). unfold find_where. by rewrite Hl, Ha. Qed.

Lemma same_keys_hit type label n n' :
  same_keys n n' → has_exact_label type label n' = has_exact_label type label n.
Proof. intros (_ & Hty & Hl & _). unfold has_exact_label. by rewrite Hty, Hl. Qed.

Lemma same_keys_find_node label type ns ns' :
  Forall2 same_keys ns ns' →
  option_Forall2 same_keys (find_node label type ns) (find_node label type ns').
Proof.
  induction 1 as [| n n' ns ns' Hn _ IH]; cbn [find_node]; [constructor |].
  destruct Hn as (Hid & Hty & Hl & Ha). rewrite Hty.
  destruct (String.eqb (node_label n) type); [| done].
  rewrite (same_keys_find_where label n n') by by split_and!.
  destruct (find_where label n) as [[] |]; [| done | constructor].
  constructor. by split_and!.
Qed.

Lemma same_keys_stored type label ns ns' :
  Forall2 same_keys ns ns' →
  Forall2 same_keys (filter (fun n => has_exact_label type label n = true) ns)
                    (filter (fun n => has_exact_label type label n = true) ns').
Proof.
  induction 1 as [| n n' ns ns' Hn _ IH]; [constructor |].
  rewrite !filter_hit_cons, (same_keys_hit type label n n' Hn).
  destruct (has_exact_label type label n); [by constructor | done].
Qed.

Lemma endpoint_rows_nil g sl tl st tt :
  endpoint_rows g sl tl st tt = [] ↔ stored g st sl = [] ∨ stored g tt tl = [].
Proof.
  split; [| intros [H | H]; [by apply endpoint_rows_nil_l | by apply endpoint_rows_nil_r]].
  unfold endpoint_rows, stored.
  destruct (filter (fun n => has_exact_label st sl n = true) (nodes g)) as [| a l];
    [by left |].
  destruct (filter (fun n => has_exact_label tt tl n = true) (nodes g)) as [| b l'];
    [by right |].
  cbn. done.
Qed.

Lemma settled_congr g g' sl tl st tt rt :
  Forall2 same_keys (nodes g) (nodes g') → edges g' = edges g →
  settled g sl tl st tt rt → settled g' sl tl st tt rt.
Proof.
  intros Hn He. unfold settled, findEntityByLabelAndType.
  pose proof (same_keys_find_node sl st _ _ Hn) as Hs.
  pose proof (same_keys_find_node tl tt _ _ Hn) as Ht.
  destruct (symbolic_name st); [| done].
  destruct Hs as [a a' (Hida & _) |]; [| done].
  destruct (symbolic_name tt); [| done].
  destruct Ht as [b b' (Hidb & _) |]; [| done].
  cbn [se_id]. rewrite Hida, Hidb.
  intros [[H | H] | H]; [| | by right].
  - left. left. unfold findRelationship in *. by rewrite He.
  - left. right. apply endpoint_rows_nil. apply endpoint_rows_nil in H. unfold stored in *.
    pose proof (same_keys_stored st sl _ _ Hn) as H1.
    pose proof (same_keys_stored tt tl _ _ Hn) as H2.
    destruct H as [H | H]; [left; rewrite H in H1; by inversion H1
                           | right; rewrite H in H2; by inversion H2].
Qed.

End Coherence.

Section EntityPhase.
Import EnhancedNeo4jService ProcessText.
Context (now : nat → nat).

Lemma node_for_same_keys e n n' : node_for e n → same_keys n n' → node_for e n'.
Proof.
  intros (H1 & H2 & H3) (_ & K1 & K2 & K3). split_and!; congruence.
Qed.

Lemma Forall2_node_for_same_keys ents l l' :
  Forall2 node_for ents l → Forall2 same_keys l l' → Forall2 node_for ents l'.
Proof.
  intros H. revert l'. induction H as [| e n es ns He _ IH]; intros l' Hk.
  - inversion Hk. constructor.
  - inversion Hk as [| ? n' ? ns' Hn Hns]; subst. constructor.
    + by eapply node_for_same_keys.
    + by apply IH.
Qed.

Lemma fresh_entity pre g e :
  Forall2 node_for pre (nodes g) → folded e ∉ map folded pre →
  stored g (ent_type e) (ent_label e) = [].
Proof.
  intros Hfor Hfresh. unfold stored.
  destruct (filter _ (nodes g)) as [| a l] eqn:Hf; [done |]. exfalso.
  assert (a ∈ filter (fun n => has_exact_label (ent_type e) (ent_label e) n = true) (nodes g))
    as Ha by (rewrite Hf; by left).
  apply list_elem_of_filter in Ha as [Hhit Ha]. apply Hfresh.
  eapply node_for_label; [exact Hfor | exact Ha | by apply has_exact_label_prop in Hhit].
Qed.

Lemma on_create_node_for k e id :
  clean e → node_for e (on_create k (entity_input e) id).
Proof.
  intros [[Hfree Hal] _].
  destruct (on_create_props k (entity_input e) id Hfree) as (Hl & _ & Ha).
  split_and!; [done | done |]. rewrite Ha. cbn [entity_input in_aliases]. by rewrite Hal.
Qed.

Lemma entity_step_fresh pre g proc k e :
  Forall2 node_for pre (nodes g) → Forall2 view pre proc →
  folded e ∉ map folded pre → clean e →
  ∃ g' proc',
    entity_step now (g, proc, k) e = (g', proc', S k) ∧
    Forall2 node_for (pre ++ [e]) (nodes g') ∧ Forall2 view (pre ++ [e]) proc' ∧
    edges g' = edges g ∧ next_edge g' = next_edge g.
Proof.
  intros Hfor Hview Hfresh Hclean. unfold entity_step.
  rewrite (merge_fresh (now k) g (entity_input e) (proj2 Hclean))
    by by apply (fresh_entity pre).
  eexists _, _. split; [done |]. cbn [nodes edges next_edge].
  split_and!; [| | done | done].
  - apply Forall2_app; [done |]. constructor; [| constructor].
    by apply on_create_node_for.
  - apply Forall2_app; [done |]. constructor; [| constructor].
    destruct (on_create_node_for (now k) e (next_node g) Hclean) as (_ & Hl & _).
    split; [exact Hl | done].
Qed.

Lemma entities_fresh suf pre g proc k :
  Forall2 node_for pre (nodes g) → Forall2 view pre proc →
  NoDup (map folded (pre ++ suf)) → Forall clean suf →
  ∃ g' proc' k',
    foldl (entity_step now) (g, proc, k) suf = (g', proc', k') ∧
    Forall2 node_for (pre ++ suf) (nodes g') ∧ Forall2 view (pre ++ suf) proc' ∧
    edges g' = edges g ∧ next_edge g' = next_edge g.
Proof.
  induction suf as [| e suf IH] in pre, g, proc, k |- *; intros Hfor Hview Hnd Hclean.
  - exists g, proc, k. by rewrite app_nil_r.
  - apply Forall_cons in Hclean as [He Hclean].
    assert (folded e ∉ map folded pre) as Hfresh.
    { rewrite map_app in Hnd. apply NoDup_app in Hnd as (_ & Hdis & _).
      intros Hin. eapply Hdis; [exact Hin |]. cbn. by left. }
    destruct (entity_step_fresh pre g proc k e Hfor Hview Hfresh He)
      as (g1 & proc1 & Hstep & Hfor1 & Hview1 & He1 & Hn1).
    cbn [foldl]. rewrite Hstep.
    destruct (IH (pre ++ [e]) g1 proc1 (S k)) as (g' & proc' & k' & Hfold & H1 & H2 & H3 & H4);
      [done | done | by rewrite <- app_assoc | done |].
    exists g', proc', k'. rewrite <- app_assoc in H1, H2.
    split_and!; [done | done | done | congruence | congruence].
Qed.

(** The node of an entity is the one node carrying its type and label. *)
Lemma stored_entity ents ns e :
  symbolic_name (ent_type e) = true →
  Forall2 node_for ents ns → NoDup (map folded ents) → e ∈ ents →
  ∃ n, filter (fun n => has_exact_label (ent_type e) (ent_label e) n = true) ns = [n]
       ∧ node_for e n.
Proof.
  intros Hname.
  induction 1 as [| e0 h es tl He0 Hrest IH]; intros Hnd Hin; [by apply elem_of_nil in Hin |].
  cbn [map] in Hnd. apply NoDup_cons in Hnd as [Hfresh Hnd].
  rewrite filter_hit_cons.
  destruct (has_exact_label (ent_type e) (ent_label e) h) eqn:Hhit.
  - pose proof (has_exact_label_prop _ _ _ Hhit) as Hlab.
    destruct He0 as (Hty0 & Hl0 & Ha0). rewrite Hl0 in Hlab. injection Hlab as Hlab.
    assert (filter (fun n => has_exact_label (ent_type e) (ent_label e) n = true) tl = [])
      as ->.
    { destruct (filter _ tl) as [| a l] eqn:Hf; [done |]. exfalso.
      assert (a ∈ filter (fun n => has_exact_label (ent_type e) (ent_label e) n = true) tl)
        as Ha by (rewrite Hf; by left).
      apply list_elem_of_filter in Ha as [Hhit' Ha]. apply Hfresh.
      unfold folded at 1. rewrite Hlab.
      eapply node_for_label; [exact Hrest | exact Ha | by apply has_exact_label_prop in Hhit']. }
    exists h. split; [done |].
    apply hit_type in Hhit as Hty. split_and!; [done | by rewrite Hl0, Hlab | done].
  - apply elem_of_cons in Hin as [-> | Hin]; [| by apply IH].
    exfalso. destruct He0 as (Hty0 & Hl0 & _).
    unfold has_exact_label in Hhit.
    rewrite Hname, Hty0, Hl0, !String.eqb_refl in Hhit. done.
Qed.

Lemma on_match_same_keys k e n :
  clean e → node_for e n →
  ∃ n', on_match k (entity_input e) n = Some n' ∧ same_keys n n'.
Proof.
  intros [[(Hfl & _ & Hfa) Hal] _] (Hty & Hl & Ha).
  destruct (on_match_props k (entity_input e) n [] Ha) as (n' & Hom & Hid & Hlab & Hprops).
  exists n'. split; [done |]. split_and!; [done | done | |]; rewrite Hprops.
  - rewrite lookup_union_r by done. rewrite !lookup_insert_ne by done.
    by apply set_prop_other.
  - rewrite lookup_union_r by done. rewrite lookup_insert_ne by done.
    rewrite lookup_insert_eq, Ha. cbn [entity_input in_aliases]. by rewrite Hal.
Qed.

Lemma replace_hits_same_keys type label n n' l :
  (∀ m, m ∈ l → has_exact_label type label m = true → m = n) → same_keys n n' →
  Forall2 same_keys l (replace_hits type label n' l).
Proof.
  intros Honly Hk. induction l as [| m l IH]; [constructor |].
  rewrite replace_hits_cons. constructor.
  - destruct (has_exact_label type label m) eqn:Hhit; [| apply same_keys_refl].
    rewrite (Honly m) by (by left || done). done.
  - apply IH. intros m' Hm'. apply Honly. by right.
Qed.

Lemma entity_step_again ents pre g proc k e :
  Forall2 node_for ents (nodes g) → NoDup (map folded ents) → e ∈ ents → clean e →
  Forall2 view pre proc →
  ∃ g' proc',
    entity_step now (g, proc, k) e = (g', proc', S k) ∧
    Forall2 same_keys (nodes g) (nodes g') ∧ Forall2 view (pre ++ [e]) proc' ∧
    edges g' = edges g ∧ next_edge g' = next_edge g.
Proof.
  intros Hfor Hnd Hin Hclean Hview.
  destruct (stored_entity ents (nodes g) e (proj2 Hclean) Hfor Hnd Hin) as (n & Hst & Hn).
  destruct (on_match_same_keys (now k) e n Hclean Hn) as (n' & Hom & Hk).
  unfold entity_step.
  rewrite (merge_existing (now k) g (entity_input e) n n') by done.
  eexists _, _. split; [done |]. cbn [nodes edges next_edge].
  split_and!; [| | done | done].
  - apply (replace_hits_same_keys _ _ n); [| done]. intros m Hm Hhit.
    by eapply (only_hit (ent_type e) (ent_label e) (nodes g)).
  - apply Forall2_app; [done |]. constructor; [| constructor].
    destruct (node_for_same_keys e n n' Hn Hk) as (_ & Hl & _). split; [exact Hl | done].
Qed.

Lemma entities_again ents suf pre g proc k :
  Forall2 node_for ents (nodes g) → NoDup (map folded ents) →
  (∀ e, e ∈ suf → e ∈ ents) → Forall clean suf → Forall2 view pre proc →
  ∃ g' proc' k',
    foldl (entity_step now) (g, proc, k) suf = (g', proc', k') ∧
    Forall2 same_keys (nodes g) (nodes g') ∧ Forall2 view (pre ++ suf) proc' ∧
    edges g' = edges g ∧ next_edge g' = next_edge g.
Proof.
  induction suf as [| e suf IH] in pre, g, proc, k |- *;
    intros Hfor Hnd Hsub Hclean Hview.
  - exists g, proc, k. rewrite app_nil_r. split_and!; try done.
    apply Forall2_same_length_lookup_2; [done |]. intros i x y Hx Hy.
    rewrite Hx in Hy. injection Hy as <-. apply same_keys_refl.
  - apply Forall_cons in Hclean as [He Hclean].
    destruct (entity_step_again ents pre g proc k e Hfor Hnd) as
      (g1 & proc1 & Hstep & Hk1 & Hview1 & He1 & Hn1);
      [apply Hsub; by left | done | done |].
    cbn [foldl]. rewrite Hstep.
    destruct (IH (pre ++ [e]) g1 proc1 (S k)) as (g' & proc' & k' & Hfold & H1 & H2 & H3 & H4);
      [by eapply Forall2_node_for_same_keys | done | intros; apply Hsub; by right
       | done | done |].
    exists g', proc', k'. rewrite <- app_assoc in H2.
    split_and!; [done | | done | congruence | congruence].
    clear -Hk1 H1. revert H1. generalize (nodes g'). revert Hk1.
    generalize (nodes g) (nodes g1). intros l1 l2 H12.
    induction H12 as [| a b l1 l2 Hab _ IH12]; intros l3 H23; inversion H23; subst;
      constructor; [by eapply same_keys_trans | by apply IH12].
Qed.

End EntityPhase.

Section RelationshipPhase.
Import EnhancedNeo4jService ProcessText.
Context (now : nat → nat).

(** The handler's search among the processed entities finds the first
    entity with the case-folded label. *)
Lemma find_processed_pick ents proc label :
  Forall2 view ents proc →
  match pick ents label with
  | Some e => ∃ s, find_processed proc label = Some (Some (s, ent_label e))
                   ∧ se_type s = ent_type e
  | None => find_processed proc label = Some None
  end.
Proof.
  induction 1 as [| e s es ss (Hl & Hty) _ IH]; [done |].
  unfold pick. cbn [List.find find_processed]. rewrite Hl. fold (folded e).
  destruct (String.eqb (folded e) (JS.toLowerCase label)); [| exact IH].
  by exists s.
Qed.

Lemma relationship_step_graph ents proc g l k rel :
  Forall2 view ents proc →
  (relationship_step now proc (g, l, k) rel).1.1 =
  match pick ents (rel_source rel), pick ents (rel_target rel) with
  | Some es, Some et =>
      (createRelationshipWithValidation (now k) g (ent_label es) (ent_label et)
         (ent_type es) (ent_type et) (rel_type rel) (relationship_properties rel)).1
  | _, _ => g
  end.
Proof.
  intros Hview. unfold relationship_step.
  pose proof (find_processed_pick ents proc (rel_source rel) Hview) as Hs.
  pose proof (find_processed_pick ents proc (rel_target rel) Hview) as Ht.
  destruct (pick ents (rel_source rel)) as [es |]; [| by rewrite Hs].
  destruct Hs as (s & -> & Hsty).
  destruct (pick ents (rel_target rel)) as [et |]; [| by rewrite Ht].
  destruct Ht as (t & -> & Htty). rewrite Hsty, Htty.
  by destruct (createRelationshipWithValidation _ _ _ _ _ _ _ _) as [g' [r |]].
Qed.

Lemma relationship_step_settles ents proc g l k rel :
  Forall2 view ents proc → Forall2 node_for ents (nodes g) → NoDup (map folded ents) →
  nodes (relationship_step now proc (g, l, k) rel).1.1 = nodes g ∧
  (∃ es, edges (relationship_step now proc (g, l, k) rel).1.1 = edges g ++ es) ∧
  settled_rel ents (relationship_step now proc (g, l, k) rel).1.1 rel.
Proof.
  intros Hview Hfor Hnd. rewrite (relationship_step_graph ents) by done.
  unfold settled_rel.
  destruct (pick ents (rel_source rel)) as [es |];
    [| split_and!; [done | exists []; by rewrite app_nil_r | done]].
  destruct (pick ents (rel_target rel)) as [et |];
    [| split_and!; [done | exists []; by rewrite app_nil_r | done]].
  destruct (createRelationship_extends (now k) g (ent_label es) (ent_label et)
              (ent_type es) (ent_type et) (rel_type rel) (relationship_properties rel))
    as (Hn & created & He & _).
  split_and!; [done | by exists created |].
  apply settled_after; intros s Hs a Ha; by eapply coherent_store.
Qed.

Lemma settled_rel_mono ents g g' rel es :
  nodes g' = nodes g → edges g' = edges g ++ es →
  settled_rel ents g rel → settled_rel ents g' rel.
Proof.
  intros Hn He. unfold settled_rel.
  destruct (pick ents (rel_source rel)); [| done].
  destruct (pick ents (rel_target rel)); [| done]. by eapply settled_mono.
Qed.

Lemma settled_rel_congr ents g g' rel :
  Forall2 same_keys (nodes g) (nodes g') → edges g' = edges g →
  settled_rel ents g rel → settled_rel ents g' rel.
Proof.
  intros Hn He. unfold settled_rel.
  destruct (pick ents (rel_source rel)); [| done].
  destruct (pick ents (rel_target rel)); [| done]. by apply settled_congr.
Qed.

(** After the relationship loop nothing is left to do for any of its
    relationships. *)
Lemma relationships_settle ents proc suf pre g l k :
  Forall2 view ents proc → Forall2 node_for ents (nodes g) → NoDup (map folded ents) →
  Forall (settled_rel ents g) pre →
  ∃ g' l' k',
    foldl (relationship_step now proc) (g, l, k) suf = (g', l', k') ∧
    nodes g' = nodes g ∧ Forall (settled_rel ents g') (pre ++ suf).
Proof.
  intros Hview.
  induction suf as [| rel suf IH] in pre, g, l, k |- *; intros Hfor Hnd Hpre.
  - exists g, l, k. by rewrite app_nil_r.
  - cbn [foldl].
    destruct (relationship_step_settles ents proc g l k rel Hview Hfor Hnd)
      as (Hn & (es & He) & Hset).
    destruct (relationship_step now proc (g, l, k) rel) as [[g1 l1] k1]. cbn [fst] in *.
    destruct (IH (pre ++ [rel]) g1 l1 k1) as (g' & l' & k' & Hfold & Hn' & Hall).
    + by rewrite Hn.
    + done.
    + apply Forall_app. split; [| by apply Forall_singleton].
      eapply Forall_impl; [exact Hpre |]. intros r. by apply (settled_rel_mono ents g g1 r es).
    + exists g', l', k'. rewrite <- app_assoc in Hall. split_and!; [done | congruence | done].
Qed.

Lemma relationships_idle ents proc rels g l k :
  Forall2 view ents proc → Forall (settled_rel ents g) rels →
  ∃ l' k', foldl (relationship_step now proc) (g, l, k) rels = (g, l', k').
Proof.
  intros Hview. induction rels as [| rel rels IH] in l, k |- *; intros Hall.
  - by exists l, k.
  - apply Forall_cons in Hall as [Hrel Hall]. cbn [foldl].
    pose proof (relationship_step_graph ents proc g l k rel Hview) as Hg.
    assert ((relationship_step now proc (g, l, k) rel).1.1 = g) as Hsame.
    { rewrite Hg. unfold settled_rel in Hrel.
      destruct (pick ents (rel_source rel)); [| done].
      destruct (pick ents (rel_target rel)); [| done]. by apply settled_no_change. }
    destruct (relationship_step now proc (g, l, k) rel) as [[g1 l1] k1]. cbn [fst] in Hsame.
    subst g1. by apply IH.
Qed.

End RelationshipPhase.

Section Reprocessing.
Import EnhancedNeo4jService ProcessText.

(** The types the rule-based strategy gives its entities are names. *)
Lemma guessEntityType_name word context :
  symbolic_name (LocalNLPProcessor.guessEntityType word context) = true.
Proof.
  unfold LocalNLPProcessor.guessEntityType. cbn zeta.
  repeat (match goal with |- context [if ?b then _ else _] => destruct b end);
    reflexivity.
Qed.

Lemma local_candidate_name text e :
  local_candidate text e → symbolic_name (ent_type e) = true.
Proof.
  intros (_ & _ & _ & [(_ & Hin & _) | [(_ & -> & _) | (_ & -> & _)]]).
  - assert (forallb symbolic_name (map fst LocalNLPProcessor.ENTITY_PATTERNS) = true)
      as Hall by (vm_compute; reflexivity).
    apply (proj1 (forallb_forall _ _) Hall). by apply list_elem_of_In.
  - apply guessEntityType_name.
  - reflexivity.
Qed.

Lemma extractEntities_free text :
  Forall (fun e => reserved_free (ent_properties e) ∧ ent_aliases e = Some [])
         (LocalNLPProcessor.extractEntities text).
Proof.
  unfold LocalNLPProcessor.extractEntities. cbn zeta.
  set (free := fun e => reserved_free (ent_properties e) ∧ ent_aliases e = Some []).
  apply (foldl_preserves (fun a : LocalNLPProcessor.acc => Forall free a.1)).
  { intros a noun Ha. unfold LocalNLPProcessor.noun_step. destruct (_ && _); [| done].
    cbn [fst]. apply Forall_app. split; [done |]. by apply Forall_singleton. }
  apply (foldl_preserves (fun a : LocalNLPProcessor.acc => Forall free a.1)).
  { intros a word Ha. unfold LocalNLPProcessor.capitalized_step. destruct (_ && _); [| done].
    cbn [fst]. apply Forall_app. split; [done |]. by apply Forall_singleton. }
  apply (foldl_preserves (fun a : LocalNLPProcessor.acc => Forall free a.1)); [| done].
  intros a g Ha. unfold LocalNLPProcessor.group_loop.
  apply (foldl_preserves (fun a : LocalNLPProcessor.acc => Forall free a.1)); [| done].
  intros a' re Ha'. unfold LocalNLPProcessor.pattern_loop.
  apply (foldl_preserves (fun a : LocalNLPProcessor.acc => Forall free a.1)); [| done].
  intros a'' m Ha''. unfold LocalNLPProcessor.pattern_step. destruct (_ && _); [| done].
  cbn [fst]. apply Forall_app. split; [done |]. by apply Forall_singleton.
Qed.

Lemma extractEntities_clean text :
  Forall clean (LocalNLPProcessor.extractEntities text).
Proof.
  apply Forall_and. split; [apply extractEntities_free |].
  eapply Forall_impl; [apply extractEntities_candidates |].
  intros e. apply local_candidate_name.
Qed.

(** The entities the coordinator returns on the rule-based path. *)
Lemma fallback_entities oneCall text :
  NoDup (map folded (entities (nlpProcessor false oneCall text).2)) ∧
  Forall clean (entities (nlpProcessor false oneCall text).2).
Proof.
  unfold nlpProcessor, HybridNLPProcessor.extract_traced.
  cbn [snd entities HybridNLPProcessor.enhanceLocalResults
       LocalNLPProcessor.extractEntitiesAndRelationships].
  rewrite local_filterEntities_id. split.
  - rewrite map_map. apply extractEntities_dedup.
  - apply Forall_map. eapply Forall_impl; [apply extractEntities_clean |].
    intros e [[(H1 & H2 & H3) Hal] Hname]. split; [split; [| done] | done].
    unfold reserved_free, HybridNLPProcessor.stamp; cbn [ent_properties].
    rewrite !lookup_insert_ne by done. done.
Qed.

Lemma same_keys_ident l l' :
  Forall2 same_keys l l' →
  map ident l' = map ident l ∧
  map (fun n => (node_label n, node_props n !! "label")) l'
  = map (fun n => (node_label n, node_props n !! "label")) l.
Proof.
  induction 1 as [| n n' l l' (Hid & Hty & Hl & _) _ [IH1 IH2]]; [done |].
  cbn [map]. unfold ident at 1 3. by rewrite Hid, Hty, Hl, IH1, IH2.
Qed.

End Reprocessing.

(** X17.  On the rule-based path, processing a text into a cleared graph
    and then processing the same text again without clearing stores
    nothing new, whatever the text: the second request leaves every node
    in place with its id, type and label, and leaves the edges exactly as
    they were. *)
Theorem reprocessing_is_idempotent oneCall now now' g text :
  map ident (EnhancedNeo4jService.nodes
               (ProcessText.POST false oneCall now'
                  (ProcessText.POST false oneCall now g text true).1 text false).1)
  = map ident (EnhancedNeo4jService.nodes
                 (ProcessText.POST false oneCall now g text true).1) ∧
  stored_labels (ProcessText.POST false oneCall now'
                   (ProcessText.POST false oneCall now g text true).1 text false).1
  = stored_labels (ProcessText.POST false oneCall now g text true).1 ∧
  EnhancedNeo4jService.edges
    (ProcessText.POST false oneCall now'
       (ProcessText.POST false oneCall now g text true).1 text false).1
  = EnhancedNeo4jService.edges (ProcessText.POST false oneCall now g text true).1.
Proof.
  unfold ProcessText.POST. destruct (String.eqb text ""); [done |].
  destruct (fallback_entities oneCall text) as [Hnd Hclean].
  set (result := (ProcessText.nlpProcessor false oneCall text).2) in *.
  destruct (entities_fresh now (entities result) [] (EnhancedNeo4jService.clearAllData g)
              [] 0) as (gA1 & procA & kA & HfoldA & HforA & HviewA & _);
    [constructor | constructor | done | done |].
  rewrite HfoldA. cbn [app] in HforA, HviewA.
  destruct (relationships_settle now (entities result) procA (relationships result) []
              gA1 [] kA) as (gA2 & lA & kA' & HfoldA2 & HnA2 & HsetA);
    [done | done | done | constructor |].
  rewrite HfoldA2. cbn [fst app] in *.
  destruct (entities_again now' (entities result) (entities result) [] gA2 [] 0)
    as (gB1 & procB & kB & HfoldB & HkB & HviewB & HeB & _);
    [by rewrite HnA2 | done | done | done | constructor |].
  rewrite HfoldB. cbn [app] in HviewB.
  destruct (relationships_idle now' (entities result) procB (relationships result)
              gB1 [] kB) as (lB & kB' & HfoldB2).
  { done. }
  { eapply Forall_impl; [exact HsetA |]. intros rel.
    by apply settled_rel_congr. }
  rewrite HfoldB2. cbn [fst].
  destruct (same_keys_ident _ _ HkB) as [H1 H2].
  split_and!; [done | exact H2 | done].
Qed.

(** * Denied labels, response counts and the snapshot *)

Section TechnicalTerms.
Import JS GeminiNLPProcessor.

Lemma append_assoc (a b c : string) : (a +:+ b) +:+ c = a +:+ (b +:+ c).
Proof.
  induction a as [| x a IH]; [done |].
  change (String x a +:+ b) with (String x (a +:+ b)).
  change (String x (a +:+ b) +:+ c) with (String x ((a +:+ b) +:+ c)).
  change (String x a +:+ (b +:+ c)) with (String x (a +:+ (b +:+ c))).
  by rewrite IH.
Qed.

Lemma prefix_split (sub s : string) :
  String.prefix sub s = true → ∃ y, s = sub +:+ y.
Proof.
  induction sub as [| c sub IH] in s |- *.
  - intros _. by exists s.
  - destruct s as [| d s]; cbn [String.prefix]; [done |].
    destruct (ascii_dec c d) as [<- |]; [| done].
    intros (y & ->)%IH. by exists y.
Qed.

Lemma includes_split (s sub : string) :
  includes s sub = true → ∃ x y, s = x +:+ sub +:+ y.
Proof.
  induction s as [| c s IH]; cbn [includes].
  - rewrite orb_false_r. intros (y & Hy)%prefix_split. by exists "", y.
  - intros [(y & Hy)%prefix_split | (x & y & ->)%IH]%orb_true_iff.
    + by exists "", y.
    + by exists (String c x), y.
Qed.

Lemma toLowerCase_app (a b : string) :
  toLowerCase (a +:+ b) = toLowerCase a +:+ toLowerCase b.
Proof.
  induction a as [| x a IH]; [done |].
  change (String x a +:+ b) with (String x (a +:+ b)). cbn [toLowerCase].
  by rewrite IH.
Qed.

(** A string that holds a technical term, in any case and anywhere, is a
    technical term. *)
Lemma isTechnicalTerm_inside a t b :
  isTechnicalTerm t = true → isTechnicalTerm (a +:+ t +:+ b) = true.
Proof.
  unfold isTechnicalTerm. intros (tech & Hin & Hinc)%existsb_exists.
  apply existsb_exists. exists tech. split; [done |].
  apply includes_split in Hinc as (x & y & Hxy).
  rewrite !toLowerCase_app, Hxy.
  rewrite !append_assoc, <- (append_assoc (toLowerCase a) x).
  apply includes_app.
Qed.

End TechnicalTerms.

(** X18.  A label that holds a technical term, in any case and anywhere
    in it, never survives the model-backed path: an entity with such a
    label is dropped by the entity filter, and so is a relationship with
    such a source or target by the relationship filter. *)
Theorem technical_labels_never_survive ents rels e r a t b :
  GeminiNLPProcessor.isTechnicalTerm t = true →
  (ent_label e = a +:+ t +:+ b → e ∉ GeminiNLPProcessor.filterEntities ents) ∧
  (rel_source r = a +:+ t +:+ b ∨ rel_target r = a +:+ t +:+ b →
   r ∉ GeminiNLPProcessor.filterRelationships rels ents).
Proof.
  intros Ht. pose proof (isTechnicalTerm_inside a t b Ht) as Hin. split.
  - intros Hl He.
    pose proof (proj1 (Forall_forall _ _) (gemini_entities_survivors ents) e He)
      as (_ & _ & Hno).
    rewrite Hl, Hin in Hno. done.
  - intros Hl [Hkeep _]%list_elem_of_filter.
    unfold GeminiNLPProcessor.keep_relationship in Hkeep.
    destruct (_ || _); [done |].
    destruct Hl as [Hl | Hl]; rewrite Hl, Hin, ?orb_true_r in Hkeep; done.
Qed.

Lemma technical_labels_never_survive_witness :
  profile_entity ∉ GeminiNLPProcessor.filterEntities [profile_entity].
Proof.
  destruct (technical_labels_never_survive [profile_entity] [] profile_entity
              {| rel_source := ""; rel_target := ""; rel_type := ""; rel_properties := ∅;
                 rel_confidence := 0; rel_context := "" |}
              "Pro" "file" "" eq_refl) as [H _].
  by apply H.
Defined.

Section Counts.
Import EnhancedNeo4jService ProcessText.
Context (now : nat → nat).

Lemma entity_step_count st entity :
  (length (entity_step now st entity).1.2 ≤ S (length st.1.2))%nat.
Proof.
  destruct st as [[g proc] k]. unfold entity_step.
  destruct (createEntityWithMerge _ _ _) as [[g' r] |]; cbn; [| lia].
  rewrite length_app. cbn. lia.
Qed.

Lemma entities_count l st :
  (length (foldl (entity_step now) st l).1.2 ≤ length st.1.2 + length l)%nat.
Proof.
  induction l as [| e l IH] in st |- *; cbn [foldl length]; [lia |].
  etrans; [apply IH |]. pose proof (entity_step_count st e). lia.
Qed.

Lemma relationship_step_count processed st rel :
  (length (relationship_step now processed st rel).1.2 ≤ S (length st.1.2))%nat.
Proof.
  destruct st as [[g done_] k]. unfold relationship_step.
  destruct (find_processed processed (rel_source rel)) as [[[se sl] |] |]; cbn; try lia.
  destruct (find_processed processed (rel_target rel)) as [[[te tl] |] |]; cbn; try lia.
  destruct (createRelationshipWithValidation _ _ _ _ _ _ _ _) as [g' [r |]]; cbn; [| lia].
  rewrite length_app. cbn. lia.
Qed.

Lemma relationships_count processed l st :
  (length (foldl (relationship_step now processed) st l).1.2 ≤ length st.1.2 + length l)%nat.
Proof.
  induction l as [| e l IH] in st |- *; cbn [foldl length]; [lia |].
  etrans; [apply IH |]. pose proof (relationship_step_count processed st e). lia.
Qed.

End Counts.

(** X19.  What a reply reports.  A request is refused exactly when the
    text is empty, and then the graph is untouched; otherwise the reply
    carries the numbers of extracted entities and relationships, counts of
    processed ones that never exceed them, and the final graph. *)
Theorem response_counts key oneCall now g text clearBefore :
  match (ProcessText.POST key oneCall now g text clearBefore).2 with
  | ProcessText.BadRequest =>
      text = "" ∧ (ProcessText.POST key oneCall now g text clearBefore).1 = g
  | ProcessText.Json r =>
      text ≠ "" ∧
      ProcessText.success r = true ∧
      ProcessText.extractedEntities r
        = length (entities (ProcessText.nlpProcessor key oneCall text).2) ∧
      ProcessText.extractedRelationships r
        = length (relationships (ProcessText.nlpProcessor key oneCall text).2) ∧
      (ProcessText.entitiesCount r ≤ ProcessText.extractedEntities r)%nat ∧
      (ProcessText.relationshipsCount r ≤ ProcessText.extractedRelationships r)%nat ∧
      ProcessText.graphData r = (ProcessText.POST key oneCall now g text clearBefore).1
  end.
Proof.
  unfold ProcessText.POST. destruct (String.eqb text "") eqn:Ht.
  { cbn. split; [by apply String.eqb_eq | done]. }
  apply String.eqb_neq in Ht.
  set (g0 := if clearBefore then EnhancedNeo4jService.clearAllData g else g).
  set (result := (ProcessText.nlpProcessor key oneCall text).2).
  pose proof (entities_count now (entities result) (g0, [], 0)) as H1.
  destruct (foldl (ProcessText.entity_step now) (g0, [], 0) (entities result))
    as [[g1 processed] k].
  pose proof (relationships_count now processed (relationships result) (g1, [], k)) as H2.
  destruct (foldl (ProcessText.relationship_step now processed) _ _) as [[g2 rels] k2].
  cbn in *. split_and!; [done | done | done | done | lia | lia | done].
Qed.

(** X20.  On the rule-based path a request that clears the graph stores
    every extracted entity: the graph then holds exactly one node per
    entity of the extraction, in extraction order, with the entity's type
    and label and an empty alias list, and the reply counts all of them as
    processed. *)
Theorem fresh_request_stores_every_entity oneCall now g text :
  text ≠ "" →
  ∃ r,
    (ProcessText.POST false oneCall now g text true).2 = ProcessText.Json r ∧
    ProcessText.entitiesCount r = ProcessText.extractedEntities r ∧
    Forall2 node_for (entities (ProcessText.nlpProcessor false oneCall text).2)
      (EnhancedNeo4jService.nodes (ProcessText.POST false oneCall now g text true).1).
Proof.
  intros Ht. apply String.eqb_neq in Ht. unfold ProcessText.POST. rewrite Ht.
  destruct (fallback_entities oneCall text) as [Hnd Hclean].
  set (result := (ProcessText.nlpProcessor false oneCall text).2) in *.
  destruct (entities_fresh now (entities result) [] (EnhancedNeo4jService.clearAllData g)
              [] 0) as (gA1 & procA & kA & HfoldA & HforA & HviewA & _);
    [constructor | constructor | done | done |].
  rewrite HfoldA. cbn [app] in HforA, HviewA.
  destruct (relationships_settle now (entities result) procA (relationships result) []
              gA1 [] kA) as (gA2 & lA & kA' & HfoldA2 & HnA2 & HsetA);
    [done | done | done | constructor |].
  rewrite HfoldA2. cbn [fst snd]. eexists. split; [done |].
  cbn [ProcessText.entitiesCount ProcessText.extractedEntities]. split.
  - symmetry. by eapply Forall2_length.
  - by rewrite HnA2.
Qed.

Lemma fresh_request_stores_every_entity_witness :
  stored_labels (process_apple dangling_graph true).1
  = map (fun e => (ent_type e, Some (VStr (ent_label e))))
        (entities (LocalNLPProcessor.extractEntitiesAndRelationships apple_text)).
Proof.
  destruct (fresh_request_stores_every_entity unavailable ticks dangling_graph apple_text)
    as (r & _ & _ & Hfor); [unfold apple_text; intros [=] |].
  unfold process_apple, stored_labels.
  revert Hfor.
  generalize (EnhancedNeo4jService.nodes
                (ProcessText.POST false unavailable ticks dangling_graph apple_text true).1).
  assert (map (fun e => (ent_type e, Some (VStr (ent_label e))))
            (entities (ProcessText.nlpProcessor false unavailable apple_text).2)
          = map (fun e => (ent_type e, Some (VStr (ent_label e))))
              (entities (LocalNLPProcessor.extractEntitiesAndRelationships apple_text))) as <-.
  { unfold ProcessText.nlpProcessor, HybridNLPProcessor.extract_traced.
    cbn [snd entities HybridNLPProcessor.enhanceLocalResults]. by rewrite map_map. }
  generalize (entities (ProcessText.nlpProcessor false unavailable apple_text).2).
  intros ents ns Hfor. induction Hfor as [| e n es ns' (Hty & Hl & _) _ IH]; [done |].
  cbn [map]. by rewrite Hty, Hl, IH.
Defined.

Section Snapshot.
Import EnhancedNeo4jService.




End Snapshot.


Section SnapshotOrder.
Import EnhancedNeo4jService.

Lemma In_insert_row {A} (before : A → A → bool) x y l :
  In y (insert_row before x l) → y = x ∨ In y l.
Proof.
  induction l as [| z l IH]; cbn [insert_row].
  - intros [<- | []]. by left.
  - destruct (before x z).
    + intros [<- | H]; [by left | by right].
    + intros [<- | H]; [right; by left |].
      destruct (IH H) as [-> | H']; [by left | right; by right].
Qed.

(** Sorting by an order that is total and transitive on the rows at hand
    puts them in descending order of their key. *)
Lemma order_by_descending {A} (before : A → A → bool) (conf : A → Q) (P : A → Prop) l :
  (∀ a b, P a → P b → before a b = true → (conf b <= conf a)%Q) →
  (∀ a b, P a → P b → before a b = false → (conf a <= conf b)%Q) →
  Forall P l → descending conf (order_by before l) ∧ Forall P (order_by before l).
Proof.
  intros Ht Hf. induction 1 as [| x l Hx Hl [IH IHP]]; [done |].
  change (order_by before (x :: l)) with (insert_row before x (order_by before l)).
  revert IH IHP. generalize (order_by before l). clear l Hl.
  intros l. induction l as [| y l IHl]; intros Hd HP.
  { cbn. split; [done | by apply Forall_singleton]. }
  cbn [descending] in Hd. destruct Hd as [Hy Hd].
  apply Forall_cons in HP as [Py HP].
  cbn [insert_row]. destruct (before x y) eqn:Hb.
  - split; [| by repeat (apply Forall_cons; split)].
    cbn [descending]. split_and!; [| done | done].
    apply Forall_cons. split; [by apply Ht |].
    eapply Forall_impl; [exact Hy |]. intros z Hz. cbn beta in Hz.
    eapply Qle_trans; [exact Hz | by apply Ht].
  - destruct (IHl Hd HP) as [IH1 IH2].
    split; [| by apply Forall_cons].
    cbn [descending]. split; [| done].
    apply Forall_forall. intros z Hz%list_elem_of_In.
    apply In_insert_row in Hz as [-> | Hz]; [by apply Hf |].
    by eapply (proj1 (Forall_forall _ _) Hy), list_elem_of_In.
Qed.

Lemma numeric_coalesce m :
  numeric m →
  coalesce (m !! "confidence") (VNum 1)
  = Some (VNum (shown (or_default (m !! "confidence") (VNum 1)))).
Proof.
  intros [-> | (q & -> & Hq)]; [done |]. unfold or_default, truthy.
  destruct (Qeq_bool q 0) eqn:Hz; [| done]. by apply Qeq_bool_iff in Hz.
Qed.

Lemma Qle_bool_false x y : Qle_bool x y = false → (y <= x)%Q.
Proof.
  intros H. apply Qlt_le_weak, Qnot_le_lt. intros Hle.
  apply Qle_bool_iff in Hle. congruence.
Qed.

Lemma descending_map {A B} (f : A → B) (conf : B → Q) l :
  descending (fun a => conf (f a)) l → descending conf (map f l).
Proof.
  induction l as [| x l IH]; [done |]. cbn [descending map].
  intros [Hx Hl]. split; [by apply Forall_map | by apply IH].
Qed.

End SnapshotOrder.

(** X22.  In a store whose confidences are numbers other than zero (or
    absent) the entities and the relationships of a snapshot come in
    descending order of the confidence they show.  (The query orders by
    the stored confidence, absent counting as 1.0, while the snapshot
    shows 1.0 for every stored confidence that is falsy: a stored zero is
    listed last and shown as 1.0.) *)
Theorem snapshot_is_ordered g :
  Forall (fun n => numeric (EnhancedNeo4jService.node_props n))
         (EnhancedNeo4jService.nodes g) →
  Forall (fun r => numeric (EnhancedNeo4jService.edge_props r))
         (EnhancedNeo4jService.edges g) →
  descending (fun s => shown (EnhancedNeo4jService.se_confidence s))
    (EnhancedNeo4jService.getAllEntitiesAndRelationships g).1 ∧
  descending (fun s => shown (EnhancedNeo4jService.sr_confidence s))
    (EnhancedNeo4jService.getAllEntitiesAndRelationships g).2.
Proof.
  intros Hn He. unfold EnhancedNeo4jService.getAllEntitiesAndRelationships. cbn [fst snd].
  split; apply descending_map; cbn [EnhancedNeo4jService.se_confidence
                                   EnhancedNeo4jService.sr_confidence].
  - eapply (order_by_descending EnhancedNeo4jService.node_before _
              (fun n => numeric (EnhancedNeo4jService.node_props n))); [| | exact Hn].
    + intros a b Ha Hb. unfold EnhancedNeo4jService.node_before.
      rewrite (numeric_coalesce _ Ha), (numeric_coalesce _ Hb).
      unfold EnhancedNeo4jService.value_ltb. cbn [EnhancedNeo4jService.value_leb].
      set (ca := shown (EnhancedNeo4jService.or_default
                          (EnhancedNeo4jService.node_props a !! "confidence") (VNum 1))).
      set (cb := shown (EnhancedNeo4jService.or_default
                          (EnhancedNeo4jService.node_props b !! "confidence") (VNum 1))).
      destruct (Qle_bool ca cb) eqn:H1; cbn [negb].
      * destruct (Qle_bool cb ca) eqn:H2; cbn [negb]; [| done].
        intros _. by apply Qle_bool_iff.
      * intros _. by apply Qle_bool_false.
    + intros a b Ha Hb. unfold EnhancedNeo4jService.node_before.
      rewrite (numeric_coalesce _ Ha), (numeric_coalesce _ Hb).
      unfold EnhancedNeo4jService.value_ltb. cbn [EnhancedNeo4jService.value_leb].
      set (ca := shown (EnhancedNeo4jService.or_default
                          (EnhancedNeo4jService.node_props a !! "confidence") (VNum 1))).
      set (cb := shown (EnhancedNeo4jService.or_default
                          (EnhancedNeo4jService.node_props b !! "confidence") (VNum 1))).
      destruct (Qle_bool ca cb) eqn:H1; cbn [negb];
        [intros _; by apply Qle_bool_iff | done].
  - eapply (order_by_descending EnhancedNeo4jService.edge_before _
              (fun r => numeric (EnhancedNeo4jService.edge_props r))); [| | exact He].
    + intros a b Ha Hb. unfold EnhancedNeo4jService.edge_before.
      rewrite (numeric_coalesce _ Ha), (numeric_coalesce _ Hb).
      cbn [EnhancedNeo4jService.value_leb]. by intros ?%Qle_bool_iff.
    + intros a b Ha Hb. unfold EnhancedNeo4jService.edge_before.
      rewrite (numeric_coalesce _ Ha), (numeric_coalesce _ Hb).
      cbn [EnhancedNeo4jService.value_leb]. apply Qle_bool_false.
Qed.

Lemma snapshot_is_ordered_witness :
  map (fun s => shown (EnhancedNeo4jService.se_confidence s))
      (EnhancedNeo4jService.getAllEntitiesAndRelationships
         (upserts EnhancedNeo4jService.empty_graph
            [ candidate "Tesla" "COMPANY" (Some 0.6%Q) None ∅;
              candidate "Apple" "COMPANY" (Some 0.9%Q) None ∅ ])).1
  = [0.9%Q; 0.6%Q] ∧
  descending (fun s => shown (EnhancedNeo4jService.se_confidence s))
    (EnhancedNeo4jService.getAllEntitiesAndRelationships
       (upserts EnhancedNeo4jService.empty_graph
          [ candidate "Tesla" "COMPANY" (Some 0.6%Q) None ∅;
            candidate "Apple" "COMPANY" (Some 0.9%Q) None ∅ ])).1.
Proof.
  split; [vm_compute; reflexivity |].
  set (g := upserts EnhancedNeo4jService.empty_graph
              [ candidate "Tesla" "COMPANY" (Some 0.6%Q) None ∅;
                candidate "Apple" "COMPANY" (Some 0.9%Q) None ∅ ]).
  assert (Forall (fun n => numeric (EnhancedNeo4jService.node_props n))
            (EnhancedNeo4jService.nodes g)) as Hn.
  { set (ns := EnhancedNeo4jService.nodes g). vm_compute in ns. subst ns.
    apply Forall_cons_2; [right; eexists; split; [reflexivity | by intros [=]] |].
    apply Forall_cons_2; [right; eexists; split; [reflexivity | by intros [=]] |].
    apply Forall_nil_2. }
  assert (Forall (fun r => numeric (EnhancedNeo4jService.edge_props r))
            (EnhancedNeo4jService.edges g)) as He by apply Forall_nil_2.
  exact (proj1 (snapshot_is_ordered g Hn He)).
Defined.

(** A stored confidence of zero: the query lists the node last and the
    snapshot shows it with the confidence 1.0, above the 0.5 before it. *)
Lemma zero_confidence_is_shown_as_one :
  stored_property "confidence" zero_confidence_store
    = [Some (VNum 0.5); Some (VNum 0)] ∧
  map (fun s => shown (EnhancedNeo4jService.se_confidence s))
      (EnhancedNeo4jService.getAllEntitiesAndRelationships zero_confidence_store).1
    = [0.5%Q; 1%Q].
Proof. split; vm_compute; reflexivity. Qed.

(** * The text normalizer and the process-file route *)

Section ReplaceFacts.
Import JS RegExp.

Lemma all_chars_app P (a b : string) :
  all_chars P (a +:+ b) = all_chars P a && all_chars P b.
Proof.
  induction a as [| c a IH]; [done |].
  change (String c a +:+ b) with (String c (a +:+ b)). cbn [all_chars].
  by rewrite IH, andb_assoc.
Qed.

Lemma all_chars_list P (w : list ascii) :
  all_chars P (string_of_list_ascii w) = forallb P w.
Proof. induction w as [| c w IH]; [done |]. cbn. by rewrite IH. Qed.

Lemma all_chars_keep cl s : all_chars (class_has false cl) (keep cl s) = true.
Proof.
  induction s as [| c s IH]; [done |]. cbn [keep].
  destruct (class_has false cl c) eqn:Hc; [| done]. cbn [all_chars]. by rewrite Hc.
Qed.

Lemma all_chars_impl (P Q : ascii → bool) s :
  (∀ c, P c = true → Q c = true) → all_chars P s = true → all_chars Q s = true.
Proof.
  intros HPQ. induction s as [| c s IH]; [done |]. cbn [all_chars].
  intros [Hc Hs]%andb_true_iff. by rewrite (HPQ c Hc), IH.
Qed.

Lemma all_chars_trimStart P s : all_chars P s = true → all_chars P (trimStart s) = true.
Proof.
  induction s as [| c s IH]; [done |]. cbn [trimStart all_chars].
  intros [Hc Hs]%andb_true_iff. destruct (is_space c); [by apply IH |].
  cbn [all_chars]. by rewrite Hc, Hs.
Qed.

Lemma all_chars_trimEnd P s : all_chars P s = true → all_chars P (trimEnd s) = true.
Proof.
  induction s as [| c s IH]; [done |]. cbn [trimEnd all_chars].
  intros [Hc Hs]%andb_true_iff. specialize (IH Hs).
  destruct (trimEnd s) as [| d r].
  - destruct (is_space c); [done |]. cbn [all_chars]. by rewrite Hc.
  - cbn [all_chars] in *. by rewrite Hc, IH.
Qed.

Lemma all_chars_trim P s : all_chars P s = true → all_chars P (trim s) = true.
Proof. intros H. by apply all_chars_trimEnd, all_chars_trimStart. Qed.

(** What the search for the next match passes over. *)
Lemma first_match_gap (Q good : ascii → bool) ic r bef rst :
  (∀ b c tl, good c = true → run ic r (at_position b (c :: tl)) = [] → Q c = true) →
  forallb good rst = true →
  match first_match ic r bef rst with
  | Some (st, st') =>
      ∃ gap, rst = gap ++ rest st ∧ before st = rev gap ++ bef ∧ caps st = []
             ∧ forallb Q gap = true ∧ In st' (run ic r st)
             ∧ run ic r st = st' :: tail (run ic r st)
  | None => forallb Q rst = true
  end.
Proof.
  intros H1. induction rst as [| c tl IH] in bef |- *; intros Hgood; cbn [first_match].
  - fold (at_position bef []).
    destruct (run ic r (at_position bef [])) as [| hd l] eqn:Hrun; [done |].
    exists []. cbn. rewrite Hrun. split_and!; try done. by left.
  - fold (at_position bef (c :: tl)).
    cbn [forallb] in Hgood. apply andb_true_iff in Hgood as [Hc Htl].
    destruct (run ic r (at_position bef (c :: tl))) as [| hd l] eqn:Hrun.
    + pose proof (H1 bef c tl Hc Hrun) as HQ. specialize (IH (c :: bef) Htl).
      destruct (first_match ic r (c :: bef) tl) as [[st st'] |].
      * destruct IH as (gap & Hr & Hb & Hcaps & Hgap & Hin & Hhead).
        exists (c :: gap). cbn [app rev forallb]. rewrite HQ, Hgap, Hr, Hb.
        split_and!; try done. by rewrite <- app_assoc.
      * cbn [forallb]. by rewrite HQ, IH.
    + exists []. cbn. rewrite Hrun. split_and!; try done. by left.
Qed.

Lemma forallb_suffix (P : ascii → bool) l1 l2 :
  forallb P (l1 ++ l2) = true → forallb P l2 = true.
Proof. rewrite forallb_app. by intros [_ H]%andb_true_iff. Qed.

(** The characters of the result of a [replace]: those passed over
    between the matches, and those of the replacements. *)
Lemma splice_scan_chars (Q good : ascii → bool) ic r f fuel bef rst :
  nullable r = false →
  (∀ b c tl, good c = true → run ic r (at_position b (c :: tl)) = [] → Q c = true) →
  (∀ m, Forall (captured_by ic r) (groups m) → all_chars Q (f m) = true) →
  (length rst < fuel)%nat → forallb good rst = true →
  all_chars Q (splice f (length bef) (rev bef ++ rst) (scan fuel ic r bef rst)) = true.
Proof.
  intros Hn H1 H2. induction fuel as [| fu IH] in bef, rst |- *; intros Hlen Hgood; [lia |].
  cbn [scan]. pose proof (first_match_gap Q good ic r bef rst H1 Hgood) as Hfm.
  destruct (first_match ic r bef rst) as [[st st'] |].
  2:{ cbn [splice]. rewrite <- (length_rev bef), drop_app_length. by rewrite all_chars_list. }
  destruct Hfm as (gap & Hr & Hb & Hcaps & Hgap & Hrun & _).
  pose proof (run_advances _ _ _ _ Hn Hrun) as Hadv.
  destruct (run_reaches _ _ _ _ Hrun) as (w & [Hrw Hbw] & _).
  assert (length w = length (before st') - length (before st))%nat as Hw.
  { rewrite Hbw, length_app, length_rev. lia. }
  assert (whole (result_of st st') = string_of_list_ascii w) as Hwhole.
  { unfold result_of; cbn [whole]. by rewrite <- Hw, Hrw, take_app_length. }
  apply Nat.ltb_lt in Hadv as Hlt. rewrite Hlt.
  cbn [splice]. rewrite Hwhole, length_string_of_list_ascii. cbn [index result_of].
  rewrite !all_chars_app. apply andb_true_iff. split; [| apply andb_true_iff; split].
  - rewrite <- (length_rev bef), drop_app_length, Hb, length_app, !length_rev.
    replace (length gap + length bef - length bef)%nat with (length gap) by lia.
    rewrite Hr, take_app_length. by rewrite all_chars_list.
  - apply H2. cbn [groups result_of].
    apply run_captures in Hrun as (new & Hnew & Hf). by rewrite Hnew, Hcaps, app_nil_r.
  - replace (length (before st) + length w)%nat with (length (before st')) by lia.
    replace (rev bef ++ rst) with (rev (before st') ++ rest st').
    + apply IH.
      * rewrite Hr, Hrw, !length_app in Hlen. rewrite Hw in Hlen. lia.
      * rewrite Hr, Hrw in Hgood. by do 2 apply forallb_suffix in Hgood.
    + rewrite Hbw, Hb, Hr, Hrw, !rev_app_distr, !rev_involutive. by rewrite <- !app_assoc.
Qed.

Lemma length_list_ascii_of_string s : length (list_ascii_of_string s) = String.length s.
Proof. induction s as [| c s IH]; [done |]. cbn. by rewrite IH. Qed.

Lemma replace_chars (Q good : ascii → bool) re f s :
  nullable (pattern re) = false →
  (∀ b c tl, good c = true →
             run (ignoreCase re) (pattern re) (at_position b (c :: tl)) = [] → Q c = true) →
  (∀ m, Forall (captured_by (ignoreCase re) (pattern re)) (groups m) →
        all_chars Q (f m) = true) →
  all_chars good s = true →
  all_chars Q (replace re f s) = true.
Proof.
  intros Hn H1 H2 Hs. unfold replace, matchAll.
  apply (splice_scan_chars Q good _ _ f _ [] (list_ascii_of_string s)); try done.
  - rewrite length_list_ascii_of_string. lia.
  - by rewrite <- all_chars_list, string_of_list_ascii_of_string.
Qed.

End ReplaceFacts.

Section Normalizer.
Import JS RegExp EnhancedFileProcessor.

Lemma run_space st :
  run false space st =
  match rest st with
  | c :: tl =>
      if is_space c
      then [ {| before := c :: before st; rest := tl; caps := caps st |} ]
      else []
  | [] => []
  end.
Proof.
  unfold space. cbn [run]. destruct (rest st) as [| c tl]; [done |].
  unfold class_has. cbn [existsb cset_has andb]. by rewrite !orb_false_r.
Qed.

(** Greedy repetition of [\s] stops only where no blank follows. *)
Lemma star_space_head fuel st :
  (length (rest st) ≤ fuel)%nat →
  ∃ st' l, star_loop (run false space) fuel st = st' :: l ∧ starts_space (rest st') = false.
Proof.
  induction fuel as [| f IH] in st |- *; intros Hlen; cbn [star_loop].
  - exists st, []. split; [done |]. destruct (rest st); [done | cbn in Hlen; lia].
  - rewrite run_space. destruct (rest st) as [| c tl] eqn:Hr.
    + exists st, []. by rewrite Hr.
    + destruct (is_space c) eqn:Hc.
      * cbn [map concat before]. 
        assert (Nat.ltb (length (before st)) (length (c :: before st)) = true) as ->
          by (apply Nat.ltb_lt; cbn; lia).
        destruct (IH {| before := c :: before st; rest := tl; caps := caps st |})
          as (st' & l & -> & Hst'); [cbn in *; lia |].
        exists st', (l ++ [] ++ [st]). split; [| done]. by rewrite app_nil_r.
      * exists st, []. cbn. split; [done |]. by rewrite Hr; cbn; rewrite Hc.
Qed.

Lemma plus_space_run b c tl :
  if is_space c
  then ∃ st' l, run false (plus space) (at_position b (c :: tl)) = st' :: l
                ∧ starts_space (rest st') = false
  else run false (plus space) (at_position b (c :: tl)) = [].
Proof.
  unfold plus. cbn [run]. rewrite run_space. cbn [rest at_position].
  destruct (is_space c); [| done]. cbn [map concat].
  destruct (star_space_head (length tl)
              {| before := c :: b; rest := tl; caps := [] |}) as (st' & l & Hs & Hst');
    [done |].
  cbn [rest before caps at_position] in *. rewrite Hs. by exists st', (l ++ []).
Qed.

Lemma plus_space_fails b c tl :
  run false (plus space) (at_position b (c :: tl)) = [] → is_space c = false.
Proof.
  intros H. pose proof (plus_space_run b c tl) as Hp.
  destruct (is_space c); [| done]. destruct Hp as (st' & l & Hp & _). congruence.
Qed.

Lemma plus_space_skips b c tl :
  run false (plus space) (at_position b (c :: tl)) = [] → not_space c = true.
Proof. intros H%plus_space_fails. unfold not_space. by rewrite H. Qed.

Lemma plus_space_empty b : run false (plus space) (at_position b []) = [].
Proof. unfold plus. cbn [run]. by rewrite run_space. Qed.

Lemma single_spaced_clean (w : list ascii) t :
  forallb not_space w = true → single_spaced t = true →
  single_spaced (string_of_list_ascii w +:+ t) = true.
Proof.
  intros Hw Ht. induction w as [| c w IH]; [done |].
  cbn [forallb] in Hw. apply andb_true_iff in Hw as [Hc Hw].
  cbn [string_of_list_ascii].
  change (String c (string_of_list_ascii w) +:+ t)
    with (String c (string_of_list_ascii w +:+ t)).
  cbn [single_spaced]. unfold not_space in Hc. apply negb_true_iff in Hc.
  rewrite Hc. cbn [andb negb]. by apply IH.
Qed.

(** Replacing [\s+] by a space leaves no blank next to a blank. *)
Lemma spaces_collapsed fuel bef rst :
  (length rst < fuel)%nat →
  single_spaced (splice (fun _ => " ") (length bef) (rev bef ++ rst)
                   (scan fuel false (plus space) bef rst)) = true ∧
  (starts_space rst = false →
   starts_blank (splice (fun _ => " ") (length bef) (rev bef ++ rst)
                   (scan fuel false (plus space) bef rst)) = false).
Proof.
  induction fuel as [| fu IH] in bef, rst |- *; intros Hlen; [lia |].
  cbn [scan].
  assert (forallb (fun _ : ascii => true) rst = true) as Hgood by (by apply forallb_forall).
  pose proof (first_match_gap not_space (fun _ => true) false (plus space) bef rst
                (fun b c tl _ H => plus_space_skips b c tl H) Hgood) as Hfm.
  destruct (first_match false (plus space) bef rst) as [[st st'] |].
  2:{ cbn [splice]. rewrite <- (length_rev bef), drop_app_length. split.
      - pose proof (single_spaced_clean rst "" Hfm eq_refl) as H.
        replace (string_of_list_ascii rst +:+ "") with (string_of_list_ascii rst) in H;
          [done |].
        clear. induction (string_of_list_ascii rst) as [| c s IHs]; [done |].
        change (String c s +:+ "") with (String c (s +:+ "")). by rewrite <- IHs.
      - intros _. destruct rst as [| c tl]; [done |]. cbn in Hfm |- *.
        apply andb_true_iff in Hfm as [Hc _]. unfold not_space in Hc.
        by apply negb_true_iff in Hc. }
  destruct Hfm as (gap & Hr & Hb & Hcaps & Hgap & Hrun & Hhead).
  assert (nullable (plus space) = false) as Hn by done.
  pose proof (run_advances _ _ _ _ Hn Hrun) as Hadv.
  destruct (run_reaches _ _ _ _ Hrun) as (w & [Hrw Hbw] & _).
  assert (length w = length (before st') - length (before st))%nat as Hw.
  { rewrite Hbw, length_app, length_rev. lia. }
  assert (whole (result_of st st') = string_of_list_ascii w) as Hwhole.
  { unfold result_of; cbn [whole]. by rewrite <- Hw, Hrw, take_app_length. }
  assert (starts_space (rest st) = true ∧ starts_space (rest st') = false) as [Hst Hst'].
  { assert (st = at_position (before st) (rest st)) as Hsteq.
    { destruct st as [b0 r0 c0]. cbn in Hcaps. by subst c0. }
    rewrite Hsteq in Hhead. destruct (rest st) as [| c tl] eqn:Hrest.
    - rewrite plus_space_empty in Hhead. done.
    - pose proof (plus_space_run (before st) c tl) as Hp.
      destruct (is_space c) eqn:Hc.
      + destruct Hp as (st0 & l & Hp & Hst0). rewrite Hp in Hhead.
        injection Hhead as ->. cbn. by rewrite Hc.
      + rewrite Hp in Hhead. done. }
  apply Nat.ltb_lt in Hadv as Hlt. rewrite Hlt.
  cbn [splice]. rewrite Hwhole, length_string_of_list_ascii. cbn [index result_of].
  assert (take (length (before st) - length bef) (drop (length bef) (rev bef ++ rst)) = gap)
    as ->.
  { rewrite <- (length_rev bef), drop_app_length, Hb, length_app, !length_rev.
    replace (length gap + length bef - length bef)%nat with (length gap) by lia.
    by rewrite Hr, take_app_length. }
  replace (length (before st) + length w)%nat with (length (before st')) by lia.
  replace (rev bef ++ rst) with (rev (before st') ++ rest st').
  2:{ rewrite Hbw, Hb, Hr, Hrw, !rev_app_distr, !rev_involutive. by rewrite <- !app_assoc. }
  destruct (IH (before st') (rest st')) as [IH1 IH2].
  { rewrite Hr, Hrw, !length_app in Hlen. rewrite Hw in Hlen. lia. }
  specialize (IH2 Hst').
  set (out' := splice _ _ _ _) in *.
  assert (single_spaced (" " +:+ out') = true) as Hsp.
  { change (" " +:+ out') with (String " " out'). cbn [single_spaced].
    by rewrite IH2, IH1. }
  split; [by apply single_spaced_clean |].
  intros Hclean. destruct gap as [| g gap].
  - cbn [app] in Hr. rewrite Hr in Hclean. congruence.
  - cbn in Hgap |- *. apply andb_true_iff in Hgap as [Hg _]. unfold not_space in Hg.
    by apply negb_true_iff in Hg.
Qed.

Lemma single_spaced_tail c r : single_spaced (String c r) = true → single_spaced r = true.
Proof. cbn [single_spaced]. by intros [_ H]%andb_true_iff. Qed.

Lemma single_spaced_trimStart s :
  single_spaced s = true → single_spaced (trimStart s) = true.
Proof.
  induction s as [| c s IH]; [done |]. intros H. cbn [trimStart].
  destruct (is_space c); [| done]. by apply IH, (single_spaced_tail c).
Qed.

Lemma starts_blank_trimEnd r : starts_blank (trimEnd r) = true → starts_blank r = true.
Proof.
  destruct r as [| c r]; [done |]. cbn [trimEnd].
  destruct (trimEnd r); [| done]. by destruct (is_space c) eqn:Hc.
Qed.

Lemma single_spaced_trimEnd s :
  single_spaced s = true → single_spaced (trimEnd s) = true.
Proof.
  induction s as [| c s IH]; [done |]. cbn [single_spaced].
  intros [Hc Hs]%andb_true_iff. specialize (IH Hs). cbn [trimEnd].
  destruct (trimEnd s) as [| d r] eqn:Ht.
  - destruct (is_space c); [done |].
    cbn [single_spaced starts_blank]. by rewrite andb_false_r.
  - cbn [single_spaced] in IH |- *. rewrite IH, andb_true_r.
    apply negb_true_iff, andb_false_iff. apply negb_true_iff, andb_false_iff in Hc.
    destruct Hc as [Hc | Hc]; [by left |]. right.
    destruct (starts_blank (String d r)) eqn:Hd; [| done].
    rewrite <- Ht in Hd. apply starts_blank_trimEnd in Hd. congruence.
Qed.

Lemma replace_spaces_single s :
  single_spaced (replace (re_g (plus space)) (fun _ => " ") s) = true.
Proof.
  unfold replace, matchAll. cbn [ignoreCase pattern re_g].
  apply (spaces_collapsed _ [] (list_ascii_of_string s)).
  rewrite length_list_ascii_of_string. lia.
Qed.

Lemma whitelist_normal c :
  class_has false whitelist c = true → is_space c = false → normal_char c = true.
Proof.
  destruct c as [[] [] [] [] [] [] [] []]; vm_compute; intros H1 H2;
    first [reflexivity | discriminate H1 | discriminate H2].
Qed.

Lemma stops_whitelisted c :
  captures false (seq [Star space; Group 1 (Cls stops); Star space]) 1 c = true →
  class_has false whitelist c = true.
Proof.
  destruct c as [[] [] [] [] [] [] [] []]; vm_compute; intros H;
    first [reflexivity | discriminate H].
Qed.

Lemma group_captured ic r (m : match_result) k :
  Forall (captured_by ic r) (groups m) →
  ∃ w, default "" (group k m) = string_of_list_ascii w
       ∧ forallb (captures ic r k) w = true.
Proof.
  intros Hm. unfold group.
  destruct (filter _ (groups m)) as [| p l] eqn:Hf; [by exists [] |].
  exists p.2. split; [done |].
  assert (p ∈ filter (λ p : nat * list ascii, Nat.eqb p.1 k) (groups m)) as Hp.
  { rewrite Hf. by left. }
  apply list_elem_of_filter in Hp as [Hk Hp].
  apply Is_true_true, Nat.eqb_eq in Hk. subst k.
  exact (proj1 (Forall_forall _ _) Hm p Hp).
Qed.

Lemma only_spaces s :
  all_chars (fun c => Ascii.eqb c " ") s = true → single_spaced s = true →
  s = "" ∨ s = " ".
Proof.
  destruct s as [| c [| d r]]; [by left | |].
  - cbn. rewrite andb_true_r. intros ->%Ascii.eqb_eq _. by right.
  - cbn [all_chars single_spaced starts_blank].
    intros [->%Ascii.eqb_eq [->%Ascii.eqb_eq _]%andb_true_iff]%andb_true_iff H.
    by vm_compute in H.
Qed.

End Normalizer.

(** X23.  Whatever the text, the normalized text is canonical: it is made
    of plain spaces, word characters and the punctuation marks of the
    whitelist only (no tab, line break or other character), no space is
    followed by a space, and it neither starts nor ends with a blank. *)
Theorem normalized_text_is_canonical text :
  all_chars normal_char (EnhancedFileProcessor.preprocessText text) = true ∧
  single_spaced (EnhancedFileProcessor.preprocessText text) = true ∧
  JS.trim (EnhancedFileProcessor.preprocessText text)
  = EnhancedFileProcessor.preprocessText text.
Proof.
  unfold EnhancedFileProcessor.preprocessText. cbn zeta.
  set (s4 := RegExp.replace _ _ (RegExp.replace _ _ (RegExp.replace _ _ _))).
  split_and!.
  - apply all_chars_trim.
    apply (replace_chars normal_char (RegExp.class_has false EnhancedFileProcessor.whitelist)).
    + done.
    + intros b c tl Hc Hrun. apply whitelist_normal; [done |].
      by apply (plus_space_fails b c tl).
    + done.
    + apply (replace_chars _ (RegExp.class_has false EnhancedFileProcessor.whitelist)).
      * done.
      * done.
      * intros m Hm. unfold EnhancedFileProcessor.stop_and_blank.
        destruct (group_captured _ _ m 1 Hm) as (w & -> & Hw).
        rewrite all_chars_app, all_chars_list. apply andb_true_iff. split; [| done].
        apply forallb_forall. intros c Hc. apply stops_whitelisted.
        by eapply forallb_forall in Hw.
      * apply all_chars_keep.
  - apply single_spaced_trimEnd, single_spaced_trimStart, replace_spaces_single.
  - apply trim_idem.
Qed.

(** X24.  A text made of blanks only (or empty) normalizes to the empty
    text, the signal that there is nothing to extract. *)
Theorem blank_text_normalizes_to_nothing text :
  all_chars JS.is_space text = true →
  EnhancedFileProcessor.preprocessText text = "".
Proof.
  intros Hblank.
  assert (RegExp.replace (EnhancedFileProcessor.re_g (RegExp.plus RegExp.space))
            (fun _ => " ") text = ""
          ∨ RegExp.replace (EnhancedFileProcessor.re_g (RegExp.plus RegExp.space))
              (fun _ => " ") text = " ") as Hs1.
  { apply only_spaces; [| apply replace_spaces_single].
    apply (replace_chars _ JS.is_space); [done | | done | done].
    intros b c tl Hc Hrun. apply (plus_space_fails b c tl) in Hrun. congruence. }
  unfold EnhancedFileProcessor.preprocessText. cbn zeta.
  destruct Hs1 as [-> | ->]; vm_compute; reflexivity.
Qed.

Lemma blank_text_normalizes_to_nothing_witness :
  EnhancedFileProcessor.preprocessText blank_text = "".
Proof. apply blank_text_normalizes_to_nothing. reflexivity. Defined.

(** X25.  An upload whose text cannot be extracted, or is blank, fails
    after the graph was cleared: the reply is the error reply and the graph
    is left as the clear left it (empty when clearing was asked for),
    whereas the process-text handler refuses an empty text before it
    clears anything. *)
Theorem failed_upload_keeps_the_clear key oneCall now extractText txt pdf docx g file
    clearBefore :
  ProcessFile.rawText extractText txt pdf docx file = None ∨
  (∃ raw, ProcessFile.rawText extractText txt pdf docx file = Some raw
          ∧ all_chars JS.is_space raw = true) →
  ProcessFile.POST key oneCall now extractText txt pdf docx g (Some file) clearBefore
  = (if clearBefore then EnhancedNeo4jService.clearAllData g else g, ProcessFile.Failed).
Proof.
  intros [Hraw | (raw & Hraw & Hblank)]; unfold ProcessFile.POST; rewrite Hraw; [done |].
  cbn zeta. by rewrite (blank_text_normalizes_to_nothing raw Hblank).
Qed.

Lemma failed_upload_keeps_the_clear_witness :
  ProcessFile.rawText unavailable_file blank_extractor unavailable_file unavailable_file
    notes_txt = Some blank_text ∧
  ProcessFile.POST false unavailable ticks unavailable_file blank_extractor
    unavailable_file unavailable_file company_and_founder (Some notes_txt) true
  = (EnhancedNeo4jService.clearAllData company_and_founder, ProcessFile.Failed).
Proof.
  assert (ProcessFile.rawText unavailable_file blank_extractor unavailable_file
            unavailable_file notes_txt = Some blank_text) as Hraw by reflexivity.
  split; [exact Hraw |].
  apply (failed_upload_keeps_the_clear false unavailable ticks unavailable_file
           blank_extractor unavailable_file unavailable_file company_and_founder
           notes_txt true).
  right. exists blank_text. split; [exact Hraw | reflexivity].
Defined.

Section UploadFacts.
Import EnhancedNeo4jService.


End UploadFacts.

